(** * pdf2ttf: raster-to-vector glyph extraction and vector path editing

    A shallow embedding of the extraction pipeline of
    [src/components/CharacterExtractor.tsx] and of the path editor of
    [src/components/GlyphEditor.tsx], with the properties of the
    specification stated and settled against it.  The application shell
    ([src/App.tsx]), the prompt form and the request preparation of the
    image service are embedded as well, with further properties read off
    the code.

    Number model.  A JavaScript number is modelled by an exact rational
    ([Q]): the arithmetic of the handlers is read as arithmetic on real
    numbers; infinities and the sign of zero are outside this reading.
    Where the rounding of binary64 decides a property (the zoom at the
    cursor), the same expressions are also given on binary64 numbers
    ([Binary64]), and the property is stated on both readings.  Pixel
    coordinates and raster sizes, which the code keeps integral, are [Z].  A coordinate of a parsed point can also
    be [NaN], [undefined] or (after a JSON copy) [null]; these are the
    other constructors of [jsval]. *)

From Stdlib Require Import ZArith QArith Qminmax Qround Qabs Qcanon.
From Stdlib Require Import List String Ascii Bool Lia Lqa.
From Stdlib Require Import DecimalString DecimalZ DecimalPos.
From Stdlib Require Import Floats.
Import ListNotations.

Local Open Scope Z_scope.

(* A decimal literal of a binary64 number stands for the nearest one. *)
Set Warnings "-inexact-float".

(** ** JavaScript values that a point coordinate can hold *)

Module Js.

Inductive jsval : Type :=
| Num (q : Q)
| NaN
| Undefined
| Null.

(** [ToNumber]: [undefined] becomes [NaN], [null] becomes [0]. *)
Definition to_number (v : jsval) : jsval :=
  match v with
  | Num q => Num q
  | NaN => NaN
  | Undefined => NaN
  | Null => Num 0
  end.

Definition mul (a b : jsval) : jsval :=
  match to_number a, to_number b with
  | Num p, Num q => Num (Qred (p * q))
  | _, _ => NaN
  end.

(** [+] on two numbers (the operands in the source are products). *)
Definition add (a b : jsval) : jsval :=
  match to_number a, to_number b with
  | Num p, Num q => Num (Qred (p + q))
  | _, _ => NaN
  end.

Definition is_digit (c : ascii) : bool :=
  let n := nat_of_ascii c in (48 <=? n)%nat && (n <=? 57)%nat.

Definition is_letter (c : ascii) : bool :=
  let n := nat_of_ascii c in
  ((65 <=? n)%nat && (n <=? 90)%nat) || ((97 <=? n)%nat && (n <=? 122)%nat).

(** White space of [trim] and of the regular expression class [\s],
    restricted to ASCII (strings are byte strings here). *)
Definition is_space (c : ascii) : bool :=
  let n := nat_of_ascii c in
  ((9 <=? n)%nat && (n <=? 13)%nat) || (n =? 32)%nat.

Definition is_empty (s : string) : bool :=
  match s with EmptyString => true | String _ _ => false end.

Fixpoint trim_start (s : string) : string :=
  match s with
  | EmptyString => EmptyString
  | String c r => if is_space c then trim_start r else s
  end.

Fixpoint trim_end (s : string) : string :=
  match s with
  | EmptyString => EmptyString
  | String c r =>
      let r' := trim_end r in
      if is_space c && is_empty r' then EmptyString else String c r'
  end.

(** [String.prototype.trim]. *)
Definition trim (s : string) : string := trim_end (trim_start s).

(** Decimal digits of an integer, as [Number.prototype.toString] prints an
    integral number of magnitude below 10^21. *)
Definition Z_to_string (z : Z) : string := NilZero.string_of_int (Z.to_int z).

Fixpoint fraction_digits (fuel : nat) (r : Z) (den : Z) : string :=
  match fuel with
  | O => EmptyString
  | S fuel' =>
      if r =? 0 then EmptyString
      else String (ascii_of_nat (48 + Z.to_nat (10 * r / den)))
                  (fraction_digits fuel' ((10 * r) mod den) den)
  end.

(** Printing of a number in a template literal.  Integral values print as
    JavaScript prints them below 10^21; a fraction prints its decimal
    expansion (at most 20 digits), which is what JavaScript prints for a
    short decimal fraction of magnitude at least 10^-6.  Exponent notation
    is outside the model. *)
Definition number_to_string (q : Q) : string :=
  let q := Qred q in
  let n := Qnum q in
  let d := Zpos (Qden q) in
  if d =? 1 then Z_to_string n
  else
    ((if (n <? 0)%Z then "-" else "")
       ++ Z_to_string (Z.abs n / d)%Z ++ "."
       ++ fraction_digits 20 (Z.abs n mod d)%Z d)%string.

Definition to_string (v : jsval) : string :=
  match v with
  | Num q => number_to_string q
  | NaN => "NaN"%string
  | Undefined => "undefined"%string
  | Null => "null"%string
  end.

Fixpoint span_digits (s : string) : string * string :=
  match s with
  | EmptyString => (EmptyString, EmptyString)
  | String c r =>
      if is_digit c
      then let (ds, rest) := span_digits r in (String c ds, rest)
      else (EmptyString, s)
  end.

Definition digits_value (s : string) : Z :=
  match NilEmpty.uint_of_string s with
  | Some u => Z.of_uint u
  | None => 0
  end.

(** An unsigned decimal literal: digits, digits with a fraction, or a
    fraction alone. *)
Definition unsigned_literal (s : string) : jsval :=
  let (ip, rest) := span_digits s in
  match rest with
  | EmptyString => if is_empty ip then NaN else Num (digits_value ip # 1)
  | String c fr =>
      if Ascii.eqb c "."
      then
        let (fp, rest') := span_digits fr in
        if is_empty rest' && negb (is_empty ip && is_empty fp)
        then Num (Qred (digits_value (ip ++ fp)
                        # Z.to_pos (10 ^ Z.of_nat (String.length fp))))
        else NaN
      else NaN
  end.

Definition neg (v : jsval) : jsval :=
  match v with
  | Num q => Num (Qred (- q))
  | other => other
  end.

(** [Number(s)] on a string without letters: the empty string is [0], a
    signed decimal literal is its value, anything else is [NaN].  The forms
    of numeric literal that contain a letter (exponents, [Infinity],
    [0x..]) are not modelled: [parsePath] splits its input at every letter,
    so no token it converts contains one. *)
Definition Number (s : string) : jsval :=
  let t := trim s in
  match t with
  | EmptyString => Num 0
  | String c r =>
      if Ascii.eqb c "+" then unsigned_literal r
      else if Ascii.eqb c "-" then neg (unsigned_literal r)
      else unsigned_literal t
  end.

(** [JSON.parse(JSON.stringify(v))] on a coordinate: a number is kept,
    [NaN] is written as [null], an [undefined] property is dropped and so
    reads back as [undefined]. *)
Definition json_copy (v : jsval) : jsval :=
  match v with
  | Num q => Num q
  | NaN => Null
  | Undefined => Undefined
  | Null => Null
  end.

(** [Array.prototype.slice(-n)]: the last [n] elements. *)
Definition slice_last {A} (n : nat) (l : list A) : list A :=
  skipn (List.length l - n)%nat l.

(** [Array.prototype.slice(0, -1)]: all but the last element. *)
Definition slice_init {A} (l : list A) : list A := removelast l.

(** [Array.prototype.filter] with the index passed to the callback. *)
Fixpoint filter_index {A} (f : A -> nat -> bool) (i : nat) (l : list A) : list A :=
  match l with
  | [] => []
  | a :: r => if f a i then a :: filter_index f (S i) r else filter_index f (S i) r
  end.

End Js.

(** ** Shared records ([src/types.ts]) *)

Record VectorGlyph : Type := mkGlyph {
  glyph_id : string;
  svgPath : string;
  glyph_width : Z;
  glyph_height : Z;
  glyph_name : string
}.

Record BoundingBox : Type := mkBox {
  box_x : Q;
  box_y : Q;
  box_width : Q;
  box_height : Q
}.

(** ** The path editor ([src/components/GlyphEditor.tsx]) *)

Module GlyphEditor.
Import Js.

Inductive PointType : Type := corner | smooth.

(** [interface Point].  The optional control points [cx1 .. cy2] are never
    written or read by the code and are left out. *)
Record Point : Type := mkPoint {
  x : jsval;
  y : jsval;
  type : PointType
}.

Definition is_smooth (t : PointType) : bool :=
  match t with smooth => true | corner => false end.

(** *** [parsePath] *)

(** One pass from the right: the pending run of non-letters and the
    commands found so far. *)
Fixpoint scan_commands (d : string) : string * list string :=
  match d with
  | EmptyString => (EmptyString, [])
  | String c r =>
      let (run, cmds) := scan_commands r in
      if is_letter c then (EmptyString, String c run :: cmds)
      else (String c run, cmds)
  end.

(** [d.match(/[a-zA-Z][^a-zA-Z]*/g)]: every letter together with the
    non-letters that follow it; what precedes the first letter matches
    nothing.  The empty list stands for [null] too (the source returns [[]]
    then). *)
Definition match_commands (d : string) : list string :=
  snd (scan_commands d).

Definition is_separator (c : ascii) : bool :=
  is_space c || Ascii.eqb c ",".

Definition starts_with_separator (s : string) : bool :=
  match s with
  | EmptyString => false
  | String c _ => is_separator c
  end.

Definition cons_head (c : ascii) (l : list string) : list string :=
  match l with
  | [] => [String c EmptyString]
  | t :: r => String c t :: r
  end.

(** [s.split(/[\s,]+/)]: the pieces between maximal runs of separators; a
    separator at either end leaves an empty piece there, and the empty
    string gives one empty piece. *)
Fixpoint split_separators (s : string) : list string :=
  match s with
  | EmptyString => [EmptyString]
  | String c r =>
      if is_separator c
      then if starts_with_separator r then split_separators r
           else EmptyString :: split_separators r
      else cons_head c (split_separators r)
  end.

(** The body of the loop over the commands: the points pushed for [cmd]. *)
Definition parse_command (cmd : string) : list Point :=
  match cmd with
  | EmptyString => []
  | String type rest =>
      let coords := map Number (split_separators (trim rest)) in
      if Ascii.eqb type "M" || Ascii.eqb type "L"
      then [ {| x := nth 0 coords Undefined;
                y := nth 1 coords Undefined;
                type := corner |} ]
      else []
  end.

Definition parsePath (d : string) : list Point :=
  fold_left (fun points cmd => points ++ parse_command cmd)
            (match_commands d) [].

(** *** [pointsToPath] *)

Definition pointsToPath (points : list Point) : string :=
  match points with
  | [] => EmptyString
  | p0 :: _ =>
      let n := List.length points in
      let d := ("M" ++ to_string (x p0) ++ " " ++ to_string (y p0))%string in
      let d :=
        fold_left
          (fun d i =>
             let curr := nth i points p0 in
             let next := nth ((i + 1) mod n)%nat points p0 in
             if is_smooth (type curr) || is_smooth (type next)
             then (d ++ " L" ++ to_string (x next) ++ " " ++ to_string (y next))%string
             else (d ++ " L" ++ to_string (x next) ++ " " ++ to_string (y next))%string)
          (seq 0 n) d in
      (d ++ "Z")%string
  end.

(** *** [smoothPoints] *)

Definition smoothPoints (points : list Point) : list Point :=
  if (List.length points <? 3)%nat then points
  else
    match points with
    | [] => points
    | p0 :: _ =>
        let n := List.length points in
        fold_left
          (fun newPoints i =>
             let curr := nth i points p0 in
             let next := nth ((i + 1) mod n)%nat points p0 in
             let qx := add (mul (Num (3 # 4)) (x curr)) (mul (Num (1 # 4)) (x next)) in
             let qy := add (mul (Num (3 # 4)) (y curr)) (mul (Num (1 # 4)) (y next)) in
             let rx := add (mul (Num (1 # 4)) (x curr)) (mul (Num (3 # 4)) (x next)) in
             let ry := add (mul (Num (1 # 4)) (y curr)) (mul (Num (3 # 4)) (y next)) in
             newPoints ++ [ {| x := qx; y := qy; type := corner |};
                            {| x := rx; y := ry; type := corner |} ])
          (seq 0 n) []
    end.

(** *** Component state *)

Record Transform : Type := mkTransform {
  tx : Q;   (* transform.x *)
  ty : Q;   (* transform.y *)
  k : Q     (* transform.k *)
}.

Record EditorState : Type := mkEditor {
  points : list Point;
  history : list (list Point);
  transform : Transform;
  dragIdx : option nat;
  isPanning : bool;
  lastMousePos : Q * Q
}.

(** [useState] initial values. *)
Definition initial_state : EditorState :=
  {| points := [];
     history := [];
     transform := {| tx := 0; ty := 0; k := 1 |};
     dragIdx := None;
     isPanning := false;
     lastMousePos := (0, 0)%Q |}.

Definition set_points (pts : list Point) (s : EditorState) : EditorState :=
  {| points := pts; history := history s; transform := transform s;
     dragIdx := dragIdx s; isPanning := isPanning s;
     lastMousePos := lastMousePos s |}.

Definition set_history (h : list (list Point)) (s : EditorState) : EditorState :=
  {| points := points s; history := h; transform := transform s;
     dragIdx := dragIdx s; isPanning := isPanning s;
     lastMousePos := lastMousePos s |}.

Definition set_transform (t : Transform) (s : EditorState) : EditorState :=
  {| points := points s; history := history s; transform := t;
     dragIdx := dragIdx s; isPanning := isPanning s;
     lastMousePos := lastMousePos s |}.

Definition set_dragIdx (d : option nat) (s : EditorState) : EditorState :=
  {| points := points s; history := history s; transform := transform s;
     dragIdx := d; isPanning := isPanning s;
     lastMousePos := lastMousePos s |}.

Definition set_isPanning (b : bool) (s : EditorState) : EditorState :=
  {| points := points s; history := history s; transform := transform s;
     dragIdx := dragIdx s; isPanning := b;
     lastMousePos := lastMousePos s |}.

Definition set_lastMousePos (p : Q * Q) (s : EditorState) : EditorState :=
  {| points := points s; history := history s; transform := transform s;
     dragIdx := dragIdx s; isPanning := isPanning s;
     lastMousePos := p |}.

(** The scale computed by the initial effect and by [handleFitScreen]:
    [Math.min(containerW / (glyph.width + 40), containerH / (glyph.height + 40), 2)]. *)
Definition fit_transform (glyph : VectorGlyph) (containerW containerH : Z) : Transform :=
  let gw := inject_Z (glyph_width glyph) in
  let gh := inject_Z (glyph_height glyph) in
  let cw := inject_Z containerW in
  let ch := inject_Z containerH in
  let scale := Qmin (Qmin (cw / (gw + 40)) (ch / (gh + 40))) 2%Q in
  {| tx := (cw - gw * scale) / 2;
     ty := (ch - gh * scale) / 2;
     k := scale |}.

(** The effect run when the glyph is loaded.  [svg] is the client size of
    the drawing surface, [None] when [svgRef.current] is null. *)
Definition load_glyph (glyph : VectorGlyph) (svg : option (Z * Z)) (s : EditorState) : EditorState :=
  let s := set_points (parsePath (svgPath glyph)) s in
  match svg with
  | Some (containerW, containerH) =>
      set_transform (fit_transform glyph containerW containerH) s
  | None => s
  end.

Definition copy_point (p : Point) : Point :=
  {| x := json_copy (x p); y := json_copy (y p); type := type p |}.

(** [JSON.parse(JSON.stringify(points))]. *)
Definition copy_points (pts : list Point) : list Point := map copy_point pts.

Definition saveHistory (s : EditorState) : EditorState :=
  set_history (slice_last 10 (history s) ++ [copy_points (points s)]) s.

Definition handleUndo (s : EditorState) : EditorState :=
  match history s with
  | [] => s
  | h0 :: _ =>
      let prev := last (history s) h0 in
      set_history (slice_init (history s)) (set_points prev s)
  end.

Definition clamp_scale (v : Q) : Q := Qmax (1 # 10)%Q (Qmin 10%Q v).

Definition handleZoom (factor : Q) (s : EditorState) : EditorState :=
  let t := transform s in
  set_transform {| tx := tx t; ty := ty t; k := clamp_scale (k t * factor) |} s.

Definition handleFitScreen (glyph : VectorGlyph) (svg : option (Z * Z)) (s : EditorState) : EditorState :=
  match svg with
  | Some (containerW, containerH) =>
      set_transform (fit_transform glyph containerW containerH) s
  | None => s
  end.

(** The updater of [handleWheel] for a given zoom factor; [mouse] is the
    pointer relative to the drawing surface
    ([e.clientX - rect.left], [e.clientY - rect.top]). *)
Definition zoom_at (scaleFactor : Q) (mouse : Q * Q) (prev : Transform) : Transform :=
  let (mouseX, mouseY) := mouse in
  let newK := clamp_scale (k prev * scaleFactor) in
  let newX := (mouseX - (mouseX - tx prev) * (newK / k prev))%Q in
  let newY := (mouseY - (mouseY - ty prev) * (newK / k prev))%Q in
  {| tx := newX; ty := newY; k := newK |}.

(** [rect] is the origin of the bounding rectangle of the drawing surface,
    [None] when [svgRef.current] is null. *)
Definition handleWheel (deltaY : Q) (client : Q * Q) (rect : option (Q * Q))
    (s : EditorState) : EditorState :=
  let scaleFactor := if Qlt_le_dec 0 deltaY then (9 # 10)%Q else (11 # 10)%Q in
  match rect with
  | None => s
  | Some (rect_left, rect_top) =>
      set_transform
        (zoom_at scaleFactor
           (fst client - rect_left, snd client - rect_top)%Q (transform s)) s
  end.

(** The inverse of the content group's transform
    [translate(x, y) scale(k)], which [handleMouseMove] obtains from the
    DOM ([getScreenCTM().inverse()]), for a pointer given relative to the
    drawing surface. *)
Definition toModel (t : Transform) (screen : Q * Q) : Q * Q :=
  ((fst screen - tx t) / k t, (snd screen - ty t) / k t)%Q.

Definition handleNodeMouseDown (idx : nat) (s : EditorState) : EditorState :=
  set_dragIdx (Some idx) (saveHistory s).

Definition handleCanvasMouseDown (client : Q * Q) (s : EditorState) : EditorState :=
  set_lastMousePos client (set_isPanning true s).

(** [newPts[dragIdx] = { ...newPts[dragIdx], x: loc.x, y: loc.y }] for an
    index of the array. *)
Fixpoint write_xy (i : nat) (lx ly : Q) (pts : list Point) : list Point :=
  match pts, i with
  | [], _ => []
  | p :: r, O => {| x := Num lx; y := Num ly; type := type p |} :: r
  | p :: r, S i' => p :: write_xy i' lx ly r
  end.

(** [client] is the pointer position; [loc] is the pointer in the
    coordinates of the content group, [None] when [contentRef.current] is
    null.  The result is [None] when [dragIdx] is not an index of
    [points]: JavaScript would then grow the array with an entry that has
    no [type] (and holes before it), which is not a [Point] sequence. *)
Definition handleMouseMove (client : Q * Q) (loc : option (Q * Q))
    (s : EditorState) : option EditorState :=
  if isPanning s then
    let dx := (fst client - fst (lastMousePos s))%Q in
    let dy := (snd client - snd (lastMousePos s))%Q in
    let t := transform s in
    Some (set_lastMousePos client
            (set_transform {| tx := tx t + dx; ty := ty t + dy; k := k t |} s))
  else
    match dragIdx s, loc with
    | Some i, Some (lx, ly) =>
        if (i <? List.length (points s))%nat
        then Some (set_points (write_xy i lx ly (points s)) s)
        else None
    | _, _ => Some s
    end.

Definition handleMouseUp (s : EditorState) : EditorState :=
  set_isPanning false (set_dragIdx None s).

(** The argument of [onSave]. *)
Definition handleSave (glyph : VectorGlyph) (s : EditorState) : VectorGlyph :=
  {| glyph_id := glyph_id glyph;
     svgPath := pointsToPath (points s);
     glyph_width := glyph_width glyph;
     glyph_height := glyph_height glyph;
     glyph_name := glyph_name glyph |}.

Definition handleDoubleClickNode (idx : nat) (s : EditorState) : EditorState :=
  let s' := saveHistory s in
  if (3 <? List.length (points s))%nat
  then set_points (filter_index (fun _ i => negb (i =? idx)%nat) 0 (points s')) s'
  else s'.

Definition handleSmooth (s : EditorState) : EditorState :=
  let s' := saveHistory s in
  set_points (smoothPoints (points s')) s'.

Definition handleSimplify (s : EditorState) : EditorState :=
  let s' := saveHistory s in
  if (6 <? List.length (points s))%nat
  then set_points (filter_index (fun _ i => (i mod 2 =? 0)%nat) 0 (points s')) s'
  else s'.

(** *** User actions, as sequences of handler calls *)

Inductive Action : Type :=
| DragNode (idx : nat) (moves : list ((Q * Q) * (Q * Q)))
    (* press on node [idx]; pointer moves (client position, position in
       the content group); release *)
| DeleteNode (idx : nat)
    (* double click on node [idx]: the call of [handleDoubleClickNode];
       the two presses that a browser reports before it are two
       [DragNode idx []] actions *)
| Smooth
| Simplify
| Undo
| PanCanvas (start : Q * Q) (moves : list (Q * Q))
| ZoomButton (factor : Q)
| FitScreen (glyph : VectorGlyph) (svg : option (Z * Z))
| WheelZoom (deltaY : Q) (client : Q * Q) (rect : option (Q * Q)).

Fixpoint mouse_moves (moves : list ((Q * Q) * (Q * Q))) (s : EditorState) : option EditorState :=
  match moves with
  | [] => Some s
  | (client, loc) :: r =>
      match handleMouseMove client (Some loc) s with
      | Some s' => mouse_moves r s'
      | None => None
      end
  end.

Definition perform (a : Action) (s : EditorState) : option EditorState :=
  match a with
  | DragNode idx moves =>
      option_map handleMouseUp (mouse_moves moves (handleNodeMouseDown idx s))
  | DeleteNode idx => Some (handleDoubleClickNode idx s)
  | Smooth => Some (handleSmooth s)
  | Simplify => Some (handleSimplify s)
  | Undo => Some (handleUndo s)
  | PanCanvas start moves =>
      option_map handleMouseUp
        (mouse_moves (map (fun c => (c, c)) moves) (handleCanvasMouseDown start s))
  | ZoomButton factor => Some (handleZoom factor s)
  | FitScreen glyph svg => Some (handleFitScreen glyph svg s)
  | WheelZoom deltaY client rect => Some (handleWheel deltaY client rect s)
  end.

Fixpoint run (actions : list Action) (s : EditorState) : option EditorState :=
  match actions with
  | [] => Some s
  | a :: r =>
      match perform a s with
      | Some s' => run r s'
      | None => None
      end
  end.


End GlyphEditor.

(** ** The character extractor ([src/components/CharacterExtractor.tsx]) *)

Module CharacterExtractor.
Import Js.

(** *** [isPixelOn] *)

(** [data] is the [Uint8ClampedArray] of the canvas (four entries per
    pixel, row-major).  An entry read past the end is [undefined], which
    makes the brightness [NaN] and the comparison false. *)
Definition isPixelOn (data : list Z) (width x y threshold : Z) : bool :=
  if (x <? 0) || (x >=? width) || (y <? 0)
     || Qle_bool (inject_Z (Z.of_nat (List.length data)) / inject_Z (4 * width))
                 (inject_Z y)
  then false
  else
    let idx := (y * width + x) * 4 in
    match nth_error data (Z.to_nat idx),
          nth_error data (Z.to_nat (idx + 1)),
          nth_error data (Z.to_nat (idx + 2)) with
    | Some r, Some g, Some b =>
        let brightness :=
          ((34 # 100) * inject_Z r + (1 # 2) * inject_Z g + (16 # 100) * inject_Z b)%Q in
        negb (Qle_bool (inject_Z threshold) brightness)
    | _, _, _ => false
    end.

(** *** View state and its handlers *)

Record Transform : Type := mkTransform {
  tx : Q;      (* transform.x *)
  ty : Q;      (* transform.y *)
  scale : Q    (* transform.scale *)
}.

(** The state of the component; [imageSize], which no handler reads, is
    left out. *)
Record ExtractorState : Type := mkExtractor {
  selection : option BoundingBox;
  isDragging : bool;
  isPanning : bool;
  startPos : Q * Q;
  threshold : Z;
  transform : Transform
}.

Definition initial_state : ExtractorState :=
  {| selection := None;
     isDragging := false;
     isPanning := false;
     startPos := (0, 0)%Q;
     threshold := 128;
     transform := {| tx := 0; ty := 0; scale := 1 |} |}.

Definition set_transform (t : Transform) (s : ExtractorState) : ExtractorState :=
  {| selection := selection s; isDragging := isDragging s;
     isPanning := isPanning s; startPos := startPos s;
     threshold := threshold s; transform := t |}.

Definition set_selection (b : option BoundingBox) (s : ExtractorState) : ExtractorState :=
  {| selection := b; isDragging := isDragging s;
     isPanning := isPanning s; startPos := startPos s;
     threshold := threshold s; transform := transform s |}.

Definition set_gesture (dragging panning : bool) (start : Q * Q) (s : ExtractorState) : ExtractorState :=
  {| selection := selection s; isDragging := dragging;
     isPanning := panning; startPos := start;
     threshold := threshold s; transform := transform s |}.

Definition clamp_scale (v : Q) : Q := Qmax (1 # 10)%Q (Qmin 10%Q v).

Definition handleZoom (factor : Q) (s : ExtractorState) : ExtractorState :=
  let t := transform s in
  set_transform {| tx := tx t; ty := ty t; scale := clamp_scale (scale t * factor) |} s.

(** [Math.min(containerW / imgW, containerH / imgH, 1)] and the centring
    translation. *)
Definition fit_transform (containerW containerH imgW imgH : Z) : Transform :=
  let cw := inject_Z containerW in
  let ch := inject_Z containerH in
  let iw := inject_Z imgW in
  let ih := inject_Z imgH in
  let scale := Qmin (Qmin (cw / iw) (ch / ih)) 1%Q in
  {| tx := (cw - iw * scale) / 2;
     ty := (ch - ih * scale) / 2;
     scale := scale |}.

(** [dom] holds the client size of the container and the natural size of
    the image, [None] when either element is missing. *)
Definition resetView (dom : option (Z * Z * Z * Z)) (s : ExtractorState) : ExtractorState :=
  match dom with
  | None => s
  | Some (containerW, containerH, imgW, imgH) =>
      set_transform (fit_transform containerW containerH imgW imgH) s
  end.

(** The updater of [handleWheel] for a given zoom factor; [mouse] is the
    pointer relative to the container. *)
Definition zoom_at (scaleFactor : Q) (mouse : Q * Q) (prev : Transform) : Transform :=
  let (mouseX, mouseY) := mouse in
  let newScale := clamp_scale (scale prev * scaleFactor) in
  let scaleRatio := (newScale / scale prev)%Q in
  {| tx := mouseX - (mouseX - tx prev) * scaleRatio;
     ty := mouseY - (mouseY - ty prev) * scaleRatio;
     scale := newScale |}.

(** [rect] is the origin of the container's bounding rectangle, [None]
    when [containerRef.current] is null. *)
Definition handleWheel (deltaY : Q) (client : Q * Q) (rect : option (Q * Q))
    (s : ExtractorState) : ExtractorState :=
  let scaleFactor := if Qlt_le_dec 0 deltaY then (9 # 10)%Q else (11 # 10)%Q in
  match rect with
  | None => s
  | Some (rect_left, rect_top) =>
      set_transform
        (zoom_at scaleFactor
           (fst client - rect_left, snd client - rect_top)%Q (transform s)) s
  end.

(** Screen to image coordinates, as [handleMouseDown] and
    [handleMouseMove] compute them:
    [(e.clientX - rect.left - transform.x) / transform.scale]. *)
Definition toModel (t : Transform) (mouse : Q * Q) : Q * Q :=
  ((fst mouse - tx t) / scale t, (snd mouse - ty t) / scale t)%Q.

(** [pan] is true for the right button or a held shift key. *)
Definition handleMouseDown (pan : bool) (client : Q * Q) (rect : option (Q * Q))
    (s : ExtractorState) : ExtractorState :=
  match rect with
  | None => s
  | Some (rect_left, rect_top) =>
      if pan then
        set_gesture (isDragging s) true
          (fst client - tx (transform s), snd client - ty (transform s))%Q s
      else
        let (mx, my) :=
          toModel (transform s) (fst client - rect_left, snd client - rect_top)%Q in
        set_gesture true (isPanning s) (mx, my)
          (set_selection
             (Some {| box_x := mx; box_y := my; box_width := 0; box_height := 0 |}) s)
  end.

Definition handleMouseMove (client : Q * Q) (rect : option (Q * Q))
    (s : ExtractorState) : ExtractorState :=
  if isPanning s then
    set_transform
      {| tx := fst client - fst (startPos s);
         ty := snd client - snd (startPos s);
         scale := scale (transform s) |} s
  else
    match isDragging s, rect with
    | true, Some (rect_left, rect_top) =>
        let (currentX, currentY) :=
          toModel (transform s) (fst client - rect_left, snd client - rect_top)%Q in
        set_selection
          (Some {| box_x := Qmin (fst (startPos s)) currentX;
                   box_y := Qmin (snd (startPos s)) currentY;
                   box_width := Qabs (currentX - fst (startPos s));
                   box_height := Qabs (currentY - snd (startPos s)) |}) s
    | _, _ => s
    end.

Definition handleMouseUp (s : ExtractorState) : ExtractorState :=
  set_gesture false false (startPos s) s.

(** *** Boundary tracing *)

Record Pixel : Type := mkPixel { x : Z; y : Z }.

(** Order: N, NE, E, SE, S, SW, W, NW. *)
Definition offsets : list (Z * Z) :=
  [ (0, -1); (1, -1); (1, 0); (1, 1); (0, 1); (-1, 1); (-1, 0); (-1, -1) ].

Definition offset (i : Z) : Z * Z := nth (Z.to_nat i) offsets (0, 0).

Definition neighbour (p : Pixel) (i : Z) : Pixel :=
  {| x := x p + fst (offset i); y := y p + snd (offset i) |}.

Definition same_pixel (a b : Pixel) : bool := (x a =? x b) && (y a =? y b).

(** The loop that locates the backtrack pixel among the neighbours of [p];
    [ks] are the indices still to try. *)
Fixpoint find_startIndex (p b : Pixel) (ks : list Z) : Z :=
  match ks with
  | [] => 0
  | k :: r => if same_pixel (neighbour p k) b then k else find_startIndex p b r
  end.

Definition indices8 : list Z := [0; 1; 2; 3; 4; 5; 6; 7].

Section Trace.

Variables (data : list Z) (w h threshold : Z).

(** The clockwise scan from the neighbour after the backtrack pixel;
    [todo] holds the values of the loop counter still to run.  The result is
    [(nextP, nextB)]. *)
Fixpoint scan_neighbours (p : Pixel) (startIndex : Z) (todo : list Z) : option (Pixel * Pixel) :=
  match todo with
  | [] => None
  | i :: r =>
      let idx := (startIndex + 1 + i) mod 8 in
      let target := neighbour p idx in
      if isPixelOn data w (x target) (y target) threshold
      then
        let prevIdx := (idx - 1 + 8) mod 8 in
        Some (target, neighbour p prevIdx)
      else scan_neighbours p startIndex r
  end.

(** The variables of the tracing loop when it is left; [broke] tells that
    it was left by the [break] of the isolated-pixel case. *)
Record TraceState : Type := mkTrace {
  points : list Pixel;
  p : Pixel;
  b : Pixel;
  steps : Z;
  broke : bool
}.

Definition maxSteps : Z := w * h * 2.

(** The [do ... while] loop.  Each unit of [fuel] pays for one run of the
    body; [None] means that the fuel ran out before the loop was left.
    The set [visited], which is written and never read, is left out. *)
Fixpoint moore_loop (fuel : nat) (start p b : Pixel) (steps : Z) (points : list Pixel)
  : option TraceState :=
  match fuel with
  | O => None
  | S fuel' =>
      let points := points ++ [p] in
      let startIndex := find_startIndex p b indices8 in
      match scan_neighbours p startIndex indices8 with
      | Some (nextP, nextB) =>
          let steps := steps + 1 in
          if (negb (x nextP =? x start) || negb (y nextP =? y start))
             && (steps <? maxSteps)
          then moore_loop fuel' start nextP nextB steps points
          else Some {| points := points; p := nextP; b := nextB;
                       steps := steps; broke := false |}
      | None =>
          Some {| points := points; p := p; b := b; steps := steps; broke := true |}
      end
  end.

Definition range (n : Z) : list Z := map Z.of_nat (seq 0 (Z.to_nat n)).

(** The inner [for] loop of the search for the start pixel. *)
Fixpoint scan_row (y : Z) (xs : list Z) : option Pixel :=
  match xs with
  | [] => None
  | x :: r =>
      if isPixelOn data w x y threshold then Some {| x := x; y := y |}
      else scan_row y r
  end.

(** The outer [for] loop: the first foreground pixel in row-major order. *)
Fixpoint scan_rows (ys : list Z) : option Pixel :=
  match ys with
  | [] => None
  | y :: r =>
      match scan_row y (range w) with
      | Some s => Some s
      | None => scan_rows r
      end
  end.

Definition find_start : option Pixel := scan_rows (range h).

(** Fuel that covers every run of the loop: the body runs once, and again
    only while [steps < maxSteps]. *)
Definition trace_fuel : nat := S (Z.to_nat maxSteps).

(** Step 1 of [vectoriseSelection]: the array [points] after the search
    loops; [None] if the tracing loop were not left within [trace_fuel]. *)
Definition trace_points : option (list Pixel) :=
  match find_start with
  | None => Some []
  | Some start =>
      let back := {| x := x start - 1; y := y start |} in
      option_map points (moore_loop trace_fuel start start back 0 [])
  end.

End Trace.

(** *** Removal of collinear points *)

Definition origin : Pixel := {| x := 0; y := 0 |}.

Definition simplify_step (points : list Pixel) (simplified : list Pixel) (i : nat) : list Pixel :=
  let prev := last simplified origin in
  let curr := nth i points origin in
  let next := nth (i + 1) points origin in
  let dx1 := x curr - x prev in
  let dy1 := y curr - y prev in
  let dx2 := x next - x curr in
  let dy2 := y next - y curr in
  if negb (dx1 * dy2 =? dy1 * dx2) then simplified ++ [curr] else simplified.

Definition simplify (points : list Pixel) : list Pixel :=
  match points with
  | [] => []
  | p0 :: _ =>
      let n := List.length points in
      fold_left (simplify_step points) (seq 1 (n - 2)) [p0]
        ++ [nth (n - 1) points origin]
  end.

(** *** The path description and the glyph *)

Definition path_of (simplified : list Pixel) : string :=
  if (2 <? List.length simplified)%nat then
    match simplified with
    | [] => EmptyString
    | p0 :: rest =>
        (fold_left
           (fun svgPath q => svgPath ++ "L" ++ Z_to_string (x q) ++ " " ++ Z_to_string (y q))
           rest
           ("M" ++ Z_to_string (x p0) ++ " " ++ Z_to_string (y p0))
         ++ "Z")%string
    end
  else EmptyString.

(** [s.slice(-4)] on a string. *)
Definition last4 (s : string) : string :=
  substring (String.length s - 4) 4 s.

(** What the page gives to [vectoriseSelection]: whether the container is
    mounted, the natural and client size of the image element (if any),
    whether a 2D context is obtained, and the pixel data that
    [getImageData] returns for the canvas after [drawImage]. *)
Record Page : Type := mkPage {
  container : bool;
  img : option (Z * Z * Z * Z);  (* naturalWidth, naturalHeight, clientWidth, clientHeight *)
  context : bool;
  image_data : Z -> Z -> list Z  (* by canvas width and height *)
}.

(** The guards of [vectoriseSelection] and the canvas it draws the
    selected part into: width, height and pixel data, or [None] when the
    function returns before tracing. *)
Definition canvas_of (page : Page) (s : ExtractorState) : option (Z * Z * list Z) :=
  match selection s with
  | None => None
  | Some sel =>
      if negb (container page)
         || negb (Qle_bool 5 (box_width sel)) || negb (Qle_bool 5 (box_height sel))
      then None
      else
        match img page with
        | None => None
        | Some (naturalWidth, naturalHeight, clientWidth, clientHeight) =>
            let scaleX := (inject_Z naturalWidth / inject_Z clientWidth)%Q in
            let scaleY := (inject_Z naturalHeight / inject_Z clientHeight)%Q in
            let canvas_width := Qfloor (box_width sel * scaleX) in
            let canvas_height := Qfloor (box_height sel * scaleY) in
            if negb (context page) then None
            else Some (canvas_width, canvas_height,
                       image_data page canvas_width canvas_height)
        end
  end.

(** [vectoriseSelection].  The first component of the result is the
    argument of [onGlyphCreated] when the callback is invoked; the second
    is the state afterwards.  [now1] and [now2] are the two readings of
    [Date.now()].  The outer [None] stands for a tracing loop that is not
    left within its fuel. *)
Definition vectoriseSelection (page : Page) (now1 now2 : Z) (s : ExtractorState)
  : option (option VectorGlyph * ExtractorState) :=
  match canvas_of page s with
  | None => Some (None, s)
  | Some (w, h, data) =>
      match trace_points data w h (threshold s) with
      | None => None
      | Some points =>
          let simplified := simplify points in
          let svgPath := path_of simplified in
          if is_empty svgPath then Some (None, s)
          else
            let glyph :=
              {| glyph_id := Z_to_string now1;
                 svgPath := svgPath;
                 glyph_width := w;
                 glyph_height := h;
                 glyph_name := ("Glyph " ++ last4 (Z_to_string now2))%string |} in
            Some (Some glyph, set_selection None s)
      end
  end.

End CharacterExtractor.


(** ** The zoom at the cursor on binary64 numbers *)

Module Binary64.
Local Open Scope float_scope.

(** [Math.min] of two numbers: [NaN] when either is, and [-0] below [+0]. *)
Definition min (a b : float) : float :=
  if (is_nan a || is_nan b)%bool then nan
  else if a <? b then a
  else if b <? a then b
  else if (is_zero a && get_sign a)%bool then a else b.

(** [Math.max] of two numbers. *)
Definition max (a b : float) : float :=
  if (is_nan a || is_nan b)%bool then nan
  else if a <? b then b
  else if b <? a then a
  else if (is_zero a && get_sign a)%bool then b else a.

Record Transform : Type := mkTransform {
  tx : float;   (* transform.x *)
  ty : float;   (* transform.y *)
  k : float     (* transform.k in the editor, transform.scale in the extractor *)
}.

(** [Math.max(0.1, Math.min(10, v))]. *)
Definition clamp_scale (v : float) : float := max 0.1 (min 10 v).

(** The updater of [handleWheel], in the editor and in the extractor (which
    names the quotient [scaleRatio]): the same operations in the same
    order, each rounded to binary64. *)
Definition zoom_at (scaleFactor : float) (mouse : float * float) (prev : Transform) : Transform :=
  let (mouseX, mouseY) := mouse in
  let newK := clamp_scale (k prev * scaleFactor) in
  {| tx := mouseX - (mouseX - tx prev) * (newK / k prev);
     ty := mouseY - (mouseY - ty prev) * (newK / k prev);
     k := newK |}.

(** Screen to model coordinates for a pointer given relative to the
    container, [(mouse - transform.x) / transform.scale], as the handlers
    of the extractor compute it (the editor takes the same map from the
    DOM, as the inverse of [translate(x, y) scale(k)]). *)
Definition toModel (t : Transform) (mouse : float * float) : float * float :=
  ((fst mouse - tx t) / k t, (snd mouse - ty t) / k t).

End Binary64.

(** ** Vocabulary of the properties *)

Module ViewportSpec.
Local Open Scope Q_scope.

(** The interval that the zoom handlers clamp the scale to. *)
Definition scale_in_bounds (k : Q) : Prop := 1 # 10 <= k /\ k <= 10.




Definition example_editor (k0 : Q) : GlyphEditor.EditorState :=
  GlyphEditor.set_transform
    {| GlyphEditor.tx := 30; GlyphEditor.ty := -12; GlyphEditor.k := k0 |}
    GlyphEditor.initial_state.

Definition example_extractor (k0 : Q) : CharacterExtractor.ExtractorState :=
  CharacterExtractor.set_transform
    {| CharacterExtractor.tx := 30; CharacterExtractor.ty := -12;
       CharacterExtractor.scale := k0 |}
    CharacterExtractor.initial_state.

(** *** The binary64 reading *)




Fixpoint steps (n : nat) (from step : float) : list float :=
  match n with
  | O => []
  | S n' => from :: steps n' (from + step)%float step
  end.








End ViewportSpec.

Module EditorSpec.
Import Js GlyphEditor.





(** A corner point with integral coordinates. *)
Definition pt (px py : Z) : Point :=
  {| x := Num (inject_Z px); y := Num (inject_Z py); type := corner |}.

Fixpoint no_letters (s : string) : bool :=
  match s with
  | EmptyString => true
  | String c r => negb (is_letter c) && no_letters r
  end.

(** Empty, or beginning with a command letter. *)
Definition at_command (s : string) : bool :=
  match s with
  | EmptyString => true
  | String c _ => is_letter c
  end.

(** A command other than [M] and [L]. *)
Definition is_foreign (cmd : string) : bool :=
  match cmd with
  | EmptyString => false
  | String t _ => negb (Ascii.eqb t "M" || Ascii.eqb t "L")
  end.

Definition has_foreign_command (d : string) : bool :=
  existsb is_foreign (match_commands d).

Fixpoint all_chars (f : ascii -> bool) (s : string) : bool :=
  match s with
  | EmptyString => true
  | String c r => f c && all_chars f r
  end.

(** A character of a printed integer: a digit or the minus sign. *)
Definition int_char (c : ascii) : bool := is_digit c || Ascii.eqb c "-".

(** A printed number between separators: not empty, made of [int_char]s. *)
Definition is_token (s : string) : bool := negb (is_empty s) && all_chars int_char s.

Definition ipt (q : Z * Z) : Point := pt (fst q) (snd q).

Definition pixel_xy (q : CharacterExtractor.Pixel) : Z * Z :=
  (CharacterExtractor.x q, CharacterExtractor.y q).

Definition pixel_point (q : CharacterExtractor.Pixel) : Point :=
  ipt (pixel_xy q).

Definition coords (q : Z * Z) : string :=
  (Z_to_string (fst q) ++ " " ++ Z_to_string (snd q))%string.

(** What [pointsToPath] appends after the move-to, for the points it
    draws lines to. *)
Fixpoint editor_tail (nexts : list (Z * Z)) : string :=
  match nexts with
  | [] => "Z"
  | q :: r => (" L" ++ coords q ++ editor_tail r)%string
  end.

(** What [vectoriseSelection] appends after the move-to. *)
Fixpoint extractor_tail (nexts : list (Z * Z)) : string :=
  match nexts with
  | [] => "Z"
  | q :: r => ("L" ++ coords q ++ extractor_tail r)%string
  end.

(** The text that [pointsToPath] appends for the line to [p]. *)
Definition line_to (p : Point) : string :=
  (" L" ++ to_string (x p) ++ " " ++ to_string (y p))%string.

Definition square4 : list Point := [pt 0 0; pt 10 0; pt 10 10; pt 0 10].

Definition example_state : EditorState := set_points square4 initial_state.









End EditorSpec.

Module TracerSpec.
Import Js CharacterExtractor.

(** What holds of the loop variables when the tracing loop is left, for a
    loop entered with [steps0] steps and [n0] points. *)
Definition loop_post (data : list Z) (w h threshold : Z)
    (start : Pixel) (steps0 : Z) (n0 : nat) (r : TraceState) : Prop :=
  steps0 <= steps r
  /\ (steps r <= Z.max (steps0 + 1) (maxSteps w h))
  /\ Z.of_nat (List.length (points r))
     = Z.of_nat n0 + (steps r - steps0) + (if broke r then 1 else 0)
  /\ (if broke r
      then (steps r = steps0 \/ steps r < maxSteps w h)
           /\ scan_neighbours data w threshold (p r)
                (find_startIndex (p r) (b r) indices8) indices8 = None
      else steps0 < steps r
           /\ ((x (p r) = x start /\ y (p r) = y start) \/ steps r = maxSteps w h
               \/ (steps r = steps0 + 1 /\ maxSteps w h <= steps0))).

Definition shift (dx dy : Z) (q : Pixel) : Pixel :=
  {| x := x q + dx; y := y q + dy |}.

Definition shift_state (dx dy : Z) (r : TraceState) : TraceState :=
  {| points := map (shift dx dy) (points r);
     p := shift dx dy (p r);
     b := shift dx dy (b r);
     steps := steps r;
     broke := broke r |}.

Definition in_square (x0 y0 px py : Z) : bool :=
  (x0 <=? px) && (px <? x0 + 4) && (y0 <=? py) && (py <? y0 + 4).

Definition pixel_rgb (data : list Z) (w px py : Z) : option (Z * Z * Z) :=
  let idx := (py * w + px) * 4 in
  match nth_error data (Z.to_nat idx),
        nth_error data (Z.to_nat (idx + 1)),
        nth_error data (Z.to_nat (idx + 2)) with
  | Some r, Some g, Some b => Some (r, g, b)
  | _, _, _ => None
  end.

Definition grey (c : Z) (v : option (Z * Z * Z)) : bool :=
  match v with
  | Some (r, g, b) => (r =? c) && (g =? c) && (b =? c)
  | None => false
  end.

(** A [w] by [h] raster that is black (0,0,0) on the 4 by 4 square with
    top-left corner [(x0, y0)] and white (255,255,255) elsewhere. *)
Definition square_raster (data : list Z) (w h x0 y0 : Z) : bool :=
  (0 <=? x0) && (x0 + 4 <=? w) && (0 <=? y0) && (y0 + 4 <=? h)
  && (Z.of_nat (List.length data) =? 4 * w * h)
  && forallb
       (fun py =>
          forallb
            (fun px => grey (if in_square x0 y0 px py then 0 else 255)
                            (pixel_rgb data w px py))
            (range w))
       (range h).

Definition paint_square (w h x0 y0 : Z) : list Z :=
  flat_map
    (fun py =>
       flat_map
         (fun px => if in_square x0 y0 px py then [0; 0; 0; 255]
                    else [255; 255; 255; 255])
         (range w))
    (range h).

Definition black_4x4 : list Z := paint_square 4 4 0 0.

(** A 6 by 6 white raster with the black square at (1, 1). *)
Definition raster_6x6 : list Z := paint_square 6 6 1 1.

(** A 5 by 5 white raster. *)
Definition white_5x5 : list Z := repeat 255 100.

(** The four corners of the square, clockwise from the top left, and the
    last pixel of the raw trace. *)
Definition square_outline (x0 y0 : Z) : list Pixel :=
  [ {| x := x0; y := y0 |};
    {| x := x0 + 3; y := y0 |};
    {| x := x0 + 3; y := y0 + 3 |};
    {| x := x0; y := y0 + 3 |};
    {| x := x0; y := y0 + 1 |} ].

Definition square_corners (x0 y0 : Z) : list Pixel :=
  [ {| x := x0; y := y0 |};
    {| x := x0 + 3; y := y0 |};
    {| x := x0 + 3; y := y0 + 3 |};
    {| x := x0; y := y0 + 3 |} ].

(** A page whose canvas for a 5 by 5 selection holds [data]. *)
Definition example_page (data : list Z) : Page :=
  {| container := true;
     img := Some (100, 100, 100, 100);
     context := true;
     image_data := fun _ _ => data |}.

Definition example_selection : ExtractorState :=
  set_selection
    (Some {| box_x := 10; box_y := 10; box_width := 5; box_height := 5 |})
    initial_state.

End TracerSpec.

(** ** The application shell ([src/App.tsx]) *)

Module App.
Import Js.

Inductive ProcessingStatus : Type :=
| IDLE | UPLOADING | GENERATING | VECTORIZING | ERROR.

Record AppState : Type := mkApp {
  currentImage : option string;
  history : list string;
  status : ProcessingStatus;
  glyphs : list VectorGlyph;
  editingGlyph : option VectorGlyph;
  error : option string
}.

Definition initial_state : AppState :=
  {| currentImage := None; history := []; status := IDLE;
     glyphs := []; editingGlyph := None; error := None |}.

Definition handleImageSelected (base64 : string) (s : AppState) : AppState :=
  {| currentImage := Some base64; history := []; status := status s;
     glyphs := []; editingGlyph := None; error := error s |}.

(** [!currentImage]: [null] or the empty string. *)
Definition no_image (s : AppState) : bool :=
  match currentImage s with
  | None => true
  | Some img => is_empty img
  end.

(** [handleEditImage] up to the [await]: the guard, the status and the
    push of the current image. *)
Definition handleEditImage_before (s : AppState) : AppState :=
  match currentImage s with
  | None => s
  | Some img =>
      if is_empty img then s
      else
        {| currentImage := currentImage s; history := history s ++ [img];
           status := GENERATING; glyphs := glyphs s;
           editingGlyph := editingGlyph s; error := None |}
  end.

(** [handleEditImage] after the [await] of a call that was started:
    [outcome] is the image that [editImageWithGemini] returned, or [None]
    when it threw.  All its updates are functional or constant, so it
    applies to whatever the state is by then. *)
Definition handleEditImage_after (outcome : option string) (s : AppState) : AppState :=
  match outcome with
  | Some newImageBase64 =>
      {| currentImage := Some newImageBase64; history := history s;
         status := IDLE; glyphs := glyphs s;
         editingGlyph := editingGlyph s; error := error s |}
  | None =>
      {| currentImage := currentImage s; history := slice_init (history s);
         status := ERROR; glyphs := glyphs s;
         editingGlyph := editingGlyph s;
         error := Some "Failed to update image. Please try a different prompt."%string |}
  end.

(** [handleEditImage] when nothing else happens during the call. *)
Definition handleEditImage (outcome : option string) (s : AppState) : AppState :=
  if no_image s then s
  else handleEditImage_after outcome (handleEditImage_before s).

Definition handleUndo (s : AppState) : AppState :=
  match history s with
  | [] => s
  | h0 :: _ =>
      {| currentImage := Some (last (history s) h0);
         history := slice_init (history s);
         status := status s; glyphs := glyphs s;
         editingGlyph := editingGlyph s; error := error s |}
  end.

Definition set_glyphs (gs : list VectorGlyph) (editing : option VectorGlyph)
    (s : AppState) : AppState :=
  {| currentImage := currentImage s; history := history s; status := status s;
     glyphs := gs; editingGlyph := editing; error := error s |}.

Definition handleGlyphCreated (glyph : VectorGlyph) (s : AppState) : AppState :=
  set_glyphs (glyphs s ++ [glyph]) (editingGlyph s) s.

Definition handleDeleteGlyph (id : string) (s : AppState) : AppState :=
  set_glyphs (filter (fun g => negb (String.eqb (glyph_id g) id)) (glyphs s))
             (editingGlyph s) s.

Definition handleStartEditGlyph (glyph : VectorGlyph) (s : AppState) : AppState :=
  set_glyphs (glyphs s) (Some glyph) s.

Definition handleSaveGlyph (updatedGlyph : VectorGlyph) (s : AppState) : AppState :=
  set_glyphs
    (map (fun g => if String.eqb (glyph_id g) (glyph_id updatedGlyph)
                   then updatedGlyph else g)
         (glyphs s))
    None s.

(** The [onClose] handler given to the editor. *)
Definition handleCloseEditor (s : AppState) : AppState :=
  set_glyphs (glyphs s) None s.

Definition handleReset (s : AppState) : AppState :=
  {| currentImage := None; history := []; status := IDLE;
     glyphs := []; editingGlyph := None; error := error s |}.

End App.

(** ** The prompt form (the Gemini editor component) *)

Module GeminiEditor.
Local Open Scope N_scope.

(** A prompt is a JavaScript string: a sequence of UTF-16 code units. *)
Definition jsstring : Type := list N.

(** The code units that [String.prototype.trim] removes: the white space
    and the line terminators of ECMAScript (tab to carriage return, space,
    no-break space, U+1680, U+2000 to U+200A, U+2028, U+2029, U+202F,
    U+205F, U+3000 and U+FEFF). *)
Definition is_white_space (c : N) : bool :=
  ((9 <=? c) && (c <=? 13)) || (c =? 32) || (c =? 160) || (c =? 5760)
  || ((8192 <=? c) && (c <=? 8202)) || (c =? 8232) || (c =? 8233)
  || (c =? 8239) || (c =? 8287) || (c =? 12288) || (c =? 65279).

Definition is_nil (s : jsstring) : bool :=
  match s with [] => true | _ :: _ => false end.

Fixpoint trim_start (s : jsstring) : jsstring :=
  match s with
  | [] => []
  | c :: r => if is_white_space c then trim_start r else s
  end.

Fixpoint trim_end (s : jsstring) : jsstring :=
  match s with
  | [] => []
  | c :: r =>
      let r' := trim_end r in
      if is_white_space c && is_nil r' then [] else c :: r'
  end.

(** [String.prototype.trim]. *)
Definition trim (s : jsstring) : jsstring := trim_end (trim_start s).

(** [handleSubmit]: the argument of [onEdit] when it is called, and the
    prompt afterwards.  [generating] is [status === GENERATING]; a string
    is truthy when it is not empty. *)
Definition handleSubmit (generating : bool) (prompt : jsstring) : option jsstring * jsstring :=
  if negb (is_nil (trim prompt)) && negb generating
  then (Some prompt, [])
  else (None, prompt).

End GeminiEditor.

(** ** The image service (request preparation only) *)

Module GeminiService.
Import Js.

(** [s.split(',')]. *)
Fixpoint split_comma (s : string) : list string :=
  match s with
  | EmptyString => [EmptyString]
  | String c r =>
      if Ascii.eqb c ","
      then EmptyString :: split_comma r
      else GlyphEditor.cons_head c (split_comma r)
  end.

(** [base64Image.split(',')[1] || base64Image]: the text after the first
    comma and before the second, or the whole input when that is missing
    or empty. *)
Definition base64Data (base64Image : string) : string :=
  match nth_error (split_comma base64Image) 1 with
  | Some part => if is_empty part then base64Image else part
  | None => base64Image
  end.

(** The data URL that [editImageWithGemini] returns for an image part. *)
Definition image_url (mimeType : option string) (data : string) : string :=
  ("data:" ++ match mimeType with
              | Some m => if is_empty m then "image/png" else m
              | None => "image/png"
              end ++ ";base64," ++ data)%string.

End GeminiService.

(** ** Vocabulary of the further properties *)

Module MoreSpec.
Import Js.

(** Two distinct pixels that touch by a side or a corner. *)
Definition adjacent (a b : CharacterExtractor.Pixel) : Prop :=
  (Z.abs (CharacterExtractor.x a - CharacterExtractor.x b) <= 1)%Z
  /\ (Z.abs (CharacterExtractor.y a - CharacterExtractor.y b) <= 1)%Z
  /\ a <> b.

(** Every pixel of the list is adjacent to the next one. *)
Fixpoint chain (l : list CharacterExtractor.Pixel) : Prop :=
  match l with
  | a :: (b :: _) as r => adjacent a b /\ chain r
  | _ => True
  end.

(** [q] is a foreground pixel of the raster. *)
Definition on_pixel (data : list Z) (w threshold : Z) (q : CharacterExtractor.Pixel) : Prop :=
  CharacterExtractor.isPixelOn data w (CharacterExtractor.x q) (CharacterExtractor.y q)
    threshold = true.

(** [q] has a background pixel (or a place outside the raster) among its
    eight neighbours. *)
Definition has_background_neighbour (data : list Z) (w threshold : Z)
    (q : CharacterExtractor.Pixel) : Prop :=
  exists j, (0 <= j < 8)%Z
    /\ CharacterExtractor.isPixelOn data w
         (CharacterExtractor.x (CharacterExtractor.neighbour q j))
         (CharacterExtractor.y (CharacterExtractor.neighbour q j)) threshold = false.

(** [(px, py)] comes before [s] in row-major order. *)
Definition before (px py : Z) (s : CharacterExtractor.Pixel) : Prop :=
  (py < CharacterExtractor.y s
   \/ (py = CharacterExtractor.y s /\ px < CharacterExtractor.x s))%Z.

(** A 5 by 5 white raster with one black pixel at (0, 0) and a black
    2 by 2 block at (2, 2). *)
Definition speck_5x5 : list Z :=
  flat_map
    (fun py =>
       flat_map
         (fun px =>
            if ((px =? 0) && (py =? 0))%Z
               || ((2 <=? px) && (px <=? 3) && (2 <=? py) && (py <=? 3))%Z
            then [0; 0; 0; 255] else [255; 255; 255; 255])%Z
         (CharacterExtractor.range 5))
    (CharacterExtractor.range 5).

(** The number of [M] and [L] characters of a string. *)
Fixpoint count_ML (d : string) : nat :=
  match d with
  | EmptyString => 0
  | String c r =>
      (if Ascii.eqb c "M" || Ascii.eqb c "L" then 1 else 0) + count_ML r
  end.

Definition no_comma (s : string) : bool :=
  EditorSpec.all_chars (fun c => negb (Ascii.eqb c ",")) s.

(** The point a quarter of the way from [a] to [b], in one coordinate. *)
Definition quarter (a b : jsval) : jsval :=
  add (mul (Num (3 # 4)) a) (mul (Num (1 # 4)) b).

Definition three_quarters (a b : jsval) : jsval :=
  add (mul (Num (1 # 4)) a) (mul (Num (3 # 4)) b).

(** The ids of a glyph collection, in order. *)
Definition ids (gs : list VectorGlyph) : list string := map glyph_id gs.

(** Successful edits, one after the other, each returning the next image. *)
Fixpoint edits (images : list string) (s : App.AppState) : App.AppState :=
  match images with
  | [] => s
  | img :: r => edits r (App.handleEditImage (Some img) s)
  end.

Definition undos (n : nat) (s : App.AppState) : App.AppState :=
  Nat.iter n App.handleUndo s.

Definition nonempty (s : string) : bool := negb (is_empty s).

(** Neither dragging a node nor panning. *)
Definition idle (s : GlyphEditor.EditorState) : Prop :=
  GlyphEditor.dragIdx s = None /\ GlyphEditor.isPanning s = false.

Definition example_glyph (id : string) : VectorGlyph :=
  mkGlyph id "M0 0L3 0L3 3Z" 4 4 "Glyph".

Definition example_app : App.AppState :=
  {| App.currentImage := Some "data:image/png;base64,AAAA"%string;
     App.history := [];
     App.status := App.IDLE;
     App.glyphs := [example_glyph "1"; example_glyph "2"; example_glyph "1"];
     App.editingGlyph := None;
     App.error := None |}.

End MoreSpec.

(** ** Viewport: zoom at the cursor and the bounds of the scale *)

Module ViewportFacts.
Import ViewportSpec.
Local Open Scope Q_scope.

Lemma editor_clamp_in_bounds (v : Q) : scale_in_bounds (GlyphEditor.clamp_scale v).
Proof.
  unfold scale_in_bounds, GlyphEditor.clamp_scale. split.
  - apply Q.le_max_l.
  - apply Q.max_lub; [lra | apply Q.le_min_l].
Qed.

Lemma extractor_clamp_in_bounds (v : Q) : scale_in_bounds (CharacterExtractor.clamp_scale v).
Proof.
  unfold scale_in_bounds, CharacterExtractor.clamp_scale. split.
  - apply Q.le_max_l.
  - apply Q.max_lub; [lra | apply Q.le_min_l].
Qed.










Lemma div_lower_bound (c n d : Q) : 0 < d -> (c <= n / d <-> c * d <= n).
Proof.
  intros Hd. split; intros H.
  - assert (E : n == n / d * d) by (field; lra).
    rewrite E. apply Qmult_le_compat_r; lra.
  - apply Qle_shift_div_l; assumption.
Qed.

Lemma div_positive (n d : Q) : 0 < n -> 0 < d -> 0 < n / d.
Proof.
  intros Hn Hd. apply Qlt_shift_div_l; [exact Hd | lra].
Qed.

(** Claim C4 as stated fails for reset-view: a 10000 by 10000 image in a
    500 by 500 container is fitted at scale 1/20, below 0.1. *)
Lemma fit_to_view_leaves_scale_bounds :
  ~ (forall (dom : option (Z * Z * Z * Z)) (s : CharacterExtractor.ExtractorState),
        scale_in_bounds (CharacterExtractor.scale (CharacterExtractor.transform s)) ->
        scale_in_bounds
          (CharacterExtractor.scale
             (CharacterExtractor.transform (CharacterExtractor.resetView dom s)))).
Proof.
  intros H.
  specialize (H (Some (500, 500, 10000, 10000)%Z) CharacterExtractor.initial_state).
  destruct H as [Hlow _].
  - split; unfold Qle; simpl; lia.
  - vm_compute in Hlow. apply Hlow. reflexivity.
Qed.


Lemma editor_fit_scale (glyph : VectorGlyph) (containerW containerH : Z) :
  (0 < containerW)%Z -> (0 < containerH)%Z ->
  (0 <= glyph_width glyph)%Z -> (0 <= glyph_height glyph)%Z ->
  let fit := GlyphEditor.k (GlyphEditor.fit_transform glyph containerW containerH) in
  0 < fit /\ fit <= 2
  /\ (1 # 10 <= fit <->
      inject_Z (glyph_width glyph) + 40 <= 10 * inject_Z containerW
      /\ inject_Z (glyph_height glyph) + 40 <= 10 * inject_Z containerH).
Proof.
  intros HcW HcH Hgw Hgh.
  rewrite Zlt_Qlt in HcW, HcH. rewrite Zle_Qle in Hgw, Hgh.
  change (inject_Z 0) with 0 in *.
  unfold GlyphEditor.fit_transform; cbn [GlyphEditor.k].
  split; [|split].
  - repeat apply Q.min_glb_lt; try lra; apply div_positive; lra.
  - apply Q.le_min_r.
  - rewrite !Q.min_glb_iff, !div_lower_bound by lra.
    split; intros H; repeat split; lra.
Qed.

Lemma extractor_fit_scale (containerW containerH imgW imgH : Z) :
  (0 < containerW)%Z -> (0 < containerH)%Z -> (0 < imgW)%Z -> (0 < imgH)%Z ->
  let fit := CharacterExtractor.scale
               (CharacterExtractor.fit_transform containerW containerH imgW imgH) in
  0 < fit /\ fit <= 1
  /\ (1 # 10 <= fit <->
      inject_Z imgW <= 10 * inject_Z containerW
      /\ inject_Z imgH <= 10 * inject_Z containerH).
Proof.
  intros HcW HcH HiW HiH.
  rewrite Zlt_Qlt in HcW, HcH, HiW, HiH.
  change (inject_Z 0) with 0 in *.
  unfold CharacterExtractor.fit_transform; cbn [CharacterExtractor.scale].
  split; [|split].
  - repeat apply Q.min_glb_lt; try lra; apply div_positive; lra.
  - apply Q.le_min_r.
  - rewrite !Q.min_glb_iff, !div_lower_bound by lra.
    split; intros H; repeat split; lra.
Qed.

Lemma editor_mouse_move_keeps_scale (client : Q * Q) (loc : option (Q * Q))
    (s s' : GlyphEditor.EditorState) :
  GlyphEditor.handleMouseMove client loc s = Some s' ->
  GlyphEditor.k (GlyphEditor.transform s') = GlyphEditor.k (GlyphEditor.transform s).
Proof.
  unfold GlyphEditor.handleMouseMove.
  destruct (GlyphEditor.isPanning s).
  - intros E; injection E as <-. reflexivity.
  - destruct (GlyphEditor.dragIdx s) as [i|]; [destruct loc as [[lx ly]|] |].
    + destruct (i <? _)%nat; [|discriminate]. intros E; injection E as <-. reflexivity.
    + intros E; injection E as <-. reflexivity.
    + intros E; injection E as <-. reflexivity.
Qed.

Lemma extractor_mouse_move_keeps_scale (client : Q * Q) (rect : option (Q * Q))
    (s : CharacterExtractor.ExtractorState) :
  CharacterExtractor.scale
    (CharacterExtractor.transform (CharacterExtractor.handleMouseMove client rect s))
  = CharacterExtractor.scale (CharacterExtractor.transform s).
Proof.
  unfold CharacterExtractor.handleMouseMove.
  destruct (CharacterExtractor.isPanning s); [reflexivity|].
  destruct (CharacterExtractor.isDragging s); [|reflexivity].
  destruct rect as [[rl rt]|]; [|reflexivity].
  destruct (CharacterExtractor.toModel _ _). reflexivity.
Qed.

(** Claim C4, amended.  The zoom buttons and the wheel zoom leave the
    scale in [0.1, 10] (they clamp it); a pointer move, pan included,
    leaves it unchanged; fit-to-screen and reset-view set it to a positive
    value that is at most 2 (editor) or 1 (extractor) and that is at least
    0.1 exactly when the content (with the editor's margin of 40) is at
    most ten times the viewport in both dimensions. *)
Theorem scale_bounds_by_operation :
  forall (se : GlyphEditor.EditorState) (sx : CharacterExtractor.ExtractorState)
         (factor deltaY : Q) (client rect : Q * Q)
         (glyph : VectorGlyph) (containerW containerH imgW imgH : Z),
    (0 < containerW)%Z -> (0 < containerH)%Z ->
    (0 <= glyph_width glyph)%Z -> (0 <= glyph_height glyph)%Z ->
    (0 < imgW)%Z -> (0 < imgH)%Z ->
    let ke s := GlyphEditor.k (GlyphEditor.transform s) in
    let kx s := CharacterExtractor.scale (CharacterExtractor.transform s) in
    let cw := inject_Z containerW in
    let ch := inject_Z containerH in
    (* zoom buttons and wheel: clamped *)
    scale_in_bounds (ke (GlyphEditor.handleZoom factor se))
    /\ scale_in_bounds (kx (CharacterExtractor.handleZoom factor sx))
    /\ scale_in_bounds (ke (GlyphEditor.handleWheel deltaY client (Some rect) se))
    /\ scale_in_bounds (kx (CharacterExtractor.handleWheel deltaY client (Some rect) sx))
    (* pan: unchanged *)
    /\ (forall loc s', GlyphEditor.handleMouseMove client loc se = Some s' -> ke s' = ke se)
    /\ kx (CharacterExtractor.handleMouseMove client (Some rect) sx) = kx sx
    (* fit to view: capped above, not clamped below *)
    /\ (let fit := ke (GlyphEditor.handleFitScreen glyph (Some (containerW, containerH)) se) in
        0 < fit /\ fit <= 2
        /\ (1 # 10 <= fit <->
            inject_Z (glyph_width glyph) + 40 <= 10 * cw
            /\ inject_Z (glyph_height glyph) + 40 <= 10 * ch))
    /\ (let fit := kx (CharacterExtractor.resetView
                         (Some (containerW, containerH, imgW, imgH)) sx) in
        0 < fit /\ fit <= 1
        /\ (1 # 10 <= fit <->
            inject_Z imgW <= 10 * cw /\ inject_Z imgH <= 10 * ch)).
Proof.
  intros se sx factor deltaY client [rl rt] glyph containerW containerH imgW imgH
         HcW HcH Hgw Hgh HiW HiH ke kx cw ch.
  split; [apply editor_clamp_in_bounds|].
  split; [apply extractor_clamp_in_bounds|].
  split; [apply editor_clamp_in_bounds|].
  split; [apply extractor_clamp_in_bounds|].
  split; [intros loc s'; apply editor_mouse_move_keeps_scale|].
  split; [apply extractor_mouse_move_keeps_scale|].
  split.
  - apply (editor_fit_scale glyph containerW containerH); assumption.
  - apply (extractor_fit_scale containerW containerH imgW imgH); assumption.
Qed.

Lemma scale_bounds_by_operation_witness :
  scale_in_bounds
    (GlyphEditor.k (GlyphEditor.transform (GlyphEditor.handleZoom (11 # 10) (example_editor 10))))
  /\ 0 < CharacterExtractor.scale
           (CharacterExtractor.transform
              (CharacterExtractor.resetView (Some (800, 600, 1000, 1000)%Z)
                 (example_extractor (1 # 10)))).
Proof.
  pose proof (scale_bounds_by_operation
                (example_editor 10) (example_extractor (1 # 10)) (11 # 10) 5
                (250, 170) (50, 20)
                (mkGlyph "1" "M0 0L3 0L3 3Z" 4 4 "Glyph 1")
                800 600 1000 1000) as H.
  cbv zeta in H.
  destruct H as (H1 & _ & _ & _ & _ & _ & _ & H8 & _); try (simpl; lia).
  exact (conj H1 H8).
Defined.

End ViewportFacts.

(** ** Path descriptions: parsing and serialization *)

Module PathFacts.
Import Js GlyphEditor EditorSpec.
Local Open Scope string_scope.
Local Open Scope list_scope.

Section Commands.

Lemma scan_commands_no_letters s :
  no_letters s = true -> scan_commands s = (s, []).
Proof.
  induction s as [|c r IH]; cbn; [reflexivity|].
  intros H. apply andb_true_iff in H as [Hc Hr].
  rewrite (IH Hr). apply negb_true_iff in Hc. now rewrite Hc.
Qed.

Lemma scan_commands_at_command s :
  at_command s = true -> fst (scan_commands s) = "".
Proof.
  destruct s as [|c r]; cbn; [reflexivity|].
  intros H. destruct (scan_commands r). now rewrite H.
Qed.

Lemma scan_commands_app s1 s2 :
  fst (scan_commands s2) = "" ->
  scan_commands (s1 ++ s2)%string
  = (fst (scan_commands s1), snd (scan_commands s1) ++ snd (scan_commands s2)).
Proof.
  intros H. induction s1 as [|c r IH]; cbn.
  - destruct (scan_commands s2); cbn in *. now subst.
  - rewrite IH. destruct (scan_commands r) as [run cmds]; cbn.
    destruct (is_letter c); reflexivity.
Qed.

Lemma match_commands_app s1 s2 :
  at_command s2 = true ->
  match_commands (s1 ++ s2)%string = match_commands s1 ++ match_commands s2.
Proof.
  intros H. unfold match_commands.
  now rewrite scan_commands_app by now apply scan_commands_at_command.
Qed.

Lemma match_commands_single c args :
  is_letter c = true -> no_letters args = true ->
  match_commands (String c args) = [String c args].
Proof.
  intros Hc Ha. unfold match_commands. cbn.
  now rewrite (scan_commands_no_letters args Ha), Hc.
Qed.

Lemma parsePath_flat_map d :
  parsePath d = flat_map parse_command (match_commands d).
Proof.
  unfold parsePath.
  assert (G : forall cmds acc,
             fold_left (fun points cmd => points ++ parse_command cmd) cmds acc
             = acc ++ flat_map parse_command cmds).
  { induction cmds as [|c r IH]; intros acc; cbn; [now rewrite app_nil_r|].
    now rewrite IH, app_assoc. }
  apply G.
Qed.

Lemma parse_command_foreign cmd : is_foreign cmd = true -> parse_command cmd = [].
Proof.
  destruct cmd as [|t rest]; [reflexivity|]. cbn.
  intros H. apply negb_true_iff in H. now rewrite H.
Qed.

(** Claim C6, amended.  [parsePath] reports no failure: it returns a point
    sequence for every string, and a command whose letter is not [M] or
    [L] is skipped together with its arguments, so that the result is the
    one obtained from the description without that command. *)
Theorem foreign_commands_are_skipped :
  forall (before args after : string) (c : ascii),
    is_letter c = true ->
    Ascii.eqb c "M" = false ->
    Ascii.eqb c "L" = false ->
    no_letters args = true ->
    at_command after = true ->
    parsePath (before ++ String c args ++ after)%string = parsePath (before ++ after)%string
    /\ has_foreign_command (before ++ String c args ++ after)%string = true.
Proof.
  intros before args after c Hc HM HL Hargs Hafter.
  assert (Hf : is_foreign (String c args) = true) by (cbn; now rewrite HM, HL).
  assert (E : match_commands (before ++ String c args ++ after)%string
              = match_commands before ++ [String c args] ++ match_commands after).
  { rewrite match_commands_app by (cbn; exact Hc).
    rewrite (match_commands_app (String c args) after Hafter).
    now rewrite match_commands_single. }
  split.
  - rewrite !parsePath_flat_map, E, (match_commands_app before after Hafter).
    rewrite !flat_map_app. cbn [flat_map].
    now rewrite (parse_command_foreign _ Hf).
  - unfold has_foreign_command. rewrite E, !existsb_app. cbn [existsb].
    rewrite Hf. now rewrite orb_true_r.
Qed.

Lemma foreign_commands_are_skipped_witness :
  parsePath ("M0 0" ++ String "C" "1 2 3 4 5 6" ++ "L9 9Z")%string
  = parsePath ("M0 0" ++ "L9 9Z")%string.
Proof.
  refine (proj1 (foreign_commands_are_skipped "M0 0" "1 2 3 4 5 6" "L9 9Z" "C" _ _ _ _ _));
    reflexivity.
Defined.

(** Claim C6 as stated fails: on a description with a [C] command,
    [parsePath] returns normally, with the two points of the [M] and [L]
    commands; the end point of the curve is missing from the sequence. *)
Lemma curve_command_is_dropped_silently :
  has_foreign_command "M0 0C1 2 3 4 5 6L9 9Z" = true
  /\ parsePath "M0 0C1 2 3 4 5 6L9 9Z" = [pt 0 0; pt 9 9].
Proof. split; vm_compute; reflexivity. Qed.

End Commands.

Section Strings.

Lemma append_assoc (a b c : string) : ((a ++ b) ++ c = a ++ (b ++ c))%string.
Proof. induction a as [|x a IH]; cbn; [reflexivity | now rewrite IH]. Qed.

Lemma append_empty_r (a : string) : (a ++ "")%string = a.
Proof. induction a as [|x a IH]; cbn; [reflexivity | now rewrite IH]. Qed.

Lemma is_empty_append (a b : string) :
  is_empty (a ++ b)%string = is_empty a && is_empty b.
Proof. destruct a; reflexivity. Qed.

Lemma int_char_classes c :
  int_char c = true ->
  is_space c = false /\ is_letter c = false /\ is_separator c = false
  /\ Ascii.eqb c "+" = false /\ Ascii.eqb c "." = false.
Proof.
  destruct c as [[] [] [] [] [] [] [] []]; vm_compute; intros H;
    try discriminate; repeat split.
Qed.

Lemma all_chars_weaken (f g : ascii -> bool) s :
  (forall c, f c = true -> g c = true) -> all_chars f s = true -> all_chars g s = true.
Proof.
  intros Hfg. induction s as [|c r IH]; cbn; [reflexivity|].
  intros H. apply andb_true_iff in H as [H1 H2]. now rewrite (Hfg c H1), IH.
Qed.

Lemma all_chars_app f a b :
  all_chars f (a ++ b)%string = all_chars f a && all_chars f b.
Proof. induction a as [|c r IH]; cbn; [reflexivity|]. now rewrite IH, andb_assoc. Qed.

Lemma token_no_letters s : all_chars int_char s = true -> no_letters s = true.
Proof.
  induction s as [|c r IH]; cbn; [reflexivity|].
  intros H. apply andb_true_iff in H as [H1 H2].
  destruct (int_char_classes c H1) as (_ & -> & _). cbn. now apply IH.
Qed.

(** *** [trim] *)

Lemma trim_end_no_space s :
  all_chars (fun c => negb (is_space c)) s = true -> trim_end s = s.
Proof.
  induction s as [|c r IH]; cbn; [reflexivity|].
  intros H. apply andb_true_iff in H as [H1 H2]. apply negb_true_iff in H1.
  now rewrite H1, (IH H2).
Qed.

Lemma trim_end_app s r :
  is_empty (trim_end r) = false -> trim_end (s ++ r)%string = (s ++ trim_end r)%string.
Proof.
  intros H. induction s as [|c s IH]; cbn; [reflexivity|].
  rewrite IH, is_empty_append, H, andb_false_r, andb_false_r. reflexivity.
Qed.

Lemma trim_end_space s :
  all_chars (fun c => negb (is_space c)) s = true -> trim_end (s ++ " ")%string = s.
Proof.
  induction s as [|c r IH]; cbn; [reflexivity|].
  intros H. apply andb_true_iff in H as [H1 H2]. apply negb_true_iff in H1.
  now rewrite H1, (IH H2).
Qed.

Lemma token_no_space s :
  all_chars int_char s = true -> all_chars (fun c => negb (is_space c)) s = true.
Proof.
  apply all_chars_weaken. intros c H.
  destruct (int_char_classes c H) as (-> & _). reflexivity.
Qed.

Lemma trim_start_token s r :
  is_token s = true -> trim_start (s ++ r)%string = (s ++ r)%string.
Proof.
  unfold is_token. destruct s as [|c s]; [discriminate|]. cbn.
  intros H. apply andb_true_iff in H as [H1 _].
  destruct (int_char_classes c H1) as (-> & _). reflexivity.
Qed.

Lemma trim_token s : is_token s = true -> trim s = s.
Proof.
  intros H. unfold trim.
  rewrite <- (append_empty_r s) at 1. rewrite (trim_start_token s "" H), append_empty_r.
  apply trim_end_no_space, token_no_space.
  unfold is_token in H. now apply andb_true_iff in H as [_ H].
Qed.

(** The argument text of a command whose coordinates are two tokens, with
    or without the space that precedes the next command. *)
Lemma trim_pair a b :
  is_token a = true -> is_token b = true ->
  trim (a ++ " " ++ b)%string = (a ++ " " ++ b)%string
  /\ trim (a ++ " " ++ b ++ " ")%string = (a ++ " " ++ b)%string.
Proof.
  intros Ha Hb. unfold trim. rewrite !(trim_start_token a _ Ha).
  assert (Hb' : all_chars (fun c => negb (is_space c)) b = true).
  { apply token_no_space. unfold is_token in Hb. now apply andb_true_iff in Hb as [_ Hb]. }
  assert (Hne : is_empty b = false).
  { unfold is_token in Hb. apply andb_true_iff in Hb as [Hb _]. now apply negb_true_iff. }
  split.
  - rewrite <- (append_assoc a " " b) at 1.
    rewrite trim_end_app by now rewrite (trim_end_no_space b Hb').
    now rewrite (trim_end_no_space b Hb'), append_assoc.
  - replace (a ++ " " ++ b ++ " ")%string with ((a ++ " ") ++ (b ++ " "))%string
      by now rewrite append_assoc.
    rewrite trim_end_app by now rewrite (trim_end_space b Hb').
    now rewrite (trim_end_space b Hb'), append_assoc.
Qed.

(** *** [split] *)

Lemma split_separators_nonempty s : split_separators s <> [].
Proof.
  induction s as [|c r IH]; cbn; [discriminate|].
  destruct (is_separator c).
  - destruct (starts_with_separator r); [exact IH | discriminate].
  - destruct (split_separators r); discriminate.
Qed.

Lemma split_token_prefix a rest :
  all_chars int_char a = true ->
  split_separators (a ++ rest)%string
  = match split_separators rest with
    | [] => [a]
    | t :: l => (a ++ t)%string :: l
    end.
Proof.
  induction a as [|c r IH]; cbn [append all_chars].
  - intros _. pose proof (split_separators_nonempty rest).
    destruct (split_separators rest); [contradiction | reflexivity].
  - intros H. apply andb_true_iff in H as [H1 H2].
    destruct (int_char_classes c H1) as (_ & _ & Hs & _).
    cbn [split_separators]. rewrite Hs, (IH H2).
    destruct (split_separators rest); reflexivity.
Qed.

Lemma split_token a : all_chars int_char a = true -> split_separators a = [a].
Proof.
  intros H. rewrite <- (append_empty_r a) at 1.
  rewrite (split_token_prefix a "" H). cbn. now rewrite append_empty_r.
Qed.

Lemma split_pair a b :
  is_token a = true -> is_token b = true ->
  split_separators (a ++ " " ++ b)%string = [a; b].
Proof.
  unfold is_token. rewrite !andb_true_iff. intros [_ Ha] [Hb0 Hb].
  rewrite (split_token_prefix a _ Ha). cbn [append split_separators].
  change (is_separator " ") with true. cbv iota.
  destruct b as [|c r]; [discriminate|].
  cbn [starts_with_separator]. cbn in Hb. apply andb_true_iff in Hb as [Hc Hr].
  destruct (int_char_classes c Hc) as (_ & _ & -> & _).
  rewrite (split_token (String c r)) by (cbn; now rewrite Hc, Hr).
  now rewrite append_empty_r.
Qed.

(** *** Printing and reading an integer *)

Lemma string_of_uint_digits d : all_chars is_digit (NilEmpty.string_of_uint d) = true.
Proof. induction d; cbn; auto. Qed.

Lemma string_of_uint_empty d :
  d <> Decimal.Nil -> is_empty (NilEmpty.string_of_uint d) = false.
Proof. destruct d; [contradiction | reflexivity ..]. Qed.

Lemma span_digits_all s : all_chars is_digit s = true -> span_digits s = (s, "").
Proof.
  induction s as [|c r IH]; cbn; [reflexivity|].
  intros H. apply andb_true_iff in H as [H1 H2]. now rewrite H1, (IH H2).
Qed.

Lemma unsigned_literal_uint d :
  d <> Decimal.Nil ->
  unsigned_literal (NilEmpty.string_of_uint d) = Num (Z.of_uint d # 1).
Proof.
  intros Hd. unfold unsigned_literal.
  rewrite (span_digits_all _ (string_of_uint_digits d)), (string_of_uint_empty d Hd).
  unfold digits_value. now rewrite NilEmpty.usu.
Qed.

Lemma Number_digits d :
  d <> Decimal.Nil ->
  Number (NilEmpty.string_of_uint d) = Num (Z.of_uint d # 1).
Proof.
  intros Hd.
  assert (Ht : is_token (NilEmpty.string_of_uint d) = true).
  { unfold is_token. rewrite (string_of_uint_empty d Hd). cbn.
    apply (all_chars_weaken is_digit); [|apply string_of_uint_digits].
    intros c Hc. unfold int_char. now rewrite Hc. }
  unfold Number. rewrite (trim_token _ Ht).
  pose proof (string_of_uint_digits d) as Hdig.
  pose proof (unsigned_literal_uint d Hd) as Hu.
  destruct (NilEmpty.string_of_uint d) as [|c r]; [discriminate|].
  cbn in Hdig. apply andb_true_iff in Hdig as [Hc _].
  assert (Hi : int_char c = true) by (unfold int_char; now rewrite Hc).
  destruct (int_char_classes c Hi) as (_ & _ & _ & -> & _).
  assert (Hm : Ascii.eqb c "-" = false).
  { destruct c as [[] [] [] [] [] [] [] []]; vm_compute in Hc |- *;
      try reflexivity; discriminate. }
  now rewrite Hm.
Qed.

Lemma Qred_integer z : Qred (z # 1) = z # 1.
Proof. apply Qred_identity. cbn. apply Z.gcd_1_r. Qed.

(** [Number] reads back the integer that the template literal printed. *)
Lemma Number_Z_to_string z : Number (Z_to_string z) = Num (inject_Z z).
Proof.
  unfold Z_to_string, inject_Z. destruct z as [|p|p]; [reflexivity | |].
  - cbn [Z.to_int NilZero.string_of_int]. unfold NilZero.string_of_uint.
    pose proof (Unsigned.to_uint_nonnil p) as Hn.
    pose proof (of_to (Z.pos p)) as Hz. cbn in Hz.
    destruct (Pos.to_uint p) eqn:E; try contradiction;
      rewrite <- E in *; rewrite (Number_digits _ Hn), Hz; reflexivity.
  - cbn [Z.to_int NilZero.string_of_int]. unfold NilZero.string_of_uint.
    pose proof (Unsigned.to_uint_nonnil p) as Hn.
    pose proof (of_to (Z.pos p)) as Hz. cbn in Hz.
    assert (E : unsigned_literal (NilEmpty.string_of_uint (Pos.to_uint p))
                = Num (Z.pos p # 1)).
    { now rewrite (unsigned_literal_uint _ Hn), Hz. }
    assert (T : trim (String "-" (NilEmpty.string_of_uint (Pos.to_uint p)))
                = String "-" (NilEmpty.string_of_uint (Pos.to_uint p))).
    { apply trim_token. unfold is_token. cbn.
      apply (all_chars_weaken is_digit); [|apply string_of_uint_digits].
      intros c Hc. unfold int_char. now rewrite Hc. }
    destruct (Pos.to_uint p) eqn:Ep; try contradiction; rewrite <- Ep in *;
      unfold Number; rewrite T; cbn [Ascii.eqb Bool.eqb]; cbv iota;
      rewrite E; unfold neg; rewrite Qred_opp, Qred_integer; reflexivity.
Qed.

Lemma Z_to_string_token z : is_token (Z_to_string z) = true.
Proof.
  assert (G : forall d, d <> Decimal.Nil ->
                is_token (NilEmpty.string_of_uint d) = true).
  { intros d Hd. unfold is_token. rewrite (string_of_uint_empty d Hd). cbn.
    apply (all_chars_weaken is_digit); [|apply string_of_uint_digits].
    intros c Hc. unfold int_char. now rewrite Hc. }
  unfold Z_to_string. destruct z as [|p|p]; [reflexivity | |];
    cbn [Z.to_int NilZero.string_of_int]; unfold NilZero.string_of_uint;
    pose proof (Unsigned.to_uint_nonnil p) as Hn;
    pose proof (G _ Hn) as Ht.
  - destruct (Pos.to_uint p); try contradiction; exact Ht.
  - assert (is_token (String "-" (NilEmpty.string_of_uint (Pos.to_uint p))) = true).
    { unfold is_token in *. cbn. now apply andb_true_iff in Ht as [_ ->]. }
    destruct (Pos.to_uint p); try contradiction; assumption.
Qed.


(** *** Commands with two integer coordinates *)

Lemma to_string_int z : to_string (Num (inject_Z z)) = Z_to_string z.
Proof.
  unfold to_string, number_to_string, inject_Z. now rewrite Qred_integer.
Qed.

Lemma no_letters_app a b : no_letters (a ++ b)%string = no_letters a && no_letters b.
Proof. induction a as [|c r IH]; cbn; [reflexivity|]. now rewrite IH, andb_assoc. Qed.

Lemma Z_to_string_no_letters z : no_letters (Z_to_string z) = true.
Proof.
  apply token_no_letters. pose proof (Z_to_string_token z) as H.
  unfold is_token in H. now apply andb_true_iff in H as [_ H].
Qed.

Lemma coords_no_letters q : no_letters (coords q) = true.
Proof.
  unfold coords. now rewrite !no_letters_app, !Z_to_string_no_letters.
Qed.

Lemma parse_command_coords c q :
  Ascii.eqb c "M" || Ascii.eqb c "L" = true ->
  parse_command (String c (coords q)) = [ipt q]
  /\ parse_command (String c (coords q ++ " ")) = [ipt q].
Proof.
  intros Hc. unfold parse_command, coords. rewrite Hc.
  destruct (trim_pair (Z_to_string (fst q)) (Z_to_string (snd q))
              (Z_to_string_token _) (Z_to_string_token _)) as [T1 T2].
  split.
  - rewrite T1, split_pair by apply Z_to_string_token.
    cbn [map nth]. now rewrite !Number_Z_to_string.
  - rewrite !append_assoc, T2, split_pair by apply Z_to_string_token.
    cbn [map nth]. now rewrite !Number_Z_to_string.
Qed.

Lemma parsePath_command c args rest :
  is_letter c = true -> no_letters args = true -> at_command rest = true ->
  parsePath (String c args ++ rest)%string
  = parse_command (String c args) ++ parsePath rest.
Proof.
  intros Hc Ha Hr.
  rewrite !parsePath_flat_map, (match_commands_app _ _ Hr).
  rewrite (match_commands_single c args Hc Ha), flat_map_app.
  cbn [flat_map]. now rewrite app_nil_r.
Qed.

Lemma command_letter c :
  Ascii.eqb c "M" || Ascii.eqb c "L" = true -> is_letter c = true.
Proof.
  intros H. apply orb_true_iff in H as [H|H]; apply Ascii.eqb_eq in H; now subst.
Qed.

(** Parsing what the editor writes: every line-to gives its point. *)
Lemma parse_editor_format nexts :
  forall c q,
    Ascii.eqb c "M" || Ascii.eqb c "L" = true ->
    parsePath (String c (coords q ++ editor_tail nexts)) = ipt q :: map ipt nexts.
Proof.
  induction nexts as [|q' r IH]; intros c q Hc;
    destruct (parse_command_coords c q Hc) as [P1 P2]; cbn [editor_tail map].
  - change (String c (coords q ++ "Z")) with (String c (coords q) ++ "Z")%string.
    rewrite parsePath_command;
      [| now apply command_letter | apply coords_no_letters | reflexivity].
    now rewrite P1.
  - replace (String c (coords q ++ " L" ++ coords q' ++ editor_tail r))
      with (String c (coords q ++ " ") ++ String "L" (coords q' ++ editor_tail r))%string
      by (cbn [append]; now rewrite append_assoc).
    rewrite parsePath_command;
      [| now apply command_letter
       | now rewrite no_letters_app, coords_no_letters
       | reflexivity].
    now rewrite P2, IH.
Qed.

(** Parsing what the extractor writes. *)
Lemma parse_extractor_format nexts :
  forall c q,
    Ascii.eqb c "M" || Ascii.eqb c "L" = true ->
    parsePath (String c (coords q ++ extractor_tail nexts)) = ipt q :: map ipt nexts.
Proof.
  induction nexts as [|q' r IH]; intros c q Hc;
    destruct (parse_command_coords c q Hc) as [P1 P2]; cbn [extractor_tail map].
  - change (String c (coords q ++ "Z")) with (String c (coords q) ++ "Z")%string.
    rewrite parsePath_command;
      [| now apply command_letter | apply coords_no_letters | reflexivity].
    now rewrite P1.
  - change (String c (coords q ++ "L" ++ coords q' ++ extractor_tail r))
      with (String c (coords q ++ String "L" (coords q' ++ extractor_tail r))).
    replace (String c (coords q ++ String "L" (coords q' ++ extractor_tail r)))
      with (String c (coords q) ++ String "L" (coords q' ++ extractor_tail r))%string
      by reflexivity.
    rewrite parsePath_command;
      [| now apply command_letter | apply coords_no_letters | reflexivity].
    now rewrite P1, IH.
Qed.


(** *** The two serializers *)

Lemma nth_seq_all {A} (l : list A) d :
  map (fun i => nth i l d) (seq 0 (List.length l)) = l.
Proof.
  induction l as [|a l IH]; [reflexivity|].
  cbn [List.length seq map nth]. rewrite <- seq_shift, map_map. now rewrite IH.
Qed.

(** The points that [pointsToPath] draws lines to: the sequence rotated by
    one, which ends with the first point. *)
Lemma next_points_rotate {A} (p0 : A) (rest : list A) :
  map (fun i => nth ((i + 1) mod List.length (p0 :: rest)) (p0 :: rest) p0)
      (seq 0 (List.length (p0 :: rest)))
  = rest ++ [p0].
Proof.
  cbn [List.length]. set (m := List.length rest).
  rewrite seq_S, map_app. cbn [map plus]. f_equal.
  - transitivity (map (fun i => nth i rest p0) (seq 0 m)); [|apply nth_seq_all].
    apply map_ext_in. intros i Hi. apply in_seq in Hi.
    rewrite Nat.mod_small by lia. now rewrite Nat.add_1_r.
  - rewrite Nat.add_1_r, Nat.Div0.mod_same. reflexivity.
Qed.

Lemma fold_left_append {A} (g : A -> string) (l : list A) (d0 : string) :
  fold_left (fun d i => (d ++ g i)%string) l d0
  = (d0 ++ fold_right (fun i acc => (g i ++ acc)%string) "" l)%string.
Proof.
  revert d0. induction l as [|a l IH]; intros d0; cbn.
  - now rewrite append_empty_r.
  - now rewrite IH, append_assoc.
Qed.

Lemma fold_left_pointwise {A B} (f g : A -> B -> A) (l : list B) (a : A) :
  (forall a b, f a b = g a b) -> fold_left f l a = fold_left g l a.
Proof.
  intros H. revert a. induction l as [|b l IH]; intros a; cbn; [reflexivity|].
  now rewrite H, IH.
Qed.

Lemma fold_right_map {A B} (h : A -> B) (g : B -> string) (l : list A) :
  fold_right (fun i acc => (g (h i) ++ acc)%string) "" l
  = fold_right (fun b acc => (g b ++ acc)%string) "" (map h l).
Proof. induction l as [|a l IH]; cbn; [reflexivity | now rewrite IH]. Qed.

Lemma editor_tail_fold nexts :
  (fold_right (fun p acc => (line_to p ++ acc)%string) "" (map ipt nexts) ++ "Z")%string
  = editor_tail nexts.
Proof.
  induction nexts as [|q r IH]; [reflexivity|].
  cbn [map fold_right editor_tail]. rewrite append_assoc, IH.
  unfold line_to, ipt, pt; cbn [x y]. rewrite !to_string_int.
  unfold coords. now rewrite !append_assoc.
Qed.

Lemma pointsToPath_shape p0 rest :
  pointsToPath (map ipt (p0 :: rest))
  = String "M" (coords p0 ++ editor_tail (rest ++ [p0])).
Proof.
  unfold pointsToPath. cbn [map].
  change (ipt p0 :: map ipt rest) with (map ipt (p0 :: rest)).
  rewrite (fold_left_pointwise _
             (fun d i => (d ++ line_to (nth ((i + 1) mod List.length (map ipt (p0 :: rest)))
                                            (map ipt (p0 :: rest)) (ipt p0)))%string))
    by (intros d i; unfold line_to; now destruct (_ || _)).
  rewrite fold_left_append.
  rewrite (fold_right_map
             (fun i => nth ((i + 1) mod List.length (map ipt (p0 :: rest)))
                           (map ipt (p0 :: rest)) (ipt p0)) line_to).
  cbn [map]. rewrite (next_points_rotate (ipt p0) (map ipt rest)).
  change (map ipt rest ++ [ipt p0]) with (map ipt rest ++ map ipt [p0]).
  rewrite <- map_app, append_assoc, editor_tail_fold.
  unfold ipt at 1 2, pt; cbn [x y]. rewrite !to_string_int.
  unfold coords. cbn [append]. now rewrite !append_assoc.
Qed.

(** What the editor writes and reads back, for points with integral
    coordinates: the sequence followed by its first point. *)
Lemma editor_round_trip_appends_first p0 rest :
  parsePath (pointsToPath (map ipt (p0 :: rest))) = map ipt (p0 :: rest ++ [p0]).
Proof.
  rewrite pointsToPath_shape. now rewrite parse_editor_format.
Qed.

Lemma path_of_shape p0 rest :
  (2 < List.length (p0 :: rest))%nat ->
  CharacterExtractor.path_of (p0 :: rest)
  = String "M" (coords (pixel_xy p0) ++ extractor_tail (map pixel_xy rest)).
Proof.
  intros Hl. unfold CharacterExtractor.path_of.
  destruct (Nat.ltb_spec 2 (List.length (p0 :: rest))); [|lia].
  assert (G : forall r d,
             (fold_left
                (fun svgPath q =>
                   svgPath ++ "L" ++ Z_to_string (CharacterExtractor.x q) ++ " "
                           ++ Z_to_string (CharacterExtractor.y q))
                r d ++ "Z")%string
             = (d ++ extractor_tail (map pixel_xy r))%string).
  { induction r as [|q r IH]; intros d; cbn [map fold_left extractor_tail]; [reflexivity|].
    rewrite IH. unfold coords, pixel_xy; cbn [fst snd]. now rewrite !append_assoc. }
  rewrite G. unfold coords, pixel_xy; cbn [fst snd append]. now rewrite !append_assoc.
Qed.

(** What the extractor writes is read back unchanged. *)
Lemma extractor_path_round_trip pixels :
  (2 < List.length pixels)%nat ->
  parsePath (CharacterExtractor.path_of pixels) = map pixel_point pixels.
Proof.
  intros Hl. destruct pixels as [|p0 rest]; [cbn in Hl; lia|].
  rewrite (path_of_shape p0 rest Hl), parse_extractor_format by reflexivity.
  cbn [map]. now rewrite map_map.
Qed.

(** Claim C1 fails on the code.  At a triangle the serialization ends
    with a line back to the first point before the close, so parsing it
    returns four points, the first one twice; and so it is for every
    non-empty sequence of corner points with integral coordinates: what
    is read back is the sequence followed by its first point, one point
    more than was written. *)
Theorem serialized_path_parses_with_first_point_twice :
  (let points := [pt 0 0; pt 10 0; pt 10 10] in
   pointsToPath points = "M0 0 L10 0 L10 10 L0 0Z"
   /\ parsePath (pointsToPath points) = [pt 0 0; pt 10 0; pt 10 10; pt 0 0]
   /\ parsePath (pointsToPath points) <> points)
  /\ (forall (p0 : Z * Z) (rest : list (Z * Z)),
        let points := map ipt (p0 :: rest) in
        parsePath (pointsToPath points) = points ++ [ipt p0]
        /\ List.length (parsePath (pointsToPath points)) = S (List.length points)).
Proof.
  split.
  - repeat split; try (vm_compute; reflexivity).
    vm_compute. discriminate.
  - intros p0 rest points.
    assert (E : parsePath (pointsToPath points) = points ++ [ipt p0]).
    { unfold points. rewrite editor_round_trip_appends_first.
      change (p0 :: rest ++ [p0]) with ((p0 :: rest) ++ [p0]).
      now rewrite map_app. }
    split; [exact E|]. rewrite E, length_app. cbn [List.length]. lia.
Qed.

End Strings.

End PathFacts.

(** ** Tracer: termination, the empty outcome and the traced square *)

Module TracerFacts.
Import Js CharacterExtractor TracerSpec.
Local Open Scope Z_scope.

Section Tracing.
Variables (data : list Z) (w h threshold : Z).

Lemma isPixelOn_in_raster px py :
  isPixelOn data w px py threshold = true -> 0 <= px < w /\ 0 <= py.
Proof.
  unfold isPixelOn.
  destruct (px <? 0) eqn:E1; [discriminate|].
  destruct (px >=? w) eqn:E2; [discriminate|].
  destruct (py <? 0) eqn:E3; [discriminate|].
  intros _. lia.
Qed.

Lemma range_spec n i : In i (range n) <-> 0 <= i < n.
Proof.
  unfold range. rewrite in_map_iff. split.
  - intros (k & <- & Hk). apply in_seq in Hk. lia.
  - intros H. exists (Z.to_nat i). split; [lia|]. apply in_seq. lia.
Qed.

Lemma scan_row_found py xs s :
  scan_row data w threshold py xs = Some s ->
  In (x s) xs /\ y s = py /\ isPixelOn data w (x s) (y s) threshold = true.
Proof.
  induction xs as [|x0 r IH]; cbn; [discriminate|].
  destruct (isPixelOn data w x0 py threshold) eqn:E.
  - intros H; injection H as <-. cbn. auto.
  - intros H. destruct (IH H) as (H1 & H2 & H3). auto.
Qed.

Lemma scan_rows_found ys s :
  scan_rows data w threshold ys = Some s ->
  In (x s) (range w) /\ In (y s) ys /\ isPixelOn data w (x s) (y s) threshold = true.
Proof.
  induction ys as [|y0 r IH]; cbn; [discriminate|].
  destruct (scan_row data w threshold y0 (range w)) as [s0|] eqn:E.
  - intros H; injection H as <-.
    destruct (scan_row_found _ _ _ E) as (H1 & H2 & H3). auto.
  - intros H. destruct (IH H) as (H1 & H2 & H3). auto.
Qed.

Lemma find_start_in_raster s :
  find_start data w h threshold = Some s ->
  0 <= x s < w /\ 0 <= y s < h /\ isPixelOn data w (x s) (y s) threshold = true.
Proof.
  intros H. apply scan_rows_found in H as (H1 & H2 & H3).
  apply range_spec in H1, H2. auto.
Qed.

Lemma scan_row_none py xs :
  scan_row data w threshold py xs = None ->
  forall px, In px xs -> isPixelOn data w px py threshold = false.
Proof.
  induction xs as [|x0 r IH]; cbn; [intros _ px []|].
  destruct (isPixelOn data w x0 py threshold) eqn:E; [discriminate|].
  intros H px [<-|Hin]; [exact E | now apply IH].
Qed.

Lemma moore_loop_terminates fuel :
  forall start p0 b0 steps0 pts,
    (1 <= fuel)%nat ->
    maxSteps w h - steps0 <= Z.of_nat fuel ->
    exists r, moore_loop data w h threshold fuel start p0 b0 steps0 pts = Some r
              /\ loop_post data w h threshold start steps0 (List.length pts) r.
Proof.
  induction fuel as [|fuel IH]; intros start p0 b0 steps0 pts Hf Hm; [lia|].
  cbn [moore_loop].
  destruct (scan_neighbours data w threshold p0 (find_startIndex p0 b0 indices8) indices8)
    as [[nextP nextB]|] eqn:E.
  - destruct ((negb (x nextP =? x start) || negb (y nextP =? y start))
              && (steps0 + 1 <? maxSteps w h)) eqn:C.
    + apply andb_true_iff in C as [_ C]. apply Z.ltb_lt in C.
      destruct (IH start nextP nextB (steps0 + 1) (pts ++ [p0])) as (r & Hr & Hp);
        [lia | lia |].
      exists r. split; [exact Hr|].
      destruct Hp as (H1 & H2 & H3 & H4). rewrite length_app in H3. cbn in H3.
      unfold loop_post. split; [lia|]. split; [lia|]. split; [lia|].
      destruct (broke r); [split; [lia | apply H4] | split; [lia|]].
      destruct H4 as [_ [H4|[H4|H4]]]; [left; exact H4 | right; left; exact H4 | lia].
    + eexists. split; [reflexivity|].
      unfold loop_post; cbn [steps points broke p]. rewrite length_app. cbn [List.length].
      split; [lia|]. split; [lia|]. split; [lia|]. split; [lia|].
      apply andb_false_iff in C as [C|C].
      * apply orb_false_iff in C as [C1 C2].
        apply negb_false_iff, Z.eqb_eq in C1, C2. auto.
      * apply Z.ltb_ge in C. lia.
  - eexists. split; [reflexivity|].
    unfold loop_post; cbn [steps points broke p b]. rewrite length_app. cbn [List.length].
    split; [lia|]. split; [lia|]. split; [lia|].
    split; [left; reflexivity | exact E].
Qed.


Lemma find_startIndex_range p0 b0 ks :
  Forall (fun k => 0 <= k < 8) ks -> 0 <= find_startIndex p0 b0 ks < 8.
Proof.
  induction 1 as [|k r Hk _ IH]; cbn; [lia|].
  destruct (same_pixel (neighbour p0 k) b0); assumption.
Qed.

Lemma indices8_range : Forall (fun k => 0 <= k < 8) indices8.
Proof. repeat constructor; lia. Qed.

Lemma scan_neighbours_none p0 k todo :
  scan_neighbours data w threshold p0 k todo = None ->
  forall i, In i todo ->
    isPixelOn data w (x (neighbour p0 ((k + 1 + i) mod 8)))
              (y (neighbour p0 ((k + 1 + i) mod 8))) threshold = false.
Proof.
  induction todo as [|i0 r IH]; cbn [scan_neighbours]; [intros _ i []|].
  destruct (isPixelOn data w _ _ threshold) eqn:E; [discriminate|].
  intros H i [<-|Hin]; [exact E | now apply IH].
Qed.

(** When the scan finds nothing, none of the eight neighbours is
    foreground. *)
Lemma scan_neighbours_none_all p0 k :
  0 <= k < 8 ->
  scan_neighbours data w threshold p0 k indices8 = None ->
  forall j, 0 <= j < 8 ->
    isPixelOn data w (x (neighbour p0 j)) (y (neighbour p0 j)) threshold = false.
Proof.
  intros Hk H j Hj.
  pose proof (scan_neighbours_none p0 k indices8 H ((j - k - 1) mod 8)) as G.
  replace ((k + 1 + (j - k - 1) mod 8) mod 8) with j in G.
  - apply G. unfold indices8.
    assert (0 <= (j - k - 1) mod 8 < 8) as Hr by (apply Z.mod_pos_bound; lia).
    cbn. lia.
  - rewrite Zplus_mod_idemp_r. replace (k + 1 + (j - k - 1)) with j by lia.
    symmetry. apply Z.mod_small. exact Hj.
Qed.

(** The tracing loop entered at the start pixel found by the search. *)
Lemma moore_loop_from_start :
  forall (start : Pixel),
    find_start data w h threshold = Some start ->
    exists r,
      moore_loop data w h threshold (trace_fuel w h) start start
        {| x := x start - 1; y := y start |} 0 [] = Some r
      /\ trace_points data w h threshold = Some (points r)
      /\ 0 <= steps r <= w * h * 2
      /\ (1 <= List.length (points r))%nat
      /\ Z.of_nat (List.length (points r)) <= w * h * 2
      /\ (if broke r
          then forall j, 0 <= j < 8 ->
                 isPixelOn data w (x (neighbour (p r) j)) (y (neighbour (p r) j)) threshold
                 = false
          else (x (p r) = x start /\ y (p r) = y start) \/ steps r = w * h * 2).
Proof.
  intros start Hs.
  destruct (find_start_in_raster _ Hs) as (Hx & Hy & _).
  assert (Hm : 2 <= maxSteps w h) by (unfold maxSteps; nia).
  destruct (moore_loop_terminates (trace_fuel w h) start start
              {| x := x start - 1; y := y start |} 0 [])
    as (r & Hr & H1 & H2 & H3 & H4).
  { unfold trace_fuel. lia. }
  { unfold trace_fuel. lia. }
  exists r. split; [exact Hr|]. split.
  { unfold trace_points. rewrite Hs, Hr. reflexivity. }
  fold (maxSteps w h). cbn [List.length] in H3.
  destruct (broke r).
  - destruct H4 as [H4 H5].
    split; [lia|]. split; [lia|]. split; [lia|].
    apply scan_neighbours_none_all with (k := find_startIndex (p r) (b r) indices8);
      [apply find_startIndex_range, indices8_range | exact H5].
  - destruct H4 as [H4 H5].
    split; [lia|]. split; [lia|]. split; [lia|].
    destruct H5 as [H5|[H5|H5]]; [left; exact H5 | right; exact H5 | lia].
Qed.

Lemma trace_points_total :
  exists pts, trace_points data w h threshold = Some pts.
Proof.
  destruct (find_start data w h threshold) as [start|] eqn:E.
  - destruct (moore_loop_from_start start E) as (r & _ & H & _). eauto.
  - exists []. unfold trace_points. rewrite E. reflexivity.
Qed.

(** Claim C8.  For every raster, threshold, width and height the tracing
    step of [vectoriseSelection] returns.  Without a foreground pixel it
    yields no point.  Otherwise the loop is left within its fuel after at
    most 2*w*h steps, with at least one and at most 2*w*h points, and it
    is left because the current pixel has no foreground neighbour (the
    isolated-pixel break), because the current pixel is the start pixel
    again, or because the step count has reached 2*w*h. *)
Theorem tracing_terminates :
  exists pts,
    trace_points data w h threshold = Some pts
    /\ match find_start data w h threshold with
       | None => pts = []
       | Some start =>
           exists r,
             moore_loop data w h threshold (trace_fuel w h) start start
               {| x := x start - 1; y := y start |} 0 [] = Some r
             /\ pts = points r
             /\ 0 <= steps r <= w * h * 2
             /\ (1 <= List.length pts)%nat
             /\ Z.of_nat (List.length pts) <= w * h * 2
             /\ (if broke r
                 then forall j, 0 <= j < 8 ->
                        isPixelOn data w (x (neighbour (p r) j))
                                  (y (neighbour (p r) j)) threshold = false
                 else (x (p r) = x start /\ y (p r) = y start)
                      \/ steps r = w * h * 2)
       end.
Proof.
  destruct (find_start data w h threshold) as [start|] eqn:E.
  - destruct (moore_loop_from_start start E) as (r & H1 & H2 & H3 & H4 & H5 & H6).
    exists (points r). split; [exact H2|].
    exists r. repeat (split; [assumption || reflexivity|]). exact H6.
  - exists []. split; [|reflexivity].
    unfold trace_points. rewrite E. reflexivity.
Qed.

End Tracing.

Section Extraction.

Lemma scan_row_all_off data w threshold py xs :
  (forall px, isPixelOn data w px py threshold = false) ->
  scan_row data w threshold py xs = None.
Proof.
  intros H. induction xs as [|x0 r IH]; cbn; [reflexivity|]. now rewrite H.
Qed.

Lemma find_start_all_off data w h threshold :
  (forall px py, isPixelOn data w px py threshold = false) ->
  find_start data w h threshold = None.
Proof.
  intros H. unfold find_start.
  induction (range h) as [|y0 r IH]; cbn; [reflexivity|].
  rewrite scan_row_all_off by (intros; apply H). exact IH.
Qed.

Lemma is_empty_app_Z (s : string) : is_empty (s ++ "Z") = false.
Proof. destruct s; reflexivity. Qed.

Lemma path_of_empty simplified :
  is_empty (path_of simplified) = negb (2 <? List.length simplified)%nat.
Proof.
  unfold path_of. destruct (2 <? List.length simplified)%nat eqn:E; [|reflexivity].
  destruct simplified as [|p0 rest]; [discriminate|].
  apply is_empty_app_Z.
Qed.

Lemma canvas_guard_creates_no_glyph page now1 now2 s :
  canvas_of page s = None -> vectoriseSelection page now1 now2 s = Some (None, s).
Proof. intros H. unfold vectoriseSelection. now rewrite H. Qed.

(** Claim C9.  When the guards of [vectoriseSelection] pass, the trace
    returns a point sequence, and if its simplification has 2 or fewer
    points (in particular when the canvas holds no foreground pixel, where
    the trace is empty) the function returns without invoking the
    glyph-created callback and with the state unchanged; with more than 2
    points the callback is invoked and the selection is cleared. *)
Theorem short_trace_creates_no_glyph :
  forall (page : Page) (now1 now2 : Z) (s : ExtractorState)
         (w h : Z) (data : list Z),
    canvas_of page s = Some (w, h, data) ->
    exists pts,
      trace_points data w h (threshold s) = Some pts
      /\ ((List.length (simplify pts) <= 2)%nat ->
          vectoriseSelection page now1 now2 s = Some (None, s))
      /\ ((forall px py, isPixelOn data w px py (threshold s) = false) ->
          pts = [] /\ vectoriseSelection page now1 now2 s = Some (None, s))
      /\ ((2 < List.length (simplify pts))%nat ->
          exists glyph,
            vectoriseSelection page now1 now2 s
            = Some (Some glyph, set_selection None s)).
Proof.
  intros page now1 now2 s w h data Hc.
  destruct (trace_points_total data w h (threshold s)) as [pts Hp].
  exists pts. split; [exact Hp|].
  assert (Hshort : (List.length (simplify pts) <= 2)%nat ->
                   vectoriseSelection page now1 now2 s = Some (None, s)).
  { intros Hl. unfold vectoriseSelection. rewrite Hc, Hp.
    rewrite path_of_empty.
    destruct (Nat.ltb_spec 2 (List.length (simplify pts))); [lia | reflexivity]. }
  split; [exact Hshort|]. split.
  - intros Hoff.
    assert (E : pts = []).
    { unfold trace_points in Hp.
      rewrite (find_start_all_off _ _ _ _ Hoff) in Hp. now injection Hp as <-. }
    split; [exact E|]. apply Hshort. rewrite E. cbn. lia.
  - intros Hl. unfold vectoriseSelection. rewrite Hc, Hp, path_of_empty.
    destruct (Nat.ltb_spec 2 (List.length (simplify pts))); [|lia].
    eexists. reflexivity.
Qed.

Lemma white_5x5_off px py : isPixelOn white_5x5 5 px py 128 = false.
Proof.
  unfold isPixelOn.
  destruct (Z.ltb_spec px 0); [reflexivity|].
  destruct (Z.geb_spec px 5); [reflexivity|].
  destruct (Z.ltb_spec py 0); [reflexivity|]. cbn [orb].
  destruct (Z.lt_ge_cases py 5) as [L|L].
  - assert (px = 0 \/ px = 1 \/ px = 2 \/ px = 3 \/ px = 4) as Hx by lia.
    assert (py = 0 \/ py = 1 \/ py = 2 \/ py = 3 \/ py = 4) as Hy by lia.
    repeat (destruct Hx as [->|Hx]); try subst px;
      repeat (destruct Hy as [->|Hy]); try subst py; reflexivity.
  - assert (E : Qle_bool (inject_Z (Z.of_nat (List.length white_5x5)) / inject_Z (4 * 5))
                         (inject_Z py) = true).
    { apply Qle_bool_iff.
      assert (E5 : (inject_Z (Z.of_nat (List.length white_5x5)) / inject_Z (4 * 5)
                    == inject_Z 5)%Q) by reflexivity.
      rewrite E5, <- Zle_Qle. exact L. }
    now rewrite E.
Qed.

Lemma short_trace_creates_no_glyph_witness :
  vectoriseSelection (example_page white_5x5) 1700000000000 1700000000001 example_selection
  = Some (None, example_selection).
Proof.
  destruct (short_trace_creates_no_glyph (example_page white_5x5)
              1700000000000 1700000000001 example_selection 5 5 white_5x5 eq_refl)
    as (pts & _ & _ & H & _).
  apply H. exact white_5x5_off.
Defined.

End Extraction.

Section Translation.

Variables (data : list Z) (w h threshold : Z).
Variables (data0 : list Z) (w0 h0 threshold0 : Z).
Variables (dx dy : Z).

Hypothesis agree :
  forall px py,
    isPixelOn data w (px + dx) (py + dy) threshold
    = isPixelOn data0 w0 px py threshold0.

Lemma neighbour_shift q i : neighbour (shift dx dy q) i = shift dx dy (neighbour q i).
Proof. unfold neighbour, shift; cbn. f_equal; lia. Qed.

Lemma same_pixel_shift q1 q2 :
  same_pixel (shift dx dy q1) (shift dx dy q2) = same_pixel q1 q2.
Proof.
  unfold same_pixel, shift; cbn. f_equal.
  - destruct (Z.eqb_spec (x q1) (x q2)); [apply Z.eqb_eq | apply Z.eqb_neq]; lia.
  - destruct (Z.eqb_spec (y q1) (y q2)); [apply Z.eqb_eq | apply Z.eqb_neq]; lia.
Qed.

Lemma find_startIndex_shift p0 b0 ks :
  find_startIndex (shift dx dy p0) (shift dx dy b0) ks = find_startIndex p0 b0 ks.
Proof.
  induction ks as [|k r IH]; cbn; [reflexivity|].
  now rewrite neighbour_shift, same_pixel_shift, IH.
Qed.

Lemma scan_neighbours_shift p0 k todo :
  scan_neighbours data w threshold (shift dx dy p0) k todo
  = option_map (fun nb => (shift dx dy (fst nb), shift dx dy (snd nb)))
      (scan_neighbours data0 w0 threshold0 p0 k todo).
Proof.
  induction todo as [|i r IH]; cbn [scan_neighbours]; [reflexivity|].
  rewrite !neighbour_shift. cbn [shift x y]. rewrite agree.
  destruct (isPixelOn data0 w0 _ _ threshold0); [reflexivity | exact IH].
Qed.

Lemma moore_loop_steps fuel :
  forall start p0 b0 steps0 pts r,
    moore_loop data0 w0 h0 threshold0 fuel start p0 b0 steps0 pts = Some r ->
    steps0 <= steps r /\ (broke r = false -> steps0 < steps r).
Proof.
  induction fuel as [|fuel IH]; intros start p0 b0 steps0 pts r H; [discriminate|].
  cbn [moore_loop] in H.
  destruct (scan_neighbours data0 w0 threshold0 p0 _ indices8) as [[nextP nextB]|].
  - destruct (_ && _).
    + apply IH in H. lia.
    + injection H as <-. cbn. lia.
  - injection H as <-. cbn. split; [lia | discriminate].
Qed.

(** A trace that ends below the step limits of both rasters is the same,
    up to the translation, in both. *)
Lemma moore_loop_shift fuel0 :
  forall fuel start p0 b0 steps0 pts r,
    (fuel0 <= fuel)%nat ->
    moore_loop data0 w0 h0 threshold0 fuel0 start p0 b0 steps0 pts = Some r ->
    steps r < maxSteps w0 h0 ->
    steps r < maxSteps w h ->
    moore_loop data w h threshold fuel (shift dx dy start) (shift dx dy p0)
      (shift dx dy b0) steps0 (map (shift dx dy) pts)
    = Some (shift_state dx dy r).
Proof.
  induction fuel0 as [|fuel0 IH]; intros fuel start p0 b0 steps0 pts r Hf H H0 H1;
    [discriminate|].
  destruct fuel as [|fuel]; [lia|].
  cbn [moore_loop] in H |- *.
  rewrite find_startIndex_shift, scan_neighbours_shift.
  destruct (scan_neighbours data0 w0 threshold0 p0 _ indices8) as [[nextP nextB]|];
    cbn [option_map fst snd].
  - cbn [shift x y].
    replace (x nextP + dx =? x start + dx) with (x nextP =? x start)
      by (destruct (Z.eqb_spec (x nextP) (x start)); symmetry;
          [apply Z.eqb_eq | apply Z.eqb_neq]; lia).
    replace (y nextP + dy =? y start + dy) with (y nextP =? y start)
      by (destruct (Z.eqb_spec (y nextP) (y start)); symmetry;
          [apply Z.eqb_eq | apply Z.eqb_neq]; lia).
    destruct (negb (x nextP =? x start) || negb (y nextP =? y start)) eqn:C;
      cbn [andb] in H |- *.
    + destruct (steps0 + 1 <? maxSteps w0 h0) eqn:C0.
      * pose proof (moore_loop_steps _ _ _ _ _ _ _ H) as [Hs _].
        replace (steps0 + 1 <? maxSteps w h) with true by (symmetry; apply Z.ltb_lt; lia).
        rewrite <- (IH fuel start nextP nextB (steps0 + 1) (pts ++ [p0]) r
                      ltac:(lia) H H0 H1).
        now rewrite map_app.
      * injection H as <-. cbn [steps] in H0. apply Z.ltb_ge in C0. lia.
    + injection H as <-. unfold shift_state; cbn. now rewrite map_app.
  - injection H as <-. unfold shift_state; cbn. now rewrite map_app.
Qed.

End Translation.

Section Simplify.
Variables (dx dy : Z).

Lemma last_map_shift (l : list Pixel) d :
  last (map (shift dx dy) l) (shift dx dy d) = shift dx dy (last l d).
Proof.
  induction l as [|a r IH]; [reflexivity|].
  destruct r; [reflexivity|]. exact IH.
Qed.

Lemma last_default_irrelevant (l : list Pixel) d d' :
  l <> [] -> last l d = last l d'.
Proof.
  induction l as [|a r IH]; intros H; [contradiction|].
  destruct r; [reflexivity|]. apply IH. discriminate.
Qed.

Lemma nth_map_shift (l : list Pixel) i :
  (i < List.length l)%nat ->
  nth i (map (shift dx dy) l) origin = shift dx dy (nth i l origin).
Proof.
  intros H.
  rewrite (nth_indep (map (shift dx dy) l) origin (shift dx dy origin))
    by (rewrite length_map; exact H).
  apply map_nth.
Qed.

Lemma simplify_step_nonempty pts simplified i :
  simplified <> [] -> simplify_step pts simplified i <> [].
Proof.
  intros H. unfold simplify_step. destruct (negb _); [|exact H].
  destruct simplified; [contradiction | discriminate].
Qed.

Lemma simplify_step_shift pts simplified i :
  simplified <> [] ->
  (i + 1 < List.length pts)%nat ->
  simplify_step (map (shift dx dy) pts) (map (shift dx dy) simplified) i
  = map (shift dx dy) (simplify_step pts simplified i).
Proof.
  intros Hne Hi. unfold simplify_step.
  rewrite !nth_map_shift by lia.
  rewrite (last_default_irrelevant (map (shift dx dy) simplified) origin (shift dx dy origin))
    by (destruct simplified; [contradiction | discriminate]).
  rewrite last_map_shift. cbn [shift x y].
  match goal with
  | |- (if negb (?a =? ?b) then _ else _) = map _ (if negb (?c =? ?d) then _ else _) =>
      replace a with c by ring; replace b with d by ring
  end.
  destruct (negb _); [|reflexivity].
  now rewrite map_app.
Qed.

Lemma simplify_fold_shift pts idxs :
  forall simplified,
    simplified <> [] ->
    (forall i, In i idxs -> (i + 1 < List.length pts)%nat) ->
    fold_left (simplify_step (map (shift dx dy) pts)) idxs (map (shift dx dy) simplified)
    = map (shift dx dy) (fold_left (simplify_step pts) idxs simplified).
Proof.
  induction idxs as [|i r IH]; intros simplified Hne Hi; cbn [fold_left]; [reflexivity|].
  rewrite simplify_step_shift by (auto; apply Hi; now left).
  apply IH; [now apply simplify_step_nonempty | intros j Hj; apply Hi; now right].
Qed.

(** Removal of collinear points commutes with translation. *)
Lemma simplify_shift pts :
  simplify (map (shift dx dy) pts) = map (shift dx dy) (simplify pts).
Proof.
  destruct pts as [|p0 r]; [reflexivity|].
  unfold simplify. cbn [map]. rewrite map_app. cbn [map].
  change (shift dx dy p0 :: map (shift dx dy) r) with (map (shift dx dy) (p0 :: r)).
  rewrite length_map. f_equal.
  - apply (simplify_fold_shift (p0 :: r) _ [p0]); [discriminate|].
    intros i Hi. apply in_seq in Hi. cbn [List.length] in *. lia.
  - f_equal. apply nth_map_shift. cbn [List.length]. lia.
Qed.

End Simplify.

Section Square.

Lemma square_raster_on data w h x0 y0 :
  square_raster data w h x0 y0 = true ->
  forall px py, isPixelOn data w px py 128 = in_square x0 y0 px py.
Proof.
  unfold square_raster. rewrite !andb_true_iff.
  intros [[[[[Hx0 Hx1] Hy0] Hy1] Hlen] Hall] px py.
  apply Z.leb_le in Hx0, Hx1, Hy0, Hy1. apply Z.eqb_eq in Hlen.
  unfold isPixelOn, in_square.
  destruct (Z.ltb_spec px 0) as [Hpx|Hpx]; cbn [orb].
  { destruct (Z.leb_spec x0 px); [lia | reflexivity]. }
  destruct (Z.geb_spec px w) as [Hpw|Hpw]; cbn [orb].
  { destruct (Z.leb_spec x0 px); [|reflexivity].
    destruct (Z.ltb_spec px (x0 + 4)); [lia | reflexivity]. }
  destruct (Z.ltb_spec py 0) as [Hpy|Hpy]; cbn [orb].
  { destruct (Z.leb_spec y0 py); [lia | now rewrite andb_false_r]. }
  assert (Hq : (inject_Z (Z.of_nat (List.length data)) / inject_Z (4 * w) == inject_Z h)%Q).
  { rewrite Hlen. replace (4 * w * h) with (h * (4 * w)) by ring.
    rewrite inject_Z_mult. field.
    intros E. unfold Qeq, inject_Z in E. cbn [Qnum Qden] in E. lia. }
  destruct (Qle_bool _ (inject_Z py)) eqn:Hb.
  { apply Qle_bool_iff in Hb. rewrite Hq in Hb. rewrite <- Zle_Qle in Hb.
    destruct (Z.ltb_spec py (y0 + 4)); [lia | now rewrite andb_false_r]. }
  assert (Hph : py < h).
  { destruct (Z.lt_ge_cases py h) as [L|L]; [exact L|].
    assert (Qle_bool (inject_Z (Z.of_nat (List.length data)) / inject_Z (4 * w))
                     (inject_Z py) = true) as E.
    { apply Qle_bool_iff. rewrite Hq. rewrite <- Zle_Qle. lia. }
    congruence. }
  rewrite forallb_forall in Hall.
  specialize (Hall py (proj2 (range_spec h py) ltac:(lia))).
  rewrite forallb_forall in Hall.
  specialize (Hall px (proj2 (range_spec w px) ltac:(lia))).
  unfold pixel_rgb, in_square in Hall.
  destruct (nth_error data (Z.to_nat ((py * w + px) * 4))) as [r|]; [|discriminate].
  destruct (nth_error data (Z.to_nat ((py * w + px) * 4 + 1))) as [g|]; [|discriminate].
  destruct (nth_error data (Z.to_nat ((py * w + px) * 4 + 2))) as [b|]; [|discriminate].
  cbn [grey] in Hall. rewrite !andb_true_iff in Hall. destruct Hall as [[Hr Hg] Hbl].
  apply Z.eqb_eq in Hr, Hg, Hbl. subst r g b.
  destruct ((x0 <=? px) && (px <? x0 + 4) && (y0 <=? py) && (py <? y0 + 4)); reflexivity.
Qed.

Lemma in_square_shift x0 y0 px py :
  in_square x0 y0 (px + x0) (py + y0) = in_square 0 0 px py.
Proof.
  unfold in_square.
  repeat match goal with
         | |- context [?a <=? ?b] => destruct (Z.leb_spec a b)
         | |- context [?a <? ?b] => destruct (Z.ltb_spec a b)
         end; try reflexivity; lia.
Qed.

End Square.

Section FindStart.
Variables (data : list Z) (w h threshold : Z).

Lemma range_split n a :
  0 <= a < n -> exists rest, range n = range a ++ a :: rest.
Proof.
  intros H. unfold range.
  replace (Z.to_nat n) with (Z.to_nat a + S (Z.to_nat (n - a - 1)))%nat by lia.
  rewrite seq_app, map_app. cbn [seq map plus].
  rewrite Z2Nat.id by lia. eauto.
Qed.

Lemma scan_row_app py xs1 xs2 :
  scan_row data w threshold py (xs1 ++ xs2)
  = match scan_row data w threshold py xs1 with
    | Some s => Some s
    | None => scan_row data w threshold py xs2
    end.
Proof.
  induction xs1 as [|x0 r IH]; cbn; [reflexivity|].
  destruct (isPixelOn data w x0 py threshold); [reflexivity | exact IH].
Qed.

Lemma scan_rows_app ys1 ys2 :
  scan_rows data w threshold (ys1 ++ ys2)
  = match scan_rows data w threshold ys1 with
    | Some s => Some s
    | None => scan_rows data w threshold ys2
    end.
Proof.
  induction ys1 as [|y0 r IH]; cbn; [reflexivity|].
  destruct (scan_row data w threshold y0 (range w)); [reflexivity | exact IH].
Qed.

Lemma scan_row_off py xs :
  (forall px, In px xs -> isPixelOn data w px py threshold = false) ->
  scan_row data w threshold py xs = None.
Proof.
  induction xs as [|x0 r IH]; intros H; cbn; [reflexivity|].
  rewrite (H x0) by now left. apply IH. intros px Hp. apply H. now right.
Qed.

Lemma scan_rows_off ys :
  (forall px py, In py ys -> isPixelOn data w px py threshold = false) ->
  scan_rows data w threshold ys = None.
Proof.
  induction ys as [|y0 r IH]; intros H; cbn; [reflexivity|].
  rewrite scan_row_off by (intros px _; apply H; now left).
  apply IH. intros px py Hp. apply H. now right.
Qed.

(** The search returns the foreground pixel before which, in row-major
    order, there is none. *)
Lemma find_start_first sx sy :
  0 <= sx < w -> 0 <= sy < h ->
  isPixelOn data w sx sy threshold = true ->
  (forall px py, 0 <= py < sy -> isPixelOn data w px py threshold = false) ->
  (forall px, 0 <= px < sx -> isPixelOn data w px sy threshold = false) ->
  find_start data w h threshold = Some {| x := sx; y := sy |}.
Proof.
  intros Hx Hy Hon Habove Hleft. unfold find_start.
  destruct (range_split h sy Hy) as [ys ->].
  destruct (range_split w sx Hx) as [xs Ew].
  rewrite scan_rows_app, scan_rows_off.
  - cbn [scan_rows]. rewrite Ew, scan_row_app, scan_row_off.
    + cbn [scan_row]. now rewrite Hon.
    + intros px Hp. apply Hleft. now apply range_spec.
  - intros px py Hp. apply Habove. now apply range_spec.
Qed.

End FindStart.

Section SquareTrace.

Lemma black_4x4_trace :
  moore_loop black_4x4 4 4 128 13 origin origin {| x := -1; y := 0 |} 0 []
  = Some {| points :=
              [ mkPixel 0 0; mkPixel 1 0; mkPixel 2 0; mkPixel 3 0;
                mkPixel 3 1; mkPixel 3 2; mkPixel 3 3; mkPixel 2 3;
                mkPixel 1 3; mkPixel 0 3; mkPixel 0 2; mkPixel 0 1 ];
            p := origin;
            b := mkPixel (-1) 0;
            steps := 12;
            broke := false |}.
Proof. vm_compute. reflexivity. Qed.

(** Claim C2 as stated fails: for the black 4 by 4 square at (1, 1) of a
    white 6 by 6 raster, the simplified trace has neither exactly 4 points
    nor is it the sequence of the four corners. *)
Lemma traced_square_is_not_four_points :
  square_raster raster_6x6 6 6 1 1 = true
  /\ ~ (exists pts,
          trace_points raster_6x6 6 6 128 = Some pts
          /\ (List.length (simplify pts) = 4%nat
              \/ simplify pts = square_corners 1 1)).
Proof.
  split; [vm_compute; reflexivity|].
  intros (pts & H & Hc). vm_compute in H. injection H as <-.
  destruct Hc as [Hc|Hc]; vm_compute in Hc; discriminate.
Qed.

(** Claim C2, amended.  For every raster that is black on a 4 by 4 square
    and white elsewhere, wherever the square lies and whatever the size of
    the raster, tracing with threshold 128 visits the 12 boundary pixels
    of the square and, after the removal of collinear points, leaves
    exactly 5 points: the four corner pixels clockwise from the top left,
    followed by the last pixel of the raw trace (the one below the
    top-left corner), which is always kept. *)
Theorem traced_square_keeps_last_pixel :
  forall (data : list Z) (w h x0 y0 : Z),
    square_raster data w h x0 y0 = true ->
    exists pts,
      trace_points data w h 128 = Some pts
      /\ List.length pts = 12%nat
      /\ simplify pts = square_outline x0 y0
      /\ List.length (simplify pts) = 5%nat
      /\ forall (page : Page) (now1 now2 : Z) (s : ExtractorState),
           canvas_of page s = Some (w, h, data) ->
           threshold s = 128 ->
           exists glyph,
             vectoriseSelection page now1 now2 s = Some (Some glyph, set_selection None s)
             /\ svgPath glyph = path_of (square_outline x0 y0)
             /\ GlyphEditor.parsePath (svgPath glyph)
                = map EditorSpec.pixel_point (square_outline x0 y0).
Proof.
  intros data w h x0 y0 Hsq.
  pose proof (square_raster_on data w h x0 y0 Hsq) as Hon.
  assert (Hon0 : forall px py, isPixelOn black_4x4 4 px py 128 = in_square 0 0 px py).
  { apply (square_raster_on black_4x4 4 4 0 0). vm_compute. reflexivity. }
  assert (Hagree : forall px py,
             isPixelOn data w (px + x0) (py + y0) 128 = isPixelOn black_4x4 4 px py 128).
  { intros px py. now rewrite Hon, Hon0, in_square_shift. }
  unfold square_raster in Hsq. rewrite !andb_true_iff in Hsq.
  destruct Hsq as [[[[[Hx0 Hx1] Hy0] Hy1] _] _].
  apply Z.leb_le in Hx0, Hx1, Hy0, Hy1.
  assert (Hstart : find_start data w h 128 = Some {| x := x0; y := y0 |}).
  { apply find_start_first; try lia.
    - rewrite Hon. unfold in_square.
      rewrite !Z.leb_refl. cbn [andb].
      destruct (Z.ltb_spec x0 (x0 + 4)); [|lia].
      destruct (Z.ltb_spec y0 (y0 + 4)); [reflexivity | lia].
    - intros px py Hp. rewrite Hon. unfold in_square.
      destruct (Z.leb_spec y0 py); [lia|]. now rewrite andb_false_r.
    - intros px Hp. rewrite Hon. unfold in_square.
      destruct (Z.leb_spec x0 px); [lia | reflexivity]. }
  assert (Hfuel : (13 <= trace_fuel w h)%nat) by (unfold trace_fuel, maxSteps; nia).
  pose proof (moore_loop_shift data w h 128 black_4x4 4 4 128 x0 y0 Hagree
                13 (trace_fuel w h) origin origin {| x := -1; y := 0 |} 0 [] _
                Hfuel black_4x4_trace) as Hloop.
  cbn [steps] in Hloop.
  specialize (Hloop ltac:(reflexivity) ltac:(unfold maxSteps; nia)).
  assert (Htrace : trace_points data w h 128
                   = Some (map (shift x0 y0)
                             [ mkPixel 0 0; mkPixel 1 0; mkPixel 2 0; mkPixel 3 0;
                               mkPixel 3 1; mkPixel 3 2; mkPixel 3 3; mkPixel 2 3;
                               mkPixel 1 3; mkPixel 0 3; mkPixel 0 2; mkPixel 0 1 ])).
  { unfold trace_points. rewrite Hstart. cbn [x y].
    replace {| x := x0 - 1; y := y0 |} with (shift x0 y0 {| x := -1; y := 0 |})
      by (unfold shift; cbn [x y]; f_equal; lia).
    change {| x := x0; y := y0 |} with (shift x0 y0 origin).
    cbn [map] in Hloop. rewrite Hloop. reflexivity. }
  assert (Hsimp : simplify (map (shift x0 y0)
                             [ mkPixel 0 0; mkPixel 1 0; mkPixel 2 0; mkPixel 3 0;
                               mkPixel 3 1; mkPixel 3 2; mkPixel 3 3; mkPixel 2 3;
                               mkPixel 1 3; mkPixel 0 3; mkPixel 0 2; mkPixel 0 1 ])
                  = square_outline x0 y0).
  { rewrite simplify_shift.
    match goal with
    | |- map _ (simplify ?l) = _ =>
        replace (simplify l)
          with [ mkPixel 0 0; mkPixel 3 0; mkPixel 3 3; mkPixel 0 3; mkPixel 0 1 ]
          by (vm_compute; reflexivity)
    end.
    unfold square_outline, shift; cbn [map x y].
    repeat match goal with
           | |- _ :: _ = _ :: _ => apply f_equal2; [apply f_equal2; lia|]
           end.
    reflexivity. }
  eexists. split; [exact Htrace|].
  split; [reflexivity|]. split; [exact Hsimp|]. rewrite Hsimp.
  split; [reflexivity|].
  intros page now1 now2 s Hc Ht.
  unfold vectoriseSelection. rewrite Hc, Ht, Htrace, Hsimp.
  rewrite path_of_empty. cbn [square_outline List.length Nat.ltb Nat.leb negb].
  eexists. split; [reflexivity|]. cbn [svgPath]. split; [reflexivity|].
  apply PathFacts.extractor_path_round_trip. cbn. lia.
Qed.

Lemma traced_square_keeps_last_pixel_witness :
  exists pts,
    trace_points raster_6x6 6 6 128 = Some pts
    /\ simplify pts = square_outline 1 1.
Proof.
  destruct (traced_square_keeps_last_pixel raster_6x6 6 6 1 1)
    as (pts & H1 & _ & H2 & _).
  - vm_compute. reflexivity.
  - exists pts. split; assumption.
Defined.

End SquareTrace.

End TracerFacts.

(** ** Editor: history, deletion and the point-count invariant *)

Module EditorFacts.
Import Js GlyphEditor EditorSpec.

Section ListFacts.
Context {A : Type}.
Implicit Types l m : list A.





Lemma removelast_snoc l (a : A) : removelast (l ++ [a]) = l.
Proof. apply removelast_last. Qed.

Lemma filter_index_length_le (f : A -> nat -> bool) i l :
  (List.length (filter_index f i l) <= List.length l)%nat.
Proof.
  revert i. induction l as [|a l IH]; intros i; cbn; [lia|].
  destruct (f a i); cbn; specialize (IH (S i)); lia.
Qed.


Lemma mod2_cases (i : nat) :
  (i mod 2 = 0 /\ S i mod 2 = 1 \/ i mod 2 = 1 /\ S i mod 2 = 0)%nat.
Proof.
  induction i as [|i [[E1 E2]|[E1 E2]]].
  - left. split; reflexivity.
  - right. split; [exact E2|].
    replace (S (S i)) with (i + 1 * 2)%nat by lia.
    rewrite Nat.Div0.mod_add. exact E1.
  - left. split; [exact E2|].
    replace (S (S i)) with (i + 1 * 2)%nat by lia.
    rewrite Nat.Div0.mod_add. exact E1.
Qed.


(** Keeping the entries at even indices. *)
Lemma filter_index_even_length l i :
  List.length (filter_index (fun (_ : A) j => (j mod 2 =? 0)%nat) i l)
  = ((List.length l + 1 - i mod 2) / 2)%nat.
Proof.
  revert i. induction l as [|a l IH]; intros i; cbn [filter_index List.length].
  - destruct (mod2_cases i) as [[E _]|[E _]]; rewrite E; reflexivity.
  - specialize (IH (S i)).
    destruct (mod2_cases i) as [[E1 E2]|[E1 E2]]; rewrite E1; rewrite E2 in IH.
    + cbn [Nat.eqb List.length]. rewrite IH.
      replace (S (List.length l) + 1 - 0)%nat with (List.length l + 1 - 1 + 1 * 2)%nat by lia.
      rewrite Nat.div_add by lia. lia.
    + cbn [Nat.eqb]. rewrite IH. f_equal; lia.
Qed.

End ListFacts.

Section History.


















End History.

Section Invariant.



Lemma write_xy_length i lx ly pts :
  List.length (write_xy i lx ly pts) = List.length pts.
Proof.
  revert i. induction pts as [|p r IH]; intros i; [now destruct i|].
  destruct i; cbn; [reflexivity | now rewrite IH].
Qed.

Lemma fold_left_grows_by_two {A B} (f : list A -> B -> list A) (idxs : list B) :
  (forall acc i, List.length (f acc i) = (List.length acc + 2)%nat) ->
  forall acc,
    List.length (fold_left f idxs acc) = (List.length acc + 2 * List.length idxs)%nat.
Proof.
  intros Hf. induction idxs as [|i r IH]; intros acc; cbn [fold_left List.length].
  - lia.
  - rewrite IH, Hf. lia.
Qed.

Lemma smoothPoints_length pts :
  List.length (smoothPoints pts)
  = if (List.length pts <? 3)%nat then List.length pts else (2 * List.length pts)%nat.
Proof.
  unfold smoothPoints. destruct (List.length pts <? 3)%nat eqn:E; [reflexivity|].
  destruct pts as [|p0 r]; [discriminate|].
  rewrite fold_left_grows_by_two.
  - rewrite length_seq. cbn [List.length]. lia.
  - intros acc i. rewrite length_app. reflexivity.
Qed.












(** A glyph made by the extractor has a path of more than 2 pixels. *)
Lemma extracted_glyph_path page now1 now2 sx sx' glyph :
  CharacterExtractor.vectoriseSelection page now1 now2 sx = Some (Some glyph, sx') ->
  exists pixels,
    (2 < List.length pixels)%nat
    /\ svgPath glyph = CharacterExtractor.path_of pixels.
Proof.
  unfold CharacterExtractor.vectoriseSelection.
  destruct (CharacterExtractor.canvas_of page sx) as [[[w h] data]|]; [|discriminate].
  destruct (CharacterExtractor.trace_points data w h _) as [pts|]; [|discriminate].
  destruct (is_empty _) eqn:E; [discriminate|].
  intros H. injection H as <- _.
  exists (CharacterExtractor.simplify pts). split; [|reflexivity].
  rewrite TracerFacts.path_of_empty in E. apply negb_false_iff, Nat.ltb_lt in E. exact E.
Qed.








End Invariant.

End EditorFacts.

(** ** Tracing: the pixel test, the start pixel and the traced boundary *)

Module BoundaryFacts.
Import Js CharacterExtractor TracerSpec MoreSpec.
Local Open Scope Z_scope.

Section Pixels.
Variables (data : list Z) (w h threshold : Z).

Lemma isPixelOn_reads_inside px py t :
  isPixelOn data w px py t = true ->
  (py * w + px) * 4 + 2 < Z.of_nat (List.length data).
Proof.
  intros H.
  pose proof (TracerFacts.isPixelOn_in_raster _ _ _ _ _ H) as (Hx & Hy).
  unfold isPixelOn in H.
  destruct ((px <? 0) || (px >=? w) || (py <? 0) || _); [discriminate|].
  cbv zeta in H.
  destruct (nth_error data (Z.to_nat ((py * w + px) * 4))); [|discriminate].
  destruct (nth_error data (Z.to_nat ((py * w + px) * 4 + 1))); [|discriminate].
  destruct (nth_error data (Z.to_nat ((py * w + px) * 4 + 2))) eqn:E; [|discriminate].
  assert (L : (Z.to_nat ((py * w + px) * 4 + 2) < List.length data)%nat)
    by (apply nth_error_Some; congruence).
  nia.
Qed.

Lemma isPixelOn_monotone px py t t' :
  t <= t' ->
  isPixelOn data w px py t = true -> isPixelOn data w px py t' = true.
Proof.
  intros Ht. unfold isPixelOn.
  destruct ((px <? 0) || (px >=? w) || (py <? 0) || _); [discriminate|].
  cbv zeta.
  destruct (nth_error data (Z.to_nat ((py * w + px) * 4))) as [r|]; [|discriminate].
  destruct (nth_error data (Z.to_nat ((py * w + px) * 4 + 1))) as [g|]; [|discriminate].
  destruct (nth_error data (Z.to_nat ((py * w + px) * 4 + 2))) as [b|]; [|discriminate].
  rewrite !negb_true_iff. intros H.
  destruct (Qle_bool (inject_Z t') _) eqn:E; [|reflexivity].
  apply Qle_bool_iff in E.
  assert (F : Qle_bool (inject_Z t)
                ((34 # 100) * inject_Z r + (1 # 2) * inject_Z g + (16 # 100) * inject_Z b) = true).
  { apply Qle_bool_iff. rewrite Zle_Qle in Ht. lra. }
  congruence.
Qed.

(** X1: a pixel counts as foreground only inside the raster and only when
    its three colour entries lie inside the pixel array; raising the
    threshold never turns a foreground pixel into background. *)
Theorem foreground_is_inside_and_grows_with_threshold px py t t' :
  t <= t' ->
  isPixelOn data w px py t = true ->
  0 <= px < w /\ 0 <= py
  /\ (py * w + px) * 4 + 2 < Z.of_nat (List.length data)
  /\ isPixelOn data w px py t' = true.
Proof.
  intros Ht H.
  pose proof (TracerFacts.isPixelOn_in_raster _ _ _ _ _ H) as (Hx & Hy).
  repeat (split; [lia|]). split.
  - eapply isPixelOn_reads_inside; eassumption.
  - eapply isPixelOn_monotone; eassumption.
Qed.

(** *** The start pixel *)

Lemma scan_row_first py :
  forall n a s,
    scan_row data w threshold py (map Z.of_nat (seq a n)) = Some s ->
    Z.of_nat a <= x s
    /\ forall px, Z.of_nat a <= px < x s -> isPixelOn data w px py threshold = false.
Proof.
  induction n as [|n IH]; intros a s; cbn [seq map scan_row]; [discriminate|].
  destruct (isPixelOn data w (Z.of_nat a) py threshold) eqn:E.
  - intros [= <-]. cbn. split; [lia|]. intros; lia.
  - intros H. apply IH in H as (H1 & H2). split; [lia|]. intros px Hpx.
    destruct (Z.eq_dec px (Z.of_nat a)) as [->|]; [exact E|]. apply H2; lia.
Qed.

Lemma scan_rows_first :
  forall n a s,
    scan_rows data w threshold (map Z.of_nat (seq a n)) = Some s ->
    Z.of_nat a <= y s
    /\ (forall py, Z.of_nat a <= py < y s ->
          scan_row data w threshold py (range w) = None)
    /\ scan_row data w threshold (y s) (range w) = Some s.
Proof.
  induction n as [|n IH]; intros a s; cbn [seq map scan_rows]; [discriminate|].
  destruct (scan_row data w threshold (Z.of_nat a) (range w)) as [s0|] eqn:E.
  - intros [= <-].
    pose proof (TracerFacts.scan_row_found _ _ _ _ _ _ E) as (_ & Hy & _).
    rewrite Hy. split; [lia|]. split; [intros; lia | exact E].
  - intros H. apply IH in H as (H1 & H2 & H3). split; [lia|]. split; [|exact H3].
    intros py Hpy.
    destruct (Z.eq_dec py (Z.of_nat a)) as [->|]; [exact E|]. apply H2; lia.
Qed.

Lemma scan_rows_none ys :
  scan_rows data w threshold ys = None ->
  forall py, In py ys -> scan_row data w threshold py (range w) = None.
Proof.
  induction ys as [|y0 r IH]; cbn [scan_rows]; [intros _ py []|].
  destruct (scan_row data w threshold y0 (range w)) eqn:E; [discriminate|].
  intros H py [<-|Hp]; [exact E | now apply IH].
Qed.

Lemma off_outside_columns px py :
  ~ 0 <= px < w -> isPixelOn data w px py threshold = false.
Proof.
  intros Hx. destruct (isPixelOn data w px py threshold) eqn:E; [|reflexivity].
  apply TracerFacts.isPixelOn_in_raster in E. lia.
Qed.

Lemma off_above px py :
  py < 0 -> isPixelOn data w px py threshold = false.
Proof.
  intros Hy. destruct (isPixelOn data w px py threshold) eqn:E; [|reflexivity].
  apply TracerFacts.isPixelOn_in_raster in E. lia.
Qed.

Lemma row_none_off px py :
  scan_row data w threshold py (range w) = None ->
  isPixelOn data w px py threshold = false.
Proof.
  intros H.
  destruct (Z_lt_dec px 0); [apply off_outside_columns; lia|].
  destruct (Z_le_dec w px); [apply off_outside_columns; lia|].
  eapply TracerFacts.scan_row_none; [exact H|]. apply TracerFacts.range_spec. lia.
Qed.

Lemma find_start_before_off s px py :
  find_start data w h threshold = Some s ->
  before px py s -> isPixelOn data w px py threshold = false.
Proof.
  intros E. unfold find_start, range in E.
  apply scan_rows_first in E as (_ & Habove & Hrow).
  intros [Hb | (-> & Hb)].
  - destruct (Z_lt_dec py 0); [now apply off_above|].
    apply row_none_off. apply Habove. cbn. lia.
  - unfold range in Hrow. apply scan_row_first in Hrow as (_ & Hleft).
    destruct (Z_lt_dec px 0); [apply off_outside_columns; lia|].
    apply Hleft. cbn. lia.
Qed.

(** X2: the search for the start pixel returns the first foreground pixel
    of the raster in row-major order (every pixel of an earlier row, and
    every earlier pixel of its row, is background), and returns nothing
    exactly when no row of the raster holds a foreground pixel. *)
Theorem find_start_is_first_in_row_major_order :
  match find_start data w h threshold with
  | Some s =>
      0 <= x s < w /\ 0 <= y s < h
      /\ isPixelOn data w (x s) (y s) threshold = true
      /\ forall px py, before px py s -> isPixelOn data w px py threshold = false
  | None =>
      forall px py, py < h -> isPixelOn data w px py threshold = false
  end.
Proof.
  destruct (find_start data w h threshold) as [s|] eqn:E.
  - pose proof (TracerFacts.find_start_in_raster _ _ _ _ _ E) as (Hx & Hy & Hon).
    repeat (split; [assumption|]).
    intros px py Hb. eapply find_start_before_off; eassumption.
  - intros px py Hp.
    destruct (Z_lt_dec py 0); [now apply off_above|].
    apply row_none_off. eapply scan_rows_none; [exact E|].
    apply TracerFacts.range_spec. lia.
Qed.

(** *** The traced boundary *)

Ltac offsets_by_value :=
  repeat match goal with
         | |- context [offset ?k] =>
             let o := eval vm_compute in (offset k) in change (offset k) with o
         end;
  cbn [fst snd x y].

Lemma neighbour_adjacent q i : 0 <= i < 8 -> adjacent q (neighbour q i).
Proof.
  intros Hi.
  assert (C : i = 0 \/ i = 1 \/ i = 2 \/ i = 3 \/ i = 4 \/ i = 5 \/ i = 6 \/ i = 7) by lia.
  destruct q as [qx qy].
  unfold adjacent.
  unfold neighbour.
  repeat (destruct C as [-> | C]); try subst i; offsets_by_value;
    (split; [lia|]; split; [lia|]; intros E; injection E; lia).
Qed.

Lemma neighbour_back q i :
  0 <= i < 8 -> neighbour (neighbour q i) ((i + 4) mod 8) = q.
Proof.
  intros Hi.
  assert (C : i = 0 \/ i = 1 \/ i = 2 \/ i = 3 \/ i = 4 \/ i = 5 \/ i = 6 \/ i = 7) by lia.
  destruct q as [qx qy].
  unfold neighbour.
  repeat (destruct C as [-> | C]); try subst i;
    match goal with
    | |- context [?a mod 8] =>
        let v := eval vm_compute in (a mod 8) in change (a mod 8) with v
    end;
    cbn [x y]; offsets_by_value; f_equal; lia.
Qed.

Lemma scan_neighbours_some q k todo nextP nextB :
  scan_neighbours data w threshold q k todo = Some (nextP, nextB) ->
  exists idx,
    0 <= idx < 8 /\ nextP = neighbour q idx
    /\ isPixelOn data w (x nextP) (y nextP) threshold = true.
Proof.
  induction todo as [|i r IH]; cbn [scan_neighbours]; [discriminate|].
  cbv zeta.
  destruct (isPixelOn data w (x (neighbour q ((k + 1 + i) mod 8)))
              (y (neighbour q ((k + 1 + i) mod 8))) threshold) eqn:E.
  - intros [= <- _]. exists ((k + 1 + i) mod 8).
    split; [apply Z.mod_pos_bound; lia|]. split; [reflexivity | exact E].
  - exact IH.
Qed.

Lemma chain_snoc l a c :
  chain (l ++ [a]) -> adjacent a c -> chain ((l ++ [a]) ++ [c]).
Proof.
  induction l as [|u r IH]; intros H Hac.
  - cbn. split; [exact Hac | exact I].
  - destruct r as [|v r'].
    + cbn in *. destruct H as (H1 & _). repeat split; try apply H1; try apply Hac.
    + cbn [app chain] in *. destruct H as (H1 & H2). split; [exact H1|].
      apply IH; assumption.
Qed.

Lemma moore_loop_boundary fuel :
  forall start q bk st pts r,
    moore_loop data w h threshold fuel start q bk st pts = Some r ->
    (on_pixel data w threshold) q -> Forall (on_pixel data w threshold) pts -> chain (pts ++ [q]) ->
    (pts <> [] -> exists j, 0 <= j < 8 /\ (on_pixel data w threshold) (neighbour q j)) ->
    Forall (on_pixel data w threshold) (points r)
    /\ chain (points r)
    /\ (exists tl, points r = pts ++ q :: tl)
    /\ (if broke r then pts = [] /\ points r = [q]
        else (on_pixel data w threshold) (p r) /\ adjacent (last (points r) q) (p r)).
Proof.
  induction fuel as [|fuel IH]; intros start q bk st pts r; cbn [moore_loop];
    [discriminate|].
  cbv zeta. intros H Hq Hpts Hchain Hnb.
  assert (Hk : 0 <= find_startIndex q bk indices8 < 8)
    by (apply TracerFacts.find_startIndex_range, TracerFacts.indices8_range).
  destruct (scan_neighbours data w threshold q (find_startIndex q bk indices8) indices8)
    as [[nextP nextB]|] eqn:E.
  - pose proof (scan_neighbours_some _ _ _ _ _ E) as (idx & Hidx & -> & Hon).
    assert (Hall : Forall (on_pixel data w threshold) (pts ++ [q]))
      by (apply Forall_app; split; [exact Hpts | constructor; [exact Hq | constructor]]).
    destruct ((negb (x (neighbour q idx) =? x start)
               || negb (y (neighbour q idx) =? y start)) && (st + 1 <? maxSteps w h)).
    + apply IH in H.
      * destruct H as (H1 & H2 & (tl & H3) & H4).
        split; [exact H1|]. split; [exact H2|]. split.
        { exists (neighbour q idx :: tl). rewrite H3, <- app_assoc. reflexivity. }
        destruct (broke r).
        { destruct H4 as (H4 & _). destruct pts; discriminate. }
        destruct H4 as (H4 & H5). split; [exact H4|].
        rewrite (TracerFacts.last_default_irrelevant _ q (neighbour q idx)); [exact H5|].
        rewrite H3. destruct pts; discriminate.
      * exact Hon.
      * exact Hall.
      * apply chain_snoc; [exact Hchain|]. now apply neighbour_adjacent.
      * intros _. exists ((idx + 4) mod 8).
        split; [apply Z.mod_pos_bound; lia|].
        rewrite neighbour_back by exact Hidx. exact Hq.
    + injection H as <-. cbn [points broke p].
      split; [exact Hall|]. split; [exact Hchain|]. split; [now exists []|].
      split; [exact Hon|]. rewrite last_last. now apply neighbour_adjacent.
  - injection H as <-. cbn [points broke p].
    assert (Hnil : pts = []).
    { destruct pts as [|u pts']; [reflexivity|]. exfalso.
      destruct Hnb as (j & Hj & Hjon); [discriminate|].
      unfold on_pixel in Hjon.
      rewrite (TracerFacts.scan_neighbours_none_all _ _ _ _ _ Hk E j Hj) in Hjon.
      discriminate. }
    subst pts. cbn.
    split; [constructor; [exact Hq | constructor]|].
    split; [exact I|]. split; [now exists []|]. split; reflexivity.
Qed.

(** X3: when the raster has a foreground pixel, the traced sequence starts
    at the start pixel, consists of foreground pixels only, and each of its
    pixels touches the next one by a side or a corner.  The walk stops on
    a foreground pixel that touches the last traced one; the isolated-pixel
    break happens only at the start pixel, before any move. *)
Theorem traced_boundary_is_connected_foreground start :
  find_start data w h threshold = Some start ->
  exists r,
    moore_loop data w h threshold (trace_fuel w h) start start
      {| x := x start - 1; y := y start |} 0 [] = Some r
    /\ trace_points data w h threshold = Some (points r)
    /\ hd_error (points r) = Some start
    /\ Forall (fun q => isPixelOn data w (x q) (y q) threshold = true) (points r)
    /\ chain (points r)
    /\ (if broke r then points r = [start]
        else isPixelOn data w (x (p r)) (y (p r)) threshold = true
             /\ adjacent (last (points r) start) (p r)).
Proof.
  intros Hs.
  destruct (TracerFacts.moore_loop_from_start _ _ _ _ _ Hs) as (r & Hr & Ht & _).
  pose proof (TracerFacts.find_start_in_raster _ _ _ _ _ Hs) as (_ & _ & Hon).
  exists r. split; [exact Hr|]. split; [exact Ht|].
  apply moore_loop_boundary in Hr.
  - destruct Hr as (H1 & H2 & (tl & H3) & H4).
    split; [rewrite H3; reflexivity|]. split; [exact H1|]. split; [exact H2|].
    destruct (broke r); [apply H4 | exact H4].
  - exact Hon.
  - constructor.
  - exact I.
  - intros C. now elim C.
Qed.

(** *** The backtrack pixel *)

Lemma same_pixel_eq a c : same_pixel a c = true -> a = c.
Proof.
  destruct a as [ax ay], c as [cx cy]. unfold same_pixel. cbn [x y].
  intros H. apply andb_true_iff in H as [H1 H2].
  apply Z.eqb_eq in H1, H2. now subst.
Qed.

Lemma same_pixel_refl a : same_pixel a a = true.
Proof. unfold same_pixel. now rewrite !Z.eqb_refl. Qed.

Lemma find_startIndex_finds q bk ks :
  (exists k, In k ks /\ bk = neighbour q k) ->
  neighbour q (find_startIndex q bk ks) = bk.
Proof.
  induction ks as [|k0 r IH]; intros (k & Hin & Hk); [destruct Hin|].
  cbn [find_startIndex].
  destruct (same_pixel (neighbour q k0) bk) eqn:E; [now apply same_pixel_eq|].
  apply IH. exists k. split; [|exact Hk].
  destruct Hin as [<-|Hin]; [|exact Hin].
  rewrite Hk, same_pixel_refl in E. discriminate.
Qed.

Lemma ring_neighbours_touch q idx :
  0 <= idx < 8 ->
  exists k, 0 <= k < 8
    /\ neighbour q ((idx - 1 + 8) mod 8) = neighbour (neighbour q idx) k.
Proof.
  intros Hi.
  assert (C : idx = 0 \/ idx = 1 \/ idx = 2 \/ idx = 3 \/ idx = 4 \/ idx = 5
              \/ idx = 6 \/ idx = 7) by lia.
  destruct q as [qx qy]. unfold neighbour.
  repeat (destruct C as [-> | C]); try subst idx;
    match goal with
    | |- context [?a mod 8] =>
        let v := eval vm_compute in (a mod 8) in change (a mod 8) with v
    end;
    cbn [x y];
    [ exists 6 | exists 6 | exists 0 | exists 0 | exists 2 | exists 2 | exists 4 | exists 4 ];
    (split; [lia|]); offsets_by_value; f_equal; lia.
Qed.

Lemma scan_neighbours_backtrack q k :
  forall n a nextP nextB,
    isPixelOn data w (x (neighbour q ((k + Z.of_nat a) mod 8)))
      (y (neighbour q ((k + Z.of_nat a) mod 8))) threshold = false ->
    scan_neighbours data w threshold q k (map Z.of_nat (seq a n)) = Some (nextP, nextB) ->
    isPixelOn data w (x nextB) (y nextB) threshold = false
    /\ exists j, 0 <= j < 8 /\ nextB = neighbour nextP j.
Proof.
  induction n as [|n IH]; intros a nextP nextB Hoff; cbn [seq map scan_neighbours];
    [discriminate|].
  cbv zeta.
  destruct (isPixelOn data w (x (neighbour q ((k + 1 + Z.of_nat a) mod 8)))
              (y (neighbour q ((k + 1 + Z.of_nat a) mod 8))) threshold) eqn:E.
  - intros [= <- <-].
    assert (M : ((k + 1 + Z.of_nat a) mod 8 - 1 + 8) mod 8 = (k + Z.of_nat a) mod 8).
    { replace ((k + 1 + Z.of_nat a) mod 8 - 1 + 8)
        with ((k + 1 + Z.of_nat a) mod 8 + 7) by lia.
      rewrite Zplus_mod_idemp_l.
      replace (k + 1 + Z.of_nat a + 7) with (k + Z.of_nat a + 1 * 8) by lia.
      apply Z_mod_plus_full. }
    rewrite M. split; [exact Hoff|].
    rewrite <- M. apply ring_neighbours_touch. apply Z.mod_pos_bound. lia.
  - apply IH.
    replace (k + Z.of_nat (S a)) with (k + 1 + Z.of_nat a) by lia. exact E.
Qed.

Lemma moore_loop_backtrack fuel :
  forall start q bk st pts r,
    moore_loop data w h threshold fuel start q bk st pts = Some r ->
    isPixelOn data w (x bk) (y bk) threshold = false ->
    (exists j, 0 <= j < 8 /\ bk = neighbour q j) ->
    Forall (has_background_neighbour data w threshold) pts ->
    Forall (has_background_neighbour data w threshold) (points r).
Proof.
  induction fuel as [|fuel IH]; intros start q bk st pts r; cbn [moore_loop];
    [discriminate|].
  cbv zeta. intros H Hoff (j & Hj & Hbk) Hpts.
  assert (Hq : has_background_neighbour data w threshold q)
    by (exists j; split; [exact Hj | rewrite <- Hbk; exact Hoff]).
  assert (Hall : Forall (has_background_neighbour data w threshold) (pts ++ [q]))
    by (apply Forall_app; split; [exact Hpts | constructor; [exact Hq | constructor]]).
  assert (Hk : 0 <= find_startIndex q bk indices8 < 8)
    by (apply TracerFacts.find_startIndex_range, TracerFacts.indices8_range).
  assert (Hf : neighbour q (find_startIndex q bk indices8) = bk).
  { apply find_startIndex_finds. exists j. split; [|exact Hbk].
    unfold indices8. cbn [In]. lia. }
  set (k0 := find_startIndex q bk indices8) in *.
  destruct (scan_neighbours data w threshold q k0 indices8)
    as [[nextP nextB]|] eqn:E.
  - change indices8 with (map Z.of_nat (seq 0 8)) in E.
    apply scan_neighbours_backtrack in E.
    + destruct E as (Hb' & Hadj).
      destruct ((negb (x nextP =? x start) || negb (y nextP =? y start))
                && (st + 1 <? maxSteps w h)).
      * eapply IH; eassumption.
      * injection H as <-. exact Hall.
    + change (Z.of_nat 0) with 0. rewrite Z.add_0_r, Z.mod_small by exact Hk.
      rewrite Hf. exact Hoff.
  - injection H as <-. exact Hall.
Qed.

(** X4: the walk never leaves the boundary: every traced pixel has a
    background pixel, or a place outside the raster, among its eight
    neighbours. *)
Theorem traced_pixels_lie_on_the_boundary start :
  find_start data w h threshold = Some start ->
  exists pts,
    trace_points data w h threshold = Some pts
    /\ Forall (has_background_neighbour data w threshold) pts.
Proof.
  intros Hs.
  destruct (TracerFacts.moore_loop_from_start _ _ _ _ _ Hs) as (r & Hr & Ht & _).
  exists (points r). split; [exact Ht|].
  apply moore_loop_backtrack in Hr; [exact Hr | | | constructor].
  - apply (find_start_before_off start). exact Hs.
    right. cbn [x y]. split; [reflexivity | lia].
  - exists 6. split; [lia|]. unfold neighbour. offsets_by_value. f_equal; lia.
Qed.

End Pixels.

Lemma foreground_is_inside_and_grows_with_threshold_witness :
  128 <= 200
  /\ isPixelOn black_4x4 4 1 2 128 = true
  /\ isPixelOn black_4x4 4 1 2 200 = true.
Proof.
  split; [lia|]. split; [reflexivity|].
  apply (foreground_is_inside_and_grows_with_threshold black_4x4 4 1 2 128 200);
    [lia | reflexivity].
Defined.

Lemma traced_pixels_lie_on_the_boundary_witness :
  exists pts,
    trace_points raster_6x6 6 6 128 = Some pts
    /\ Forall (has_background_neighbour raster_6x6 6 128) pts.
Proof.
  apply (traced_pixels_lie_on_the_boundary raster_6x6 6 6 128 {| x := 1; y := 1 |}).
  vm_compute. reflexivity.
Defined.

Lemma traced_boundary_is_connected_foreground_witness :
  exists r,
    trace_points raster_6x6 6 6 128 = Some (points r)
    /\ chain (points r).
Proof.
  destruct (traced_boundary_is_connected_foreground raster_6x6 6 6 128 {| x := 1; y := 1 |})
    as (r & _ & H1 & _ & _ & H2 & _).
  - vm_compute. reflexivity.
  - exists r. split; assumption.
Defined.

End BoundaryFacts.

(** ** Extraction: simplification, glyph creation and the selection gestures *)

Module ExtractionFacts.
Import Js CharacterExtractor TracerSpec MoreSpec.
Local Open Scope Z_scope.

Lemma nth_pred_last (l : list Pixel) d : nth (List.length l - 1) l d = last l d.
Proof.
  induction l as [|a r IH]; [reflexivity|].
  destruct r as [|c r']; [reflexivity|].
  cbn [List.length] in *.
  replace (S (S (List.length r')) - 1)%nat with (S (List.length r')) by lia.
  change (last (a :: c :: r') d) with (last (c :: r') d).
  rewrite <- IH.
  replace (S (List.length r') - 1)%nat with (List.length r') by lia.
  reflexivity.
Qed.

Lemma simplify_step_cases pts acc i :
  simplify_step pts acc i = acc \/ simplify_step pts acc i = (acc ++ [nth i pts origin])%list.
Proof.
  unfold simplify_step. destruct (negb _); [right | left]; reflexivity.
Qed.

Lemma simplify_fold_facts pts p0 :
  forall todo acc,
    hd_error acc = Some p0 -> incl acc pts ->
    (forall i, In i todo -> (i < List.length pts)%nat) ->
    hd_error (fold_left (simplify_step pts) todo acc) = Some p0
    /\ incl (fold_left (simplify_step pts) todo acc) pts
    /\ (List.length acc <= List.length (fold_left (simplify_step pts) todo acc)
        <= List.length acc + List.length todo)%nat.
Proof.
  induction todo as [|i r IH]; intros acc Hh Hi Hr; cbn [fold_left].
  - split; [exact Hh|]. split; [exact Hi|]. cbn. lia.
  - assert (Hr' : forall j, In j r -> (j < List.length pts)%nat)
      by (intros j Hj; apply Hr; now right).
    destruct (simplify_step_cases pts acc i) as [E|E]; rewrite E.
    + destruct (IH acc Hh Hi Hr') as (H1 & H2 & H3).
      split; [exact H1|]. split; [exact H2|]. cbn [List.length]. lia.
    + destruct (IH (acc ++ [nth i pts origin])%list) as (H1 & H2 & H3).
      * destruct acc; [discriminate | exact Hh].
      * apply incl_app; [exact Hi|]. intros q [<-|[]].
        apply nth_In. apply Hr. now left.
      * exact Hr'.
      * split; [exact H1|]. split; [exact H2|].
        rewrite length_app in H3. cbn [List.length] in *. lia.
Qed.

(** X5: the collinearity-removal pass keeps the first and the last point
    of a non-empty trace, returns only points of the trace, and returns at
    least 2 and at most max(2, n) points for a trace of n points. *)
Theorem simplification_keeps_both_ends pts :
  pts <> [] ->
  hd_error (simplify pts) = hd_error pts
  /\ last (simplify pts) origin = last pts origin
  /\ incl (simplify pts) pts
  /\ (2 <= List.length (simplify pts) <= Nat.max 2 (List.length pts))%nat.
Proof.
  destruct pts as [|p0 r]; [intros C; now elim C|]. intros _.
  unfold simplify.
  destruct (simplify_fold_facts (p0 :: r) p0
              (seq 1 (List.length (p0 :: r) - 2)) [p0]) as (H1 & H2 & H3).
  - reflexivity.
  - intros q [<-|[]]. now left.
  - intros i Hi. apply in_seq in Hi. cbn [List.length] in *. lia.
  - split.
    + destruct (fold_left _ _ _); [discriminate | exact H1].
    + split; [rewrite last_last; apply nth_pred_last|].
      split.
      * apply incl_app; [exact H2|]. intros q [<-|[]].
        apply nth_In. cbn [List.length]. lia.
      * rewrite length_app, length_seq in *. cbn [List.length] in *. lia.
Qed.

Lemma simplification_keeps_both_ends_witness :
  square_outline 0 0 <> []
  /\ last (simplify (square_outline 0 0)) origin = {| x := 0; y := 1 |}.
Proof.
  assert (H : square_outline 0 0 <> []) by discriminate.
  split; [exact H|].
  destruct (simplification_keeps_both_ends (square_outline 0 0) H) as (_ & E & _).
  rewrite E. reflexivity.
Defined.

(** X6: simplification depends on differences of coordinates only: moving
    every point of the trace by the same offset moves every point of the
    result by that offset. *)
Theorem simplification_commutes_with_translation dx dy pts :
  simplify (map (shift dx dy) pts) = map (shift dx dy) (simplify pts).
Proof. apply TracerFacts.simplify_shift. Qed.

(** *** From the selection to the glyph *)

Lemma isolated_start_trace data w h threshold start :
  find_start data w h threshold = Some start ->
  (forall j, 0 <= j < 8 ->
     isPixelOn data w (x (neighbour start j)) (y (neighbour start j)) threshold = false) ->
  trace_points data w h threshold = Some [start].
Proof.
  intros Hs Hoff. unfold trace_points. rewrite Hs. unfold trace_fuel.
  cbn [moore_loop].
  assert (E : forall k todo, scan_neighbours data w threshold start k todo = None).
  { intros k todo. induction todo as [|i r IH]; [reflexivity|].
    cbn [scan_neighbours]. cbv zeta.
    rewrite Hoff by (apply Z.mod_pos_bound; lia). exact IH. }
  rewrite E. reflexivity.
Qed.

(** X7: when the first foreground pixel of the selection in row-major
    order has no foreground neighbour, the trace is that single pixel and
    no glyph is created, whatever else the selection holds: the callback
    is not invoked and the state is unchanged. *)
Theorem isolated_first_pixel_creates_no_glyph page now1 now2 s w h data start :
  canvas_of page s = Some (w, h, data) ->
  find_start data w h (threshold s) = Some start ->
  (forall j, 0 <= j < 8 ->
     isPixelOn data w (x (neighbour start j)) (y (neighbour start j)) (threshold s)
     = false) ->
  trace_points data w h (threshold s) = Some [start]
  /\ vectoriseSelection page now1 now2 s = Some (None, s).
Proof.
  intros Hc Hs Hoff.
  pose proof (isolated_start_trace _ _ _ _ _ Hs Hoff) as Ht.
  split; [exact Ht|].
  unfold vectoriseSelection. rewrite Hc, Ht. reflexivity.
Qed.

Lemma isolated_first_pixel_creates_no_glyph_witness :
  isPixelOn speck_5x5 5 2 2 128 = true
  /\ vectoriseSelection (example_page speck_5x5) 1 2 example_selection
     = Some (None, example_selection).
Proof.
  split; [reflexivity|].
  apply (isolated_first_pixel_creates_no_glyph
           (example_page speck_5x5) 1 2 example_selection 5 5 speck_5x5
           {| x := 0; y := 0 |}).
  - reflexivity.
  - vm_compute. reflexivity.
  - intros j Hj.
    assert (C : j = 0 \/ j = 1 \/ j = 2 \/ j = 3 \/ j = 4 \/ j = 5 \/ j = 6 \/ j = 7) by lia.
    repeat (destruct C as [-> | C]); try subst j; vm_compute; reflexivity.
Defined.

Lemma small_selection_guard page now1 now2 s sel :
  selection s = Some sel ->
  (box_width sel < 5 \/ box_height sel < 5)%Q ->
  vectoriseSelection page now1 now2 s = Some (None, s).
Proof.
  intros Hsel Hsmall. apply TracerFacts.canvas_guard_creates_no_glyph.
  unfold canvas_of. rewrite Hsel.
  assert (E : negb (Qle_bool 5 (box_width sel)) || negb (Qle_bool 5 (box_height sel)) = true).
  { apply orb_true_iff.
    destruct Hsmall as [H|H]; [left | right]; apply negb_true_iff;
      (destruct (Qle_bool 5 _) eqn:F; [apply Qle_bool_iff in F; lra | reflexivity]). }
  destruct (negb (container page)); cbn [orb]; [reflexivity|].
  rewrite E. reflexivity.
Qed.

(** X8: a selection that is narrower or lower than 5 units creates no
    glyph: the callback is not invoked and the state is unchanged.  A
    press that is released without a move always leaves such a selection,
    so a plain click never creates a glyph. *)
Theorem small_selection_creates_no_glyph page now1 now2 s sel :
  selection s = Some sel ->
  (box_width sel < 5 \/ box_height sel < 5)%Q ->
  vectoriseSelection page now1 now2 s = Some (None, s)
  /\ (forall client rect s0,
        let clicked := handleMouseUp (handleMouseDown false client (Some rect) s0) in
        vectoriseSelection page now1 now2 clicked = Some (None, clicked)).
Proof.
  intros Hsel Hsmall. split; [now apply (small_selection_guard _ _ _ _ sel)|].
  intros client [rl rt] s0. cbv zeta.
  eapply small_selection_guard.
  - unfold handleMouseUp, handleMouseDown, toModel. cbn [fst snd].
    cbn [selection set_gesture set_selection]. reflexivity.
  - left. cbn [box_width]. reflexivity.
Qed.

Lemma small_selection_creates_no_glyph_witness :
  let s := handleMouseMove (33, 70)%Q (Some (10, 10)%Q)
             (handleMouseDown false (30, 40)%Q (Some (10, 10)%Q) initial_state) in
  vectoriseSelection (example_page black_4x4) 1 2 s = Some (None, s).
Proof.
  cbv zeta.
  apply (small_selection_creates_no_glyph (example_page black_4x4) 1 2 _
           {| box_x := Qmin ((30 - 10 - 0) / 1) ((33 - 10 - 0) / 1);
              box_y := Qmin ((40 - 10 - 0) / 1) ((70 - 10 - 0) / 1);
              box_width := Qabs ((33 - 10 - 0) / 1 - (30 - 10 - 0) / 1);
              box_height := Qabs ((70 - 10 - 0) / 1 - (40 - 10 - 0) / 1) |}).
  - reflexivity.
  - left. reflexivity.
Defined.

(** X9: when a glyph is created, its path reads back in the editor as
    exactly the simplified trace of the selected pixels (one corner point
    per pixel, in order, nothing added or lost), its size is the size of
    the canvas, and the only change of the state is that the selection is
    cleared. *)
Theorem created_glyph_reads_back_as_the_trace page now1 now2 s s' glyph :
  vectoriseSelection page now1 now2 s = Some (Some glyph, s') ->
  exists w h data pts,
    canvas_of page s = Some (w, h, data)
    /\ trace_points data w h (threshold s) = Some pts
    /\ (2 < List.length (simplify pts))%nat
    /\ GlyphEditor.parsePath (svgPath glyph) = map EditorSpec.pixel_point (simplify pts)
    /\ glyph_width glyph = w /\ glyph_height glyph = h
    /\ glyph_id glyph = Z_to_string now1
    /\ s' = set_selection None s.
Proof.
  unfold vectoriseSelection.
  destruct (canvas_of page s) as [[[w h] data]|] eqn:Hc; [|discriminate].
  destruct (trace_points data w h (threshold s)) as [pts|] eqn:Hp; [|discriminate].
  cbv zeta. rewrite TracerFacts.path_of_empty.
  destruct (Nat.ltb_spec 2 (List.length (simplify pts))) as [Hl|Hl];
    cbn [negb]; [|discriminate].
  intros [= <- <-]. exists w, h, data, pts. cbn [svgPath glyph_width glyph_height glyph_id].
  repeat (split; [first [reflexivity | assumption]|]).
  split; [|repeat split].
  now apply PathFacts.extractor_path_round_trip.
Qed.

Lemma created_glyph_reads_back_as_the_trace_witness :
  exists glyph,
    vectoriseSelection (example_page (paint_square 5 5 1 1)) 1 2 example_selection
    = Some (Some glyph, set_selection None example_selection)
    /\ List.length (GlyphEditor.parsePath (svgPath glyph)) = 5%nat.
Proof.
  assert (E : exists glyph,
             vectoriseSelection (example_page (paint_square 5 5 1 1)) 1 2
               example_selection
             = Some (Some glyph, set_selection None example_selection)).
  { eexists. vm_compute. reflexivity. }
  destruct E as [glyph E]. exists glyph. split; [exact E|].
  destruct (created_glyph_reads_back_as_the_trace _ _ _ _ _ _ E)
    as (w & h & data & pts & Hc & Hp & _ & Hr & _).
  rewrite Hr, length_map.
  injection Hc as <- <- <-.
  vm_compute in Hp. injection Hp as <-. reflexivity.
Defined.

(** *** Selection and pan gestures *)

Ltac gesture_simpl :=
  cbn [selection set_selection set_gesture set_transform isPanning isDragging
       startPos transform threshold fst snd
       box_x box_y box_width box_height tx ty scale].

(** X10: outside a pan and at a positive scale, a press followed by a move
    selects the rectangle spanned, in image coordinates, by the point of
    the press and the point under the pointer: its corner is the smaller
    coordinate of the two points in each direction, its size the absolute
    difference, never negative, and the rectangle is the same whichever of
    the two points was pressed and whichever was moved to. *)
Theorem drag_selects_the_spanned_rectangle client0 client1 rect s :
  isPanning s = false ->
  (0 < scale (transform s))%Q ->
  let t := transform s in
  let p0 := toModel t (fst client0 - fst rect, snd client0 - snd rect)%Q in
  let p1 := toModel t (fst client1 - fst rect, snd client1 - snd rect)%Q in
  exists sel back,
    selection (handleMouseMove client1 (Some rect)
                 (handleMouseDown false client0 (Some rect) s)) = Some sel
    /\ selection (handleMouseMove client0 (Some rect)
                    (handleMouseDown false client1 (Some rect) s)) = Some back
    /\ box_x sel = Qmin (fst p0) (fst p1)
    /\ box_y sel = Qmin (snd p0) (snd p1)
    /\ box_width sel = Qabs (fst p1 - fst p0)
    /\ box_height sel = Qabs (snd p1 - snd p0)
    /\ (box_x sel <= fst p0 /\ box_x sel <= fst p1
        /\ box_y sel <= snd p0 /\ box_y sel <= snd p1
        /\ 0 <= box_width sel /\ 0 <= box_height sel
        /\ box_x back == box_x sel /\ box_y back == box_y sel
        /\ box_width back == box_width sel /\ box_height back == box_height sel)%Q.
Proof.
  intros Hp _. destruct rect as [rl rt]. destruct client0 as [c0x c0y].
  destruct client1 as [c1x c1y]. cbv zeta.
  unfold handleMouseDown, handleMouseMove, toModel. gesture_simpl.
  rewrite Hp. gesture_simpl.
  do 2 eexists. split; [reflexivity|]. split; [reflexivity|]. gesture_simpl.
  repeat (split; [reflexivity|]).
  split; [apply Q.le_min_l|]. split; [apply Q.le_min_r|].
  split; [apply Q.le_min_l|]. split; [apply Q.le_min_r|].
  split; [apply Qabs_nonneg|]. split; [apply Qabs_nonneg|].
  split; [apply Q.min_comm|]. split; [apply Q.min_comm|].
  split; rewrite Qabs_Qminus; reflexivity.
Qed.

Lemma drag_selects_the_spanned_rectangle_witness :
  exists sel,
    selection (handleMouseMove (20, 15)%Q (Some (10, 10)%Q)
                 (handleMouseDown false (30, 40)%Q (Some (10, 10)%Q) initial_state))
    = Some sel
    /\ (box_x sel == 10 /\ box_width sel == 10)%Q.
Proof.
  destruct (drag_selects_the_spanned_rectangle (30, 40)%Q (20, 15)%Q (10, 10)%Q
              initial_state) as (sel & back & E & _ & H1 & _ & H3 & _).
  - reflexivity.
  - reflexivity.
  - exists sel. split; [exact E|].
    rewrite H1, H3. split; reflexivity.
Defined.

End ExtractionFacts.

(** ** Editor: smoothing, decimation, gestures and the parser's count *)

Module EditingFacts.
Import Js GlyphEditor EditorSpec MoreSpec.
Local Open Scope nat_scope.

Section Lists.
Context {A : Type}.

Lemma fold_left_flat_map {B} (f : B -> list A) (l : list B) :
  forall acc, fold_left (fun a i => a ++ f i) l acc = acc ++ flat_map f l.
Proof.
  induction l as [|b r IH]; intros acc; cbn [fold_left flat_map].
  - now rewrite app_nil_r.
  - rewrite IH, app_assoc. reflexivity.
Qed.

Lemma nth_flat_map_pair (g h : nat -> A) (d : A) :
  forall n a i,
    i < n ->
    nth (2 * i) (flat_map (fun j => [g j; h j]) (seq a n)) d = g (a + i)
    /\ nth (2 * i + 1) (flat_map (fun j => [g j; h j]) (seq a n)) d = h (a + i).
Proof.
  induction n as [|n IH]; intros a i Hi; [lia|].
  cbn [seq flat_map app].
  destruct i as [|i].
  - cbn [Nat.mul Nat.add nth]. rewrite Nat.add_0_r. split; reflexivity.
  - replace (2 * S i) with (S (S (2 * i))) by lia.
    replace (S (S (2 * i)) + 1) with (S (S (2 * i + 1))) by lia.
    cbn [nth]. replace (a + S i) with (S a + i) by lia.
    apply IH. lia.
Qed.

Lemma filter_index_even_nth (d : A) :
  forall (l : list A) k i,
    (k mod 2 = 0 ->
     nth i (filter_index (fun _ j => j mod 2 =? 0) k l) d = nth (2 * i) l d)
    /\ (k mod 2 = 1 ->
        nth i (filter_index (fun _ j => j mod 2 =? 0) k l) d = nth (2 * i + 1) l d).
Proof.
  induction l as [|a r IH]; intros k i.
  - cbn [filter_index]. split; intros _.
    + destruct i; destruct (2 * _); reflexivity.
    + destruct i; destruct (2 * _ + 1); reflexivity.
  - cbn [filter_index].
    destruct (EditorFacts.mod2_cases k) as [[E1 E2]|[E1 E2]]; rewrite E1.
    + split; [intros _ | discriminate]. cbn [Nat.eqb].
      destruct i as [|i]; [reflexivity|].
      replace (2 * S i) with (S (2 * i + 1)) by lia. cbn [nth].
      apply (IH (S k) i). exact E2.
    + split; [discriminate | intros _]. cbn [Nat.eqb].
      replace (2 * i + 1) with (S (2 * i)) by lia. cbn [nth].
      apply (IH (S k) i). exact E2.
Qed.

Lemma last_cons (c : A) (r : list A) (d : A) : last (c :: r) d = last r c.
Proof.
  revert c. induction r as [|b r IH]; intros c; [reflexivity|].
  change (last (c :: b :: r) d) with (last (b :: r) d).
  rewrite (IH b). destruct r as [|e r']; [reflexivity|].
  change (last (b :: e :: r') c) with (last (e :: r') c).
  change (last (b :: e :: r') d) with (last (e :: r') d) in IH.
  clear IH. revert e. induction r' as [|u r' IH']; intros e; [reflexivity|].
  change (last (e :: u :: r') b) with (last (u :: r') b).
  change (last (e :: u :: r') c) with (last (u :: r') c).
  apply IH'.
Qed.

End Lists.

(** *** [smoothPoints] and [handleSimplify] *)

Lemma smoothPoints_nth pts i d :
  3 <= List.length pts -> i < List.length pts ->
  let c := nth i pts d in
  let n := nth ((i + 1) mod List.length pts) pts d in
  nth (2 * i) (smoothPoints pts) d
  = {| x := quarter (x c) (x n); y := quarter (y c) (y n); type := corner |}
  /\ nth (2 * i + 1) (smoothPoints pts) d
     = {| x := three_quarters (x c) (x n); y := three_quarters (y c) (y n);
          type := corner |}.
Proof.
  intros H3 Hi. cbv zeta. unfold smoothPoints.
  destruct (Nat.ltb_spec (List.length pts) 3) as [C|_]; [lia|].
  destruct pts as [|p0 r]; [cbn in H3; lia|].
  set (pts := p0 :: r) in *.
  rewrite (fold_left_flat_map
             (fun j =>
                [ {| x := quarter (x (nth j pts p0))
                            (x (nth ((j + 1) mod List.length pts) pts p0));
                     y := quarter (y (nth j pts p0))
                            (y (nth ((j + 1) mod List.length pts) pts p0));
                     type := corner |};
                  {| x := three_quarters (x (nth j pts p0))
                            (x (nth ((j + 1) mod List.length pts) pts p0));
                     y := three_quarters (y (nth j pts p0))
                            (y (nth ((j + 1) mod List.length pts) pts p0));
                     type := corner |} ])).
  cbn [app].
  assert (Hm : (i + 1) mod List.length pts < List.length pts)
    by (apply Nat.mod_upper_bound; lia).
  rewrite (nth_indep pts d p0 Hi), (nth_indep pts d p0 Hm).
  apply (nth_flat_map_pair
           (fun j => {| x := quarter (x (nth j pts p0))
                            (x (nth ((j + 1) mod List.length pts) pts p0));
                        y := quarter (y (nth j pts p0))
                            (y (nth ((j + 1) mod List.length pts) pts p0));
                        type := corner |})
           (fun j => {| x := three_quarters (x (nth j pts p0))
                            (x (nth ((j + 1) mod List.length pts) pts p0));
                        y := three_quarters (y (nth j pts p0))
                            (y (nth ((j + 1) mod List.length pts) pts p0));
                        type := corner |})
           d (List.length pts) 0 i Hi).
Qed.

(** X14: smoothing a polygon of n >= 3 points returns 2n corner points:
    for every edge, from a point to its successor (cyclically), the point
    at a quarter and the point at three quarters of the edge, in order. *)
Theorem smoothing_cuts_every_corner pts i d :
  3 <= List.length pts -> i < List.length pts ->
  let c := nth i pts d in
  let n := nth ((i + 1) mod List.length pts) pts d in
  List.length (smoothPoints pts) = 2 * List.length pts
  /\ nth (2 * i) (smoothPoints pts) d
     = {| x := quarter (x c) (x n); y := quarter (y c) (y n); type := corner |}
  /\ nth (2 * i + 1) (smoothPoints pts) d
     = {| x := three_quarters (x c) (x n); y := three_quarters (y c) (y n);
          type := corner |}.
Proof.
  intros H3 Hi. cbv zeta. split.
  - rewrite EditorFacts.smoothPoints_length.
    destruct (Nat.ltb_spec (List.length pts) 3); [lia | reflexivity].
  - now apply smoothPoints_nth.
Qed.

Lemma smoothing_cuts_every_corner_witness :
  List.length (smoothPoints square4) = 8
  /\ type (nth 7 (smoothPoints square4) (pt 0 0)) = corner.
Proof.
  destruct (smoothing_cuts_every_corner square4 3 (pt 0 0)) as (H1 & _ & H2);
    [cbn; lia | cbn; lia |].
  split; [exact H1|].
  change 7 with (2 * 3 + 1). rewrite H2. reflexivity.
Defined.

Lemma decimated_nth (pts : list Point) i d :
  nth i (filter_index (fun (_ : Point) j => j mod 2 =? 0) 0 pts) d = nth (2 * i) pts d.
Proof. now apply filter_index_even_nth. Qed.

(** X15: on more than 6 points the editor's simplify action keeps the
    points at the even positions, in order (point i of the result is point
    2i), that is ceil(n/2) points, and leaves the view alone. *)
Theorem editor_simplify_keeps_every_second_point s :
  6 < List.length (points s) ->
  List.length (points (handleSimplify s)) = (List.length (points s) + 1) / 2
  /\ (forall i d, nth i (points (handleSimplify s)) d = nth (2 * i) (points s) d)
  /\ transform (handleSimplify s) = transform s.
Proof.
  intros H. unfold handleSimplify. cbv zeta.
  destruct (Nat.ltb_spec 6 (List.length (points s))) as [_|C]; [|lia].
  cbn [points set_points saveHistory set_history transform].
  split; [|split].
  - rewrite EditorFacts.filter_index_even_length.
    change (0 mod 2) with 0. now rewrite Nat.sub_0_r.
  - intros i d. apply decimated_nth.
  - reflexivity.
Qed.

Lemma editor_simplify_keeps_every_second_point_witness :
  List.length (points (handleSimplify (set_points (smoothPoints square4) initial_state)))
  = 4.
Proof.
  destruct (editor_simplify_keeps_every_second_point
              (set_points (smoothPoints square4) initial_state)) as (H & _).
  - cbn. lia.
  - rewrite H. reflexivity.
Defined.

(** X16: smoothing and then simplifying a polygon of n >= 4 points does
    not give the polygon back: the result has n points again, and point i
    is the point a quarter of the way from the old point i to its
    successor. *)
Theorem smooth_then_simplify_shifts_every_point s i d :
  4 <= List.length (points s) -> i < List.length (points s) ->
  let s' := handleSimplify (handleSmooth s) in
  let c := nth i (points s) d in
  let n := nth ((i + 1) mod List.length (points s)) (points s) d in
  List.length (points s') = List.length (points s)
  /\ nth i (points s') d
     = {| x := quarter (x c) (x n); y := quarter (y c) (y n); type := corner |}.
Proof.
  intros H4 Hi. cbv zeta.
  assert (Hs : points (handleSmooth s) = smoothPoints (points s)) by reflexivity.
  assert (Hl : List.length (smoothPoints (points s)) = 2 * List.length (points s)).
  { rewrite EditorFacts.smoothPoints_length.
    destruct (Nat.ltb_spec (List.length (points s)) 3); [lia | reflexivity]. }
  unfold handleSimplify. cbv zeta. rewrite Hs, Hl.
  destruct (Nat.ltb_spec 6 (2 * List.length (points s))) as [_|C]; [|lia].
  cbn [points set_points]. 
  change (points (saveHistory (handleSmooth s))) with (points (handleSmooth s)).
  rewrite Hs. split.
  - rewrite EditorFacts.filter_index_even_length, Hl.
    change (0 mod 2) with 0.
    replace (2 * List.length (points s) + 1 - 0) with (1 + List.length (points s) * 2) by lia.
    rewrite Nat.div_add by lia. reflexivity.
  - rewrite decimated_nth. apply smoothPoints_nth; lia.
Qed.

Lemma smooth_then_simplify_shifts_every_point_witness :
  List.length (points (handleSimplify (handleSmooth example_state))) = 4
  /\ type (nth 3 (points (handleSimplify (handleSmooth example_state))) (pt 0 0))
     = corner.
Proof.
  destruct (smooth_then_simplify_shifts_every_point example_state 3 (pt 0 0))
    as (H1 & H2); [cbn; lia | cbn; lia |].
  split; [exact H1|]. rewrite H2. reflexivity.
Defined.

(** *** Gestures *)

Lemma write_xy_nth_other i lx ly :
  forall pts j d, j <> i -> nth j (write_xy i lx ly pts) d = nth j pts d.
Proof.
  revert i. intros i pts. revert i.
  induction pts as [|q r IH]; intros i j d Hj; [destruct i; reflexivity|].
  destruct i as [|i]; cbn [write_xy].
  - destruct j as [|j]; [lia | reflexivity].
  - destruct j as [|j]; [reflexivity|]. cbn [nth]. apply IH. lia.
Qed.

Lemma write_xy_nth_same lx ly :
  forall pts i d,
    i < List.length pts ->
    nth i (write_xy i lx ly pts) d
    = {| x := Num lx; y := Num ly; type := type (nth i pts d) |}.
Proof.
  induction pts as [|q r IH]; intros i d Hi; [cbn in Hi; lia|].
  destruct i as [|i]; cbn [write_xy nth]; [reflexivity|].
  apply IH. cbn in Hi. lia.
Qed.

Lemma write_xy_type lx ly :
  forall pts i d, type (nth i (write_xy i lx ly pts) d) = type (nth i pts d).
Proof.
  induction pts as [|q r IH]; intros i d; [destruct i; reflexivity|].
  destruct i as [|i]; cbn [write_xy nth]; [reflexivity | apply IH].
Qed.

Lemma drag_fold_facts idx (ms : list ((Q * Q) * (Q * Q))) :
  forall pts,
    let dragged :=
      fold_left (fun acc m => write_xy idx (fst (snd m)) (snd (snd m)) acc) ms pts in
    List.length dragged = List.length pts
    /\ (forall j d, j <> idx -> nth j dragged d = nth j pts d)
    /\ (forall d, type (nth idx dragged d) = type (nth idx pts d)).
Proof.
  induction ms as [|m r IH]; intros pts; cbn [fold_left]; cbv zeta.
  - repeat split.
  - destruct (IH (write_xy idx (fst (snd m)) (snd (snd m)) pts)) as (H1 & H2 & H3).
    split; [rewrite H1; apply EditorFacts.write_xy_length|].
    split.
    + intros j d Hj. rewrite H2 by exact Hj. now apply write_xy_nth_other.
    + intros d. rewrite H3. apply write_xy_type.
Qed.

Lemma drag_moves_state idx :
  forall moves s,
    isPanning s = false -> dragIdx s = Some idx -> idx < List.length (points s) ->
    exists s',
      mouse_moves moves s = Some s'
      /\ points s'
         = fold_left (fun acc m => write_xy idx (fst (snd m)) (snd (snd m)) acc)
             moves (points s)
      /\ history s' = history s /\ transform s' = transform s
      /\ isPanning s' = false /\ dragIdx s' = Some idx.
Proof.
  induction moves as [|[client [lx ly]] r IH]; intros s Hp Hd Hi; cbn [mouse_moves].
  - exists s. repeat split; assumption.
  - unfold handleMouseMove. rewrite Hp, Hd.
    destruct (Nat.ltb_spec idx (List.length (points s))) as [_|C]; [|lia].
    destruct (IH (set_points (write_xy idx lx ly (points s)) s)) as (s' & E & H1 & H2 & H3 & H4 & H5).
    + exact Hp.
    + exact Hd.
    + cbn [points set_points]. now rewrite EditorFacts.write_xy_length.
    + exists s'. split; [exact E|]. split; [exact H1|].
      repeat split; assumption.
Qed.

(** X17: dragging a node of an idle editor moves that node only: whatever
    the path of the pointer, the node ends at the last pointer position and
    keeps its type, every other node and the number of nodes are unchanged,
    the view is unchanged, and the whole gesture costs one history entry
    (the points before the press). *)
Theorem dragging_moves_only_the_pressed_node idx ms client loc s :
  idle s -> idx < List.length (points s) ->
  exists s',
    perform (DragNode idx (ms ++ [(client, loc)])) s = Some s'
    /\ List.length (points s') = List.length (points s)
    /\ (forall d, nth idx (points s') d
                  = {| x := Num (fst loc); y := Num (snd loc);
                       type := type (nth idx (points s) d) |})
    /\ (forall j d, j <> idx -> nth j (points s') d = nth j (points s) d)
    /\ history s' = slice_last 10 (history s) ++ [copy_points (points s)]
    /\ transform s' = transform s
    /\ idle s'.
Proof.
  intros (Hd & Hp) Hi. cbn [perform].
  destruct (drag_moves_state idx (ms ++ [(client, loc)]) (handleNodeMouseDown idx s))
    as (s1 & E & H1 & H2 & H3 & H4 & H5); [exact Hp | reflexivity | exact Hi |].
  rewrite E. cbn [option_map]. eexists. split; [reflexivity|].
  cbn [handleMouseUp set_isPanning set_dragIdx points history transform].
  rewrite H1, H2, H3, fold_left_app. cbn [fold_left fst snd].
  change (points (handleNodeMouseDown idx s)) with (points s).
  destruct (drag_fold_facts idx ms (points s)) as (F1 & F2 & F3). cbv zeta in F1, F2, F3.
  split; [rewrite EditorFacts.write_xy_length; exact F1|].
  split.
  { intros d. rewrite write_xy_nth_same by (rewrite F1; exact Hi).
    now rewrite F3. }
  split.
  { intros j d Hj. rewrite write_xy_nth_other by exact Hj. now apply F2. }
  repeat split.
Qed.

Lemma dragging_moves_only_the_pressed_node_witness :
  exists s',
    perform (DragNode 2 ([] ++ [((100, 80), (7, 5))%Q])) example_state = Some s'
    /\ List.length (points s') = 4.
Proof.
  destruct (dragging_moves_only_the_pressed_node 2 [] (100, 80)%Q (7, 5)%Q example_state)
    as (s' & E & H & _).
  - split; reflexivity.
  - cbn. lia.
  - exists s'. split; [exact E | exact H].
Defined.

Lemma pan_moves_state :
  forall (moves : list (Q * Q)) s,
    isPanning s = true ->
    exists s',
      mouse_moves (map (fun c => (c, c)) moves) s = Some s'
      /\ k (transform s') = k (transform s)
      /\ points s' = points s /\ history s' = history s
      /\ dragIdx s' = dragIdx s.
Proof.
  induction moves as [|c r IH]; intros s Hp; cbn [map mouse_moves].
  - exists s. repeat split.
  - unfold handleMouseMove. rewrite Hp.
    set (s1 := set_lastMousePos c _).
    destruct (IH s1) as (s' & E & H3 & H4 & H5 & H6); [exact Hp|].
    exists s'. split; [exact E|].
    subst s1. cbn [transform set_lastMousePos set_transform tx ty k lastMousePos
                   points history dragIdx] in *.
    repeat split; assumption.
Qed.

Lemma canvas_pan_state start moves s :
  exists s',
    perform (PanCanvas start moves) s = Some s'
    /\ k (transform s') = k (transform s)
    /\ points s' = points s /\ history s' = history s
    /\ idle s'.
Proof.
  cbn [perform].
  destruct (pan_moves_state moves (handleCanvasMouseDown start s))
    as (s1 & E & H3 & H4 & H5 & _); [reflexivity|].
  rewrite E. cbn [option_map]. eexists. split; [reflexivity|].
  cbn [handleMouseUp set_isPanning set_dragIdx points history transform].
  cbn [handleCanvasMouseDown set_lastMousePos set_isPanning lastMousePos transform
       points history] in H3, H4, H5.
  split; [exact H3|].
  split; [exact H4|]. split; [exact H5|]. split; reflexivity.
Qed.

(** X19: from an idle editor every action ends in an idle editor, the
    view actions (zoom buttons, wheel, fit, pan) leave the points and the
    history alone, and all other actions (drag, delete, smooth, simplify,
    undo) leave the view alone. *)
Theorem view_and_path_actions_are_independent a s s' :
  idle s -> perform a s = Some s' ->
  idle s'
  /\ match a with
     | PanCanvas _ _ | ZoomButton _ | FitScreen _ _ | WheelZoom _ _ _ =>
         points s' = points s /\ history s' = history s
     | _ => transform s' = transform s
     end.
Proof.
  intros (Hd & Hp) H. destruct a as [idx moves| idx | | | |start moves|f|g svg|dy c rect];
    cbn [perform] in H.
  - destruct (mouse_moves moves (handleNodeMouseDown idx s)) as [s1|] eqn:E;
      [|discriminate].
    cbn in H. injection H as <-. split; [split; reflexivity|].
    cbn [handleMouseUp set_isPanning set_dragIdx transform].
    assert (G : forall l u u', isPanning u = false -> mouse_moves l u = Some u' ->
                  transform u' = transform u).
    { clear. induction l as [|[c [lx ly]] r IH]; intros u u' Hu; cbn [mouse_moves].
      - now intros [= <-].
      - unfold handleMouseMove. rewrite Hu.
        destruct (dragIdx u) as [i|].
        + destruct (i <? List.length (points u)); [|discriminate].
          intros E. apply IH in E; [exact E | exact Hu].
        + intros E. apply IH in E; [exact E | exact Hu]. }
    apply G in E; [exact E | exact Hp].
  - injection H as <-. unfold handleDoubleClickNode, idle. cbv zeta.
    destruct (3 <? _); repeat split; assumption.
  - injection H as <-. repeat split; assumption.
  - injection H as <-. unfold handleSimplify, idle. cbv zeta.
    destruct (6 <? _); repeat split; assumption.
  - injection H as <-. unfold handleUndo, idle.
    destruct (history s); repeat split; assumption.
  - destruct (canvas_pan_state start moves s) as (s1 & E & _ & H1 & H2 & H3).
    cbn [perform] in E. rewrite E in H. injection H as <-.
    split; [exact H3|]. split; assumption.
  - injection H as <-. repeat split; assumption.
  - injection H as <-. unfold idle.
    destruct svg as [[cw ch]|]; repeat split; assumption.
  - injection H as <-. unfold idle.
    destruct rect as [[rl rt]|]; repeat split; assumption.
Qed.

Lemma view_and_path_actions_are_independent_witness :
  exists s',
    perform (DragNode 2 [((100, 80), (7, 5))%Q]) example_state = Some s'
    /\ transform s' = transform example_state.
Proof.
  assert (E : exists s', perform (DragNode 2 [((100, 80), (7, 5))%Q]) example_state
                         = Some s') by (eexists; reflexivity).
  destruct E as [s' E]. exists s'. split; [exact E|].
  destruct (view_and_path_actions_are_independent _ example_state s'
              (conj eq_refl eq_refl) E) as (_ & H).
  exact H.
Defined.

(** *** The parser's count *)

Lemma not_letter_not_command c :
  is_letter c = false -> Ascii.eqb c "M" || Ascii.eqb c "L" = false.
Proof.
  intros H. destruct (Ascii.eqb c "M" || Ascii.eqb c "L") eqn:E; [|reflexivity].
  apply PathFacts.command_letter in E. congruence.
Qed.

Lemma parse_command_count c args :
  List.length (parse_command (String c args))
  = if Ascii.eqb c "M" || Ascii.eqb c "L" then 1 else 0.
Proof.
  unfold parse_command. destruct (Ascii.eqb c "M" || Ascii.eqb c "L"); reflexivity.
Qed.

Lemma scan_commands_count d :
  count_ML (fst (scan_commands d)) = 0
  /\ List.length (flat_map parse_command (snd (scan_commands d))) = count_ML d.
Proof.
  induction d as [|c r (IH1 & IH2)]; [split; reflexivity|].
  cbn [scan_commands]. destruct (scan_commands r) as [run cmds].
  cbn [fst snd] in *.
  destruct (is_letter c) eqn:E; cbn [fst snd flat_map count_ML].
  - split; [reflexivity|].
    rewrite length_app, parse_command_count, IH2. reflexivity.
  - rewrite (not_letter_not_command c E). cbn [Nat.add].
    split; [exact IH1 | exact IH2].
Qed.

(** X20: the parser returns exactly one point for every [M] and every
    [L] character of its input, whatever else the input holds: other
    letters (lower-case [m] and [l] included) and text before the first
    letter contribute nothing, and missing coordinates do not drop the
    point. *)
Theorem parsePath_returns_one_point_per_M_or_L d :
  List.length (parsePath d) = count_ML d.
Proof.
  rewrite PathFacts.parsePath_flat_map. unfold match_commands.
  apply scan_commands_count.
Qed.

End EditingFacts.

(** ** The application shell: image history, glyph collection, prompt *)

Module AppFacts.
Import Js App MoreSpec.
Local Open Scope nat_scope.
Local Open Scope list_scope.

Lemma edit_success img s :
  no_image s = false ->
  exists img0,
    currentImage s = Some img0
    /\ currentImage (handleEditImage (Some img) s) = Some img
    /\ history (handleEditImage (Some img) s) = history s ++ [img0]
    /\ glyphs (handleEditImage (Some img) s) = glyphs s.
Proof.
  intros H. unfold handleEditImage. rewrite H.
  unfold no_image in H. unfold handleEditImage_before.
  destruct (currentImage s) as [img0|] eqn:E; [|discriminate].
  rewrite H. exists img0. repeat split.
Qed.

Lemma edits_state :
  forall images s,
    no_image s = false -> forallb nonempty images = true ->
    exists img0,
      currentImage s = Some img0
      /\ currentImage (edits images s) = Some (last images img0)
      /\ history (edits images s) = history s ++ removelast (img0 :: images)
      /\ glyphs (edits images s) = glyphs s.
Proof.
  induction images as [|img r IH]; intros s Hs Hall.
  - unfold no_image in Hs. destruct (currentImage s) as [img0|] eqn:E; [|discriminate].
    exists img0. cbn. rewrite app_nil_r. repeat split. exact E.
  - cbn [forallb] in Hall. apply andb_true_iff in Hall as [Hi Hr].
    destruct (edit_success img s Hs) as (img0 & E0 & E1 & E2 & E3).
    destruct (IH (handleEditImage (Some img) s)) as (img1 & F0 & F1 & F2 & F3).
    + unfold no_image. rewrite E1. unfold nonempty in Hi.
      now apply negb_true_iff in Hi.
    + exact Hr.
    + rewrite E1 in F0. injection F0 as <-.
      exists img0. split; [exact E0|]. cbn [edits].
      split; [rewrite F1; f_equal; symmetry; apply EditingFacts.last_cons|].
      split; [|congruence].
      rewrite F2, E2, <- app_assoc. reflexivity.
Qed.

Lemma undos_pop :
  forall (extra : list string) h s,
    history s = h ++ extra -> extra <> [] ->
    currentImage (undos (List.length extra) s) = Some (hd EmptyString extra)
    /\ history (undos (List.length extra) s) = h
    /\ glyphs (undos (List.length extra) s) = glyphs s.
Proof.
  induction extra as [|z e IH] using rev_ind; intros h s Hh Hne; [now elim Hne|].
  rewrite length_app, Nat.add_comm. cbn [List.length Nat.add].
  unfold undos. rewrite Nat.iter_succ_r. fold (undos (List.length e) (handleUndo s)).
  assert (U : currentImage (handleUndo s) = Some z
              /\ history (handleUndo s) = h ++ e
              /\ glyphs (handleUndo s) = glyphs s).
  { unfold handleUndo. rewrite Hh, app_assoc.
    destruct ((h ++ e) ++ [z]) as [|h0 t] eqn:E; [now destruct (h ++ e)|].
    cbn [currentImage history glyphs]. rewrite <- E.
    rewrite last_last. unfold slice_init. rewrite removelast_last.
    repeat split. }
  destruct U as (U1 & U2 & U3).
  destruct e as [|e0 e'].
  - cbn. rewrite app_nil_r in U2. repeat split; assumption.
  - destruct (IH h (handleUndo s) U2) as (I1 & I2 & I3); [discriminate|].
    split; [exact I1|]. split; [exact I2|]. congruence.
Qed.

(** X22: any number of successful image edits followed by as many undos
    gives back the image and the image history from before the edits (and
    never touches the glyph collection); an undo on an empty history
    changes nothing. *)
Theorem edits_then_undos_restore_the_image images s :
  no_image s = false -> forallb nonempty images = true ->
  let s' := undos (List.length images) (edits images s) in
  currentImage s' = currentImage s
  /\ history s' = history s
  /\ glyphs s' = glyphs s
  /\ (history s = [] -> handleUndo s' = s').
Proof.
  intros Hs Hall. cbv zeta.
  destruct (edits_state images s Hs Hall) as (img0 & E0 & E1 & E2 & E3).
  assert (G : currentImage (undos (List.length images) (edits images s)) = currentImage s
              /\ history (undos (List.length images) (edits images s)) = history s
              /\ glyphs (undos (List.length images) (edits images s)) = glyphs s).
  { destruct images as [|i r].
    - cbn. repeat split.
    - assert (L : List.length (removelast (img0 :: i :: r)) = List.length (i :: r)).
      { clear. revert img0 i. induction r as [|u r IH]; intros img0 i; [reflexivity|].
        change (removelast (img0 :: i :: u :: r)) with (img0 :: removelast (i :: u :: r)).
        cbn [List.length]. f_equal. apply IH. }
      destruct (undos_pop (removelast (img0 :: i :: r)) (history s) (edits (i :: r) s) E2)
        as (U1 & U2 & U3); [discriminate|].
      rewrite L in U1, U2, U3.
      split; [rewrite U1, E0; reflexivity|]. split; [exact U2|]. congruence. }
  destruct G as (G1 & G2 & G3).
  split; [exact G1|]. split; [exact G2|]. split; [exact G3|].
  intros Hn. unfold handleUndo. rewrite G2, Hn. reflexivity.
Qed.

Lemma edits_then_undos_restore_the_image_witness :
  currentImage (undos 2 (edits ["data:a,B"; "data:a,C"]%string example_app))
  = currentImage example_app.
Proof.
  destruct (edits_then_undos_restore_the_image ["data:a,B"; "data:a,C"]%string example_app)
    as (H & _); [reflexivity | reflexivity |].
  exact H.
Defined.

(** X23: an image edit that fails (with nothing else happening during
    the call) leaves the image, the image history and the glyphs as they
    were; it reports the error unless there was no image, in which case the
    call is not made and the state is unchanged. *)
Theorem failed_edit_restores_the_history s :
  currentImage (handleEditImage None s) = currentImage s
  /\ history (handleEditImage None s) = history s
  /\ glyphs (handleEditImage None s) = glyphs s
  /\ editingGlyph (handleEditImage None s) = editingGlyph s
  /\ (if no_image s then handleEditImage None s = s
      else status (handleEditImage None s) = ERROR
           /\ error (handleEditImage None s)
              = Some "Failed to update image. Please try a different prompt."%string).
Proof.
  unfold handleEditImage. destruct (no_image s) eqn:H; [repeat split|].
  unfold no_image in H. unfold handleEditImage_before.
  destruct (currentImage s) as [img0|] eqn:E; [|discriminate].
  rewrite H. cbn [handleEditImage_after currentImage history glyphs editingGlyph
                  status error].
  unfold slice_init. rewrite removelast_last. repeat split.
Qed.

(** *** The glyph collection *)

Lemma ids_filter id gs :
  ids (filter (fun g => negb (String.eqb (glyph_id g) id)) gs)
  = filter (fun i => negb (String.eqb i id)) (ids gs).
Proof.
  unfold ids. induction gs as [|g r IH]; [reflexivity|].
  cbn [filter map]. destruct (String.eqb (glyph_id g) id); cbn [negb map].
  - exact IH.
  - now rewrite IH.
Qed.

Lemma filter_absent id gs :
  ~ In id (ids gs) -> filter (fun g => negb (String.eqb (glyph_id g) id)) gs = gs.
Proof.
  unfold ids. induction gs as [|g r IH]; intros Hn; [reflexivity|].
  cbn [filter]. cbn [map In] in Hn.
  destruct (String.eqb (glyph_id g) id) eqn:E.
  - apply String.eqb_eq in E. elim Hn. now left.
  - cbn [negb]. f_equal. apply IH. intros C. apply Hn. now right.
Qed.

Lemma replace_absent (updated : VectorGlyph) gs :
  ~ In (glyph_id updated) (ids gs) ->
  map (fun g => if String.eqb (glyph_id g) (glyph_id updated) then updated else g) gs = gs.
Proof.
  unfold ids. induction gs as [|g r IH]; intros Hn; [reflexivity|].
  cbn [map In] in *.
  destruct (String.eqb (glyph_id g) (glyph_id updated)) eqn:E.
  - apply String.eqb_eq in E. elim Hn. now left.
  - f_equal. apply IH. intros C. apply Hn. now right.
Qed.

Lemma replace_nth (updated : VectorGlyph) gs :
  forall i d,
    nth i (map (fun g => if String.eqb (glyph_id g) (glyph_id updated)
                         then updated else g) gs) d
    = if String.eqb (glyph_id (nth i gs d)) (glyph_id updated) && (i <? List.length gs)
      then updated else nth i gs d.
Proof.
  induction gs as [|g r IH]; intros i d.
  - cbn [map List.length]. destruct i; cbn; now rewrite andb_false_r.
  - destruct i as [|i]; cbn [map nth List.length].
    + now rewrite andb_true_r.
    + rewrite IH. reflexivity.
Qed.

(** X24: deleting by id removes every glyph with that id (two glyphs
    created in the same millisecond share one) and nothing else: the other
    glyphs stay, in their order, and an id that no glyph has changes
    nothing. *)
Theorem delete_removes_every_glyph_with_the_id id s :
  ~ In id (ids (glyphs (handleDeleteGlyph id s)))
  /\ (forall g, In g (glyphs (handleDeleteGlyph id s))
                <-> In g (glyphs s) /\ glyph_id g <> id)
  /\ ids (glyphs (handleDeleteGlyph id s))
     = filter (fun i => negb (String.eqb i id)) (ids (glyphs s))
  /\ (~ In id (ids (glyphs s)) -> handleDeleteGlyph id s = set_glyphs (glyphs s) (editingGlyph s) s)
  /\ currentImage (handleDeleteGlyph id s) = currentImage s
  /\ editingGlyph (handleDeleteGlyph id s) = editingGlyph s.
Proof.
  unfold handleDeleteGlyph. cbn [glyphs set_glyphs currentImage editingGlyph].
  assert (M : forall g, In g (filter (fun g => negb (String.eqb (glyph_id g) id)) (glyphs s))
                        <-> In g (glyphs s) /\ glyph_id g <> id).
  { intros g. rewrite filter_In, negb_true_iff.
    split; intros (H1 & H2); (split; [exact H1|]).
    - intros E. apply String.eqb_eq in E. congruence.
    - destruct (String.eqb (glyph_id g) id) eqn:E; [|reflexivity].
      apply String.eqb_eq in E. contradiction. }
  split.
  { unfold ids. rewrite in_map_iff. intros (g & E & Hg).
    apply M in Hg as (_ & Hg). contradiction. }
  split; [exact M|].
  split; [apply ids_filter|].
  split; [|split; reflexivity].
  intros Hn. now rewrite filter_absent.
Qed.

(** X25: saving an edited glyph replaces, in place, every glyph that has
    its id and closes the editor: the ids of the collection (hence its
    size and order) are unchanged, the other glyphs are untouched, and when
    no glyph has the id any more the save is dropped.  The glyph that the
    editor hands over keeps the id, size and name of the glyph it
    opened. *)
Theorem save_replaces_the_glyph_in_place updated s :
  ids (glyphs (handleSaveGlyph updated s)) = ids (glyphs s)
  /\ (forall i d,
        nth i (glyphs (handleSaveGlyph updated s)) d
        = if String.eqb (glyph_id (nth i (glyphs s) d)) (glyph_id updated)
             && (i <? List.length (glyphs s))
          then updated else nth i (glyphs s) d)
  /\ (~ In (glyph_id updated) (ids (glyphs s)) ->
      glyphs (handleSaveGlyph updated s) = glyphs s)
  /\ editingGlyph (handleSaveGlyph updated s) = None
  /\ (forall opened es,
        glyph_id (GlyphEditor.handleSave opened es) = glyph_id opened
        /\ glyph_width (GlyphEditor.handleSave opened es) = glyph_width opened
        /\ glyph_height (GlyphEditor.handleSave opened es) = glyph_height opened
        /\ glyph_name (GlyphEditor.handleSave opened es) = glyph_name opened).
Proof.
  unfold handleSaveGlyph. cbn [glyphs set_glyphs editingGlyph].
  split.
  { unfold ids. rewrite map_map. apply map_ext_in. intros g _.
    destruct (String.eqb (glyph_id g) (glyph_id updated)) eqn:E; [|reflexivity].
    apply String.eqb_eq in E. now symmetry. }
  split; [apply replace_nth|].
  split; [apply replace_absent|].
  split; [reflexivity|].
  intros opened es. repeat split.
Qed.

(** *** The prompt form and the request *)

Lemma trim_is_nil prompt :
  GeminiEditor.is_nil (GeminiEditor.trim prompt)
  = forallb GeminiEditor.is_white_space prompt.
Proof.
  unfold GeminiEditor.trim.
  induction prompt as [|c r IH]; [reflexivity|].
  cbn [GeminiEditor.trim_start forallb].
  destruct (GeminiEditor.is_white_space c) eqn:E; [exact IH|].
  cbn [GeminiEditor.trim_end]. rewrite E. reflexivity.
Qed.

(** X26: the prompt form calls the edit handler exactly when the prompt
    holds a code unit that is not white space and no generation is
    running; it then passes the prompt as typed (untrimmed) and clears the
    field.  A prompt of white space only (no-break and other Unicode
    spaces included), and any prompt during a generation, is not submitted
    and stays in the field. *)
Theorem blank_prompt_is_never_submitted generating prompt :
  GeminiEditor.handleSubmit generating prompt
  = (if forallb GeminiEditor.is_white_space prompt || generating
     then (None, prompt) else (Some prompt, []))
  /\ (forall sent, fst (GeminiEditor.handleSubmit generating prompt) = Some sent ->
        sent = prompt /\ generating = false
        /\ existsb (fun c => negb (GeminiEditor.is_white_space c)) prompt = true
        /\ snd (GeminiEditor.handleSubmit generating prompt) = []).
Proof.
  assert (H : GeminiEditor.handleSubmit generating prompt
              = (if forallb GeminiEditor.is_white_space prompt || generating
                 then (None, prompt) else (Some prompt, []))).
  { unfold GeminiEditor.handleSubmit. rewrite trim_is_nil.
    destruct (forallb GeminiEditor.is_white_space prompt), generating; reflexivity. }
  split; [exact H|].
  intros sent. rewrite H.
  destruct (forallb GeminiEditor.is_white_space prompt) eqn:F; cbn [orb fst snd];
    [discriminate|].
  destruct generating; cbn [fst snd]; [discriminate|].
  intros [= <-]. repeat split.
  clear H. induction prompt as [|c r IH]; [discriminate|].
  cbn [forallb existsb] in *.
  destruct (GeminiEditor.is_white_space c); cbn [negb orb andb] in *;
    [now apply IH | reflexivity].
Qed.

Lemma split_comma_plain s : no_comma s = true -> GeminiService.split_comma s = [s].
Proof.
  induction s as [|c r IH]; [reflexivity|].
  unfold no_comma. cbn [EditorSpec.all_chars GeminiService.split_comma].
  intros H. apply andb_true_iff in H as [Hc Hr].
  apply negb_true_iff in Hc. rewrite Hc.
  unfold no_comma in IH. rewrite (IH Hr). reflexivity.
Qed.

Lemma split_comma_header header rest :
  no_comma header = true ->
  GeminiService.split_comma (header ++ String "," rest)
  = header :: GeminiService.split_comma rest.
Proof.
  induction header as [|c r IH].
  - intros _. reflexivity.
  - unfold no_comma. cbn [EditorSpec.all_chars]. intros H.
    apply andb_true_iff in H as [Hc Hr]. apply negb_true_iff in Hc.
    cbn [String.append GeminiService.split_comma]. rewrite Hc.
    unfold no_comma in IH. rewrite (IH Hr). reflexivity.
Qed.

(** X27: the request is prepared from the payload of a data URL: for a
    header without comma and a non-empty payload without comma, the text
    after the comma is what is sent, so the data URL that the service
    returns for an image is cut back to exactly that image's data; a string
    without any comma is sent whole. *)
Theorem data_url_payload_is_extracted header payload :
  no_comma header = true -> no_comma payload = true -> is_empty payload = false ->
  GeminiService.base64Data (header ++ String "," payload) = payload
  /\ GeminiService.base64Data payload = payload
  /\ (forall mimeType,
        no_comma (match mimeType with
                  | Some m => m
                  | None => EmptyString
                  end) = true ->
        GeminiService.base64Data (GeminiService.image_url mimeType payload) = payload).
Proof.
  intros Hh Hp He.
  assert (G : forall h, no_comma h = true ->
                GeminiService.base64Data (h ++ String "," payload) = payload).
  { intros h H. unfold GeminiService.base64Data.
    rewrite (split_comma_header h payload H), (split_comma_plain payload Hp).
    cbn [nth_error]. now rewrite He. }
  split; [now apply G|]. split.
  - unfold GeminiService.base64Data. rewrite (split_comma_plain payload Hp).
    reflexivity.
  - intros mimeType Hm. unfold GeminiService.image_url.
    assert (A : forall m, no_comma m = true ->
                  GeminiService.base64Data
                    ("data:" ++ m ++ ";base64," ++ payload)%string = payload).
    { intros m H.
      replace ("data:" ++ m ++ ";base64," ++ payload)%string
        with ((("data:" ++ m) ++ ";base64") ++ String "," payload)%string.
      - apply G. unfold no_comma in *.
        rewrite !PathFacts.all_chars_app, H. reflexivity.
      - rewrite !PathFacts.append_assoc. reflexivity. }
    destruct mimeType as [m|]; [|now apply A].
    destruct (is_empty m); now apply A.
Qed.

Lemma data_url_payload_is_extracted_witness :
  GeminiService.base64Data "data:image/png;base64,AAAA" = "AAAA"%string.
Proof.
  apply (data_url_payload_is_extracted "data:image/png;base64" "AAAA");
    reflexivity.
Defined.

(** *** From the extractor through the editor and back *)

(** X28: a glyph that is extracted, added to the collection, opened in
    the editor and saved without any edit does not come back unchanged:
    the editor shows the simplified trace, but the saved path reads back
    with the first point repeated at the end (one point more).  The saved
    glyph replaces the extracted one at the end of the collection and the
    editor is closed. *)
Theorem extracted_glyph_saved_unedited_gains_a_point page now1 now2 sx sx' glyph svg app :
  CharacterExtractor.vectoriseSelection page now1 now2 sx = Some (Some glyph, sx') ->
  let opened := handleStartEditGlyph glyph (handleGlyphCreated glyph app) in
  let es := GlyphEditor.load_glyph glyph svg GlyphEditor.initial_state in
  let saved := GlyphEditor.handleSave glyph es in
  let closed := handleSaveGlyph saved opened in
  editingGlyph opened = Some glyph
  /\ (exists p0 rest,
        GlyphEditor.points es = map EditorSpec.pixel_point (p0 :: rest)
        /\ GlyphEditor.parsePath (svgPath saved)
           = map EditorSpec.pixel_point (p0 :: rest ++ [p0]))
  /\ List.length (GlyphEditor.parsePath (svgPath saved))
     = S (List.length (GlyphEditor.points es))
  /\ ids (glyphs closed) = ids (glyphs app) ++ [glyph_id glyph]
  /\ last (glyphs closed) glyph = saved
  /\ editingGlyph closed = None.
Proof.
  intros Hv. cbv zeta.
  destruct (EditorFacts.extracted_glyph_path _ _ _ _ _ _ Hv) as (pixels & Hl & Hp).
  assert (Hes : GlyphEditor.points (GlyphEditor.load_glyph glyph svg GlyphEditor.initial_state)
                = map EditorSpec.pixel_point pixels).
  { destruct svg as [[cw ch]|]; cbn [GlyphEditor.load_glyph GlyphEditor.points
      GlyphEditor.set_points GlyphEditor.set_transform];
      rewrite Hp; now apply PathFacts.extractor_path_round_trip. }
  destruct pixels as [|p0 rest]; [cbn in Hl; lia|].
  assert (Hsaved : GlyphEditor.parsePath
                     (svgPath (GlyphEditor.handleSave glyph
                        (GlyphEditor.load_glyph glyph svg GlyphEditor.initial_state)))
                   = map EditorSpec.pixel_point (p0 :: rest ++ [p0])).
  { cbn [GlyphEditor.handleSave svgPath]. rewrite Hes.
    unfold EditorSpec.pixel_point.
    rewrite <- !(map_map EditorSpec.pixel_xy EditorSpec.ipt).
    change (map EditorSpec.pixel_xy (p0 :: rest))
      with (EditorSpec.pixel_xy p0 :: map EditorSpec.pixel_xy rest).
    rewrite (PathFacts.editor_round_trip_appends_first
               (EditorSpec.pixel_xy p0) (map EditorSpec.pixel_xy rest)).
    f_equal. cbn [map]. now rewrite map_app. }
  split; [reflexivity|].
  split; [exists p0, rest; split; [exact Hes | exact Hsaved]|].
  split.
  { rewrite Hsaved, Hes, !length_map. cbn [List.length]. rewrite length_app.
    cbn [List.length]. lia. }
  unfold handleSaveGlyph, handleStartEditGlyph, handleGlyphCreated.
  cbn [glyphs set_glyphs editingGlyph GlyphEditor.handleSave glyph_id].
  rewrite map_app. cbn [map]. rewrite String.eqb_refl.
  split.
  { unfold ids. rewrite map_app, map_map. cbn [map glyph_id]. f_equal.
    apply map_ext. intros g.
    destruct (String.eqb (glyph_id g) (glyph_id glyph)) eqn:E; [|reflexivity].
    apply String.eqb_eq in E. cbn [glyph_id]. now symmetry. }
  split; [apply last_last | reflexivity].
Qed.

Lemma extracted_glyph_saved_unedited_gains_a_point_witness :
  exists glyph,
    CharacterExtractor.vectoriseSelection
      (TracerSpec.example_page (TracerSpec.paint_square 5 5 1 1)) 1 2
      TracerSpec.example_selection
    = Some (Some glyph, CharacterExtractor.set_selection None TracerSpec.example_selection)
    /\ List.length
         (GlyphEditor.parsePath
            (svgPath (GlyphEditor.handleSave glyph
                        (GlyphEditor.load_glyph glyph None GlyphEditor.initial_state))))
       = S (List.length
              (GlyphEditor.points
                 (GlyphEditor.load_glyph glyph None GlyphEditor.initial_state))).
Proof.
  assert (E : exists glyph,
             CharacterExtractor.vectoriseSelection
               (TracerSpec.example_page (TracerSpec.paint_square 5 5 1 1)) 1 2
               TracerSpec.example_selection
             = Some (Some glyph,
                     CharacterExtractor.set_selection None TracerSpec.example_selection)).
  { eexists. vm_compute. reflexivity. }
  destruct E as [glyph E]. exists glyph. split; [exact E|].
  destruct (extracted_glyph_saved_unedited_gains_a_point _ _ _ _ _ _ None initial_state E)
    as (_ & _ & H & _).
  exact H.
Defined.

End AppFacts.
